(** * arewedesigntokensyet: the propagation engine of [src/lib/propagationUtils.js]

    A shallow embedding of the functions of [propagationUtils.js]
    ([normalizePathForOutput], [collectExternalVars], [ruleConsumesVar],
    [collectDeclarations], [resolveDeclarationReferences],
    [computeDesignTokenSummary], [getPropagationData] and
    [buildUsageAggregates]) together with the properties the specification
    states about them, and of the functions of the component
    [NonTokenValues.js] that read the aggregates ([validatePattern],
    [matchesDescriptorPattern], [_readControlsFromURL], [_writeStateToURL],
    [_onToggleDetails] and [_rows]).

    Modelling conventions.
    - A string holds the UTF-8 bytes of a JavaScript string (CSS text, a
      path, a name); a byte below 128 is one ASCII character.
    - A JavaScript object used as a dictionary is a [gmap string _] of its
      own properties. The lookups of the source ([o[k] ?? ...]) also find
      the members that a plain object inherits from [Object.prototype]; the
      embedding is the source on keys that are not the name of such a member
      ([plainKey]), and the properties that need this say so.
    - [Object.keys(o).sort()] is the list of keys sorted by [codeUnitLe],
      the order of the UTF-16 code units of the strings.
    - An exception is a value [Throw e] of the type [Result]; [try]/[catch]
      is [tryCatch].
    - [console.log]/[console.error] append a line to a log carried in the
      state of the run, next to the module-level [usageFindingsBuffer] and
      [tracker].
    - JavaScript numbers that hold counts are [nat]; a double is the
      rational ([Q]) it denotes, and a division or a multiplication of
      doubles rounds its exact result to the nearest double, a tie going to
      the even significand ([roundDouble]). *)

From Stdlib Require Import QArith Qround Qabs Qpower Ascii Lqa.
From stdpp Require Import gmap strings list fin_maps sorting pretty.

#[local] Set Warnings "-clear-no-such-hyp".

(** ** Exceptions *)

(** A JavaScript [Error]: its [name], its [message] and, for an error of a
    class that overrides [Error.prototype.toString], what its own
    [toString] returns. *)
Record JsError := mkJsError {
  err_name : string;
  err_message : string;
  err_toString : option string;
}.

(** An error of a class that keeps [Error.prototype.toString]: [Error]
    itself, [TypeError], the system errors of Node. *)
Definition mkError (name message : string) : JsError :=
  mkJsError name message None.

Inductive Result (A : Type) : Type :=
| Ok (a : A)
| Throw (e : JsError).
Arguments Ok {A} a.
Arguments Throw {A} e.

Definition tryCatch {A} (body : Result A) (handler : JsError → Result A) : Result A :=
  match body with
  | Ok a => Ok a
  | Throw e => handler e
  end.

(** [String(err)]: the [toString] of the class of the error if it has its
    own, and else [Error.prototype.toString]: the name, the message, or
    ["name: message"]. *)
Definition errorToString (e : JsError) : string :=
  match err_toString e with
  | Some shown => shown
  | None =>
      if decide (err_name e = EmptyString) then err_message e
      else if decide (err_message e = EmptyString) then err_name e
      else err_name e +:+ ": " +:+ err_message e
  end.

Definition lineBreak : string := String (ascii_of_nat 10) EmptyString.

(** The error that [postcss] throws for a style sheet it cannot parse: its
    [toString] is ["CssSyntaxError: " + message], followed, when the source
    is at hand, by an empty line, the lines around the place of the error,
    and a line break. *)
Definition cssSyntaxError (message sourceCode : string) : JsError :=
  mkJsError "CssSyntaxError" message
    (Some ("CssSyntaxError: " +:+ message +:+
           (if decide (sourceCode = EmptyString) then EmptyString
            else lineBreak +:+ lineBreak +:+ sourceCode +:+ lineBreak))).

(** [new Error(err)]: the message is the string form of its argument. *)
Definition newError (e : JsError) : JsError :=
  mkError "Error" (errorToString e).

(** ** Strings *)

(** [s.startsWith(p)] *)
Fixpoint startsWith (p s : string) : bool :=
  match p, s with
  | EmptyString, _ => true
  | String a p', String b s' => if decide (a = b) then startsWith p' s' else false
  | String _ _, EmptyString => false
  end.

(** [s.includes(p)] *)
Fixpoint includes (p s : string) : bool :=
  startsWith p s ||
  match s with
  | EmptyString => false
  | String _ s' => includes p s'
  end.

(** The string made of the given bytes. *)
Definition ofBytes (bytes : list nat) : string :=
  foldr (λ n s, String (ascii_of_nat n) s) EmptyString bytes.

(** The order in which [Array.prototype.sort] puts strings when it has no
    comparator: by UTF-16 code units. On UTF-8 bytes this is the order of
    the bytes, but for the first bytes [F0]-[F4] of a character beyond
    U+FFFF (in UTF-16 a surrogate, [D800]-[DBFF]), which come before the
    first bytes [EE] and [EF] of the characters U+E000-U+FFFF.
    [utf16Rank] puts the bytes in that order. *)
Definition utf16Rank (c : ascii) : ascii :=
  let n := nat_of_ascii c in
  if (240 <=? n) && (n <=? 244) then ascii_of_nat (n - 2)
  else if n =? 238 then ascii_of_nat 243
  else if n =? 239 then ascii_of_nat 244
  else c.

Fixpoint utf16Key (s : string) : string :=
  match s with
  | String c s' => String (utf16Rank c) (utf16Key s')
  | EmptyString => EmptyString
  end.

Definition codeUnitLe (s t : string) : Prop := String.le (utf16Key s) (utf16Key t).

#[global] Instance codeUnitLe_dec : RelDecision codeUnitLe :=
  λ s t, decide (String.le (utf16Key s) (utf16Key t)).

(** [s < t] in that order. *)
Definition codeUnitLt (s t : string) : Prop := codeUnitLe s t ∧ s ≠ t.

(** The names of the members that a plain object inherits from
    [Object.prototype]: for such a key [k], [o[k]] is not [undefined]
    although [o] has no own property [k]. *)
Definition objectPrototypeKeys : list string :=
  [ "constructor"; "hasOwnProperty"; "isPrototypeOf"; "propertyIsEnumerable";
    "toLocaleString"; "toString"; "valueOf"; "__proto__";
    "__defineGetter__"; "__defineSetter__"; "__lookupGetter__";
    "__lookupSetter__" ].

(** A key whose lookup in a plain object finds own properties only. *)
Definition plainKey (k : string) : bool := bool_decide (k ∉ objectPrototypeKeys).

Definition slash : ascii := "/"%char.
Definition backslash : ascii := ascii_of_nat 92.

(** [s.replace(/^[/\\]/, '')]: one leading slash or backslash is removed. *)
Definition stripLeadingSep (s : string) : string :=
  match s with
  | String c s' => if decide (c = slash ∨ c = backslash) then s' else s
  | EmptyString => s
  end.

(** ** Node's [path.posix.relative] *)

Module NodePath.

(** The segments of a path: the pieces between slashes. *)
Fixpoint splitGo (cur : string) (s : string) : list string :=
  match s with
  | EmptyString => [String.rev cur]
  | String c s' =>
      if decide (c = slash) then String.rev cur :: splitGo EmptyString s'
      else splitGo (String c cur) s'
  end.
Definition split (s : string) : list string := splitGo EmptyString s.

Fixpoint join (segs : list string) : string :=
  match segs with
  | [] => EmptyString
  | [s] => s
  | s :: rest => s +:+ "/" +:+ join rest
  end.

(** [posix.resolve] keeps a stack of segments: empty segments and ["."]
    are dropped, [".."] pops (and stays at the root). *)
Definition pushSegment (stack : list string) (seg : string) : list string :=
  if decide (seg = EmptyString ∨ seg = ".") then stack
  else if decide (seg = "..") then removelast stack
  else stack ++ [seg].

Definition isAbsolute (p : string) : bool := startsWith "/" p.

(** [posix.resolve(p)] as the list of segments under the root; a relative
    path is resolved against the working directory [cwd]. *)
Definition resolve (cwd : list string) (p : string) : list string :=
  fold_left pushSegment (split p) (if isAbsolute p then [] else cwd).

Fixpoint dropCommon (from to : list string) : list string * list string :=
  match from, to with
  | f :: from', t :: to' =>
      if decide (f = t) then dropCommon from' to' else (from, to)
  | _, _ => (from, to)
  end.

(** [posix.relative(from, to)]: one [".."] for every segment of [from]
    below the common ancestor, then the rest of [to]. *)
Definition relative (cwd : list string) (from to : string) : string :=
  let '(up, down) := dropCommon (resolve cwd from) (resolve cwd to) in
  join (((λ _, "..") <$> up) ++ down).

End NodePath.

(** ** [normalizePathForOutput] *)

Section NormalizePath.
(** [config.repoPath] *)
Variable repoPath : string.
(** [path.relative]; the tests replace it by a function that throws. *)
Variable pathRelative : string → string → Result string.

(** The argument is a string here, so [!absolutePath || typeof absolutePath
    !== 'string'] holds for the empty string only. *)
Definition normalizePathForOutput (absolutePath : string) : Result string :=
  tryCatch
    (if decide (absolutePath = EmptyString) then Ok absolutePath
     else
       match pathRelative repoPath absolutePath with
       | Throw e => Throw e
       | Ok relative =>
           if negb (bool_decide (relative = EmptyString)) && negb (startsWith ".." relative)
           then Ok (stripLeadingSep relative)
           else Ok absolutePath
       end)
    (λ _, Ok absolutePath).

(** The value the callers use: the function never throws (see
    [normalizePathForOutput_returns]), so the result is read off directly. *)
Definition normalizedPath (absolutePath : string) : string :=
  match normalizePathForOutput absolutePath with
  | Ok p => p
  | Throw _ => absolutePath
  end.
End NormalizePath.

(** Node's own [path.relative], which does not throw on strings. *)
Definition posixRelative (cwd : list string) (from to : string) : Result string :=
  Ok (NodePath.relative cwd from to).

(** ** [buildUsageAggregates] *)

(** One entry of [usageFindingsBuffer]. [f_tokens] is [None] when the
    finding has no [tokens] property. *)
Record Finding := mkFinding {
  f_path : string;
  f_descriptor : string;
  f_value : string;
  f_containsToken : bool;
  f_isIgnored : bool;
  f_tokens : option (list string);
}.

(** [descriptorValues.byDescriptor[d].values[v]] *)
Record ValueEntry := mkValueEntry {
  ve_id : option string;
  ve_count : nat;
  ve_containsToken : bool;
  ve_isIgnored : bool;
  ve_tokens : option (list string);
  ve_files : gmap string nat;
}.

(** [descriptorValues.byDescriptor[d]] *)
Record DescriptorEntry := mkDescriptorEntry {
  de_id : option string;
  de_values : gmap string ValueEntry;
}.

(** [tokenUsage.byToken[t]] *)
Record TokenEntry := mkTokenEntry {
  te_total : nat;
  te_files : gmap string nat;
  te_descriptors : gmap string nat;
}.

Record TokenUsage := mkTokenUsage {
  byToken : gmap string TokenEntry;
  tu_generatedAt : string;
  tu_schemaVersion : nat;
}.

Record DescriptorValues := mkDescriptorValues {
  byDescriptor : gmap string DescriptorEntry;
  dv_generatedAt : string;
  dv_schemaVersion : nat;
}.

Record UsageAggregates := mkUsageAggregates {
  tokenUsage : TokenUsage;
  descriptorValues : DescriptorValues;
}.

(** [m[k] = (m[k] ?? 0) + 1] *)
Definition increment (k : string) (m : gmap string nat) : gmap string nat :=
  <[k := S (default 0 (m !! k))]> m.

(** The [tokens] property of a fresh value entry:
    [Array.isArray(finding.tokens) && finding.tokens.length > 0]. *)
Definition initialTokens (finding : Finding) : option (list string) :=
  match f_tokens finding with
  | Some (t :: ts) => Some (t :: ts)
  | _ => None
  end.

(** The entry created at the first finding of a (descriptor, value) pair. *)
Definition newValueEntry (finding : Finding) : ValueEntry :=
  mkValueEntry None 0 (f_containsToken finding) (f_isIgnored finding)
               (initialTokens finding) ∅.

Definition newDescriptorEntry : DescriptorEntry := mkDescriptorEntry None ∅.
Definition newTokenEntry : TokenEntry := mkTokenEntry 0 ∅ ∅.

(** The updates made to the value entry of a finding:
    [count += 1], [isIgnored = true] when the finding is ignored, and the
    count of the file. *)
Definition updateValueEntry (relativePath : string) (finding : Finding)
    (valueEntry : ValueEntry) : ValueEntry :=
  mkValueEntry (ve_id valueEntry)
               (S (ve_count valueEntry))
               (ve_containsToken valueEntry)
               (if f_isIgnored finding then true else ve_isIgnored valueEntry)
               (ve_tokens valueEntry)
               (increment relativePath (ve_files valueEntry)).

(** The descriptor-centric part of the loop body. The lookups
    [byDescriptor[finding.descriptor] ?? ...] and
    [descriptorEntry.values[finding.value] ?? ...] are lookups of own
    properties here, which they are in the source for the keys of [plainKey];
    for the name of a member of [Object.prototype] the source finds that
    member, creates no entry, and the loop goes wrong ([valueEntry.files] is
    [undefined] and reading [files[relativePath]] throws). *)
Definition aggregateDescriptor (relativePath : string) (finding : Finding)
    (byD : gmap string DescriptorEntry) : gmap string DescriptorEntry :=
  let descriptorEntry := default newDescriptorEntry (byD !! f_descriptor finding) in
  let valueEntry :=
    default (newValueEntry finding) (de_values descriptorEntry !! f_value finding) in
  <[f_descriptor finding :=
      mkDescriptorEntry (de_id descriptorEntry)
        (<[f_value finding := updateValueEntry relativePath finding valueEntry]>
           (de_values descriptorEntry))]> byD.

(** The body of the loop over [finding.tokens]; [byToken[tokenId] ?? ...]
    is a lookup of own properties, as for the descriptors. *)
Definition aggregateToken (relativePath descriptor : string)
    (byT : gmap string TokenEntry) (tokenId : string) : gmap string TokenEntry :=
  let tokenEntry := default newTokenEntry (byT !! tokenId) in
  <[tokenId :=
      mkTokenEntry (S (te_total tokenEntry))
                   (increment relativePath (te_files tokenEntry))
                   (increment descriptor (te_descriptors tokenEntry))]> byT.

(** The token-centric part of the loop body ([Array.isArray(finding.tokens)]). *)
Definition aggregateTokens (relativePath : string) (finding : Finding)
    (byT : gmap string TokenEntry) : gmap string TokenEntry :=
  match f_tokens finding with
  | Some tokenIds => fold_left (aggregateToken relativePath (f_descriptor finding)) tokenIds byT
  | None => byT
  end.

(** [Object.keys(m).sort()] *)
Definition sortedKeys {V} (m : gmap string V) : list string :=
  merge_sort codeUnitLe (map_to_list m).*1.

Definition setValueId (id : string) (valueEntry : ValueEntry) : ValueEntry :=
  mkValueEntry (Some id) (ve_count valueEntry) (ve_containsToken valueEntry)
               (ve_isIgnored valueEntry) (ve_tokens valueEntry) (ve_files valueEntry).

(** The inner loop of the ID assignment: [values[valueKey].id = String(nextId++)]. *)
Definition assignValueIds (valueKeys : list string)
    (st : nat * gmap string ValueEntry) : nat * gmap string ValueEntry :=
  fold_left (λ '(nextId, values) valueKey,
               (S nextId, alter (setValueId (pretty nextId)) valueKey values))
            valueKeys st.

(** One round of the outer loop: the descriptor takes the next ID, then its
    values, in sorted order, take the following ones. *)
Definition assignDescriptorId (st : nat * gmap string DescriptorEntry)
    (descriptorName : string) : nat * gmap string DescriptorEntry :=
  let '(nextId, byD) := st in
  match byD !! descriptorName with
  | Some descriptorEntry =>
      let '(nextId', values') :=
        assignValueIds (sortedKeys (de_values descriptorEntry))
                       (S nextId, de_values descriptorEntry) in
      (nextId', <[descriptorName := mkDescriptorEntry (Some (pretty nextId)) values']> byD)
  | None => (nextId, byD)
  end.

Definition assignIds (byD : gmap string DescriptorEntry) : gmap string DescriptorEntry :=
  (fold_left assignDescriptorId (sortedKeys byD) (0, byD)).2.

Section Aggregates.
Variable repoPath : string.
Variable pathRelative : string → string → Result string.
(** [new Date().toISOString()] at the time of the call. *)
Variable generatedAt : string.

(** The state of the first loop: [byToken] and [byDescriptor]. *)
Definition aggregateFinding
    (st : gmap string TokenEntry * gmap string DescriptorEntry)
    (finding : Finding) : gmap string TokenEntry * gmap string DescriptorEntry :=
  let relativePath := normalizedPath repoPath pathRelative (f_path finding) in
  (aggregateTokens relativePath finding st.1,
   aggregateDescriptor relativePath finding st.2).

(** The first loop, from an arbitrary state: what "the rest of the
    aggregation" does to the state reached so far. *)
Definition aggregateFrom
    (st : gmap string TokenEntry * gmap string DescriptorEntry)
    (usageFindings : list Finding) :=
  fold_left aggregateFinding usageFindings st.

Definition aggregateFindings (usageFindings : list Finding)
  : gmap string TokenEntry * gmap string DescriptorEntry :=
  aggregateFrom (∅, ∅) usageFindings.

Definition buildUsageAggregates (usageFindings : list Finding) : UsageAggregates :=
  let st := aggregateFindings usageFindings in
  mkUsageAggregates
    (mkTokenUsage st.1 generatedAt 1)
    (mkDescriptorValues (assignIds st.2) generatedAt 1).

End Aggregates.

(** ** Reading the aggregates *)

(** [descriptorValues.byDescriptor[d]?.values[v]] *)
Definition valueEntryOf (byD : gmap string DescriptorEntry) (d v : string)
  : option ValueEntry :=
  byD !! d ≫= λ descriptorEntry, de_values descriptorEntry !! v.

(** Whether a finding belongs to the bucket of [(d, v)]. *)
Definition forPair (d v : string) (finding : Finding) : bool :=
  bool_decide (f_descriptor finding = d ∧ f_value finding = v).



(** The things that receive an ID: a descriptor, or a value of a descriptor. *)
Inductive IdKey :=
| DescriptorKey (d : string)
| ValueKey (d v : string).

Definition keyDescriptor (k : IdKey) : string :=
  match k with
  | DescriptorKey d => d
  | ValueKey d _ => d
  end.

Definition idOf (byD : gmap string DescriptorEntry) (k : IdKey) : option string :=
  match k with
  | DescriptorKey d => byD !! d ≫= de_id
  | ValueKey d v => valueEntryOf byD d v ≫= ve_id
  end.

(** The order of the ID assignment following the words of the
    specification: the descriptor names sorted lexicographically, each
    descriptor followed by its distinct values sorted lexicographically. *)
Definition idBlock (byD : gmap string DescriptorEntry) (d : string) : list IdKey :=
  match byD !! d with
  | Some descriptorEntry =>
      DescriptorKey d :: (ValueKey d <$> sortedKeys (de_values descriptorEntry))
  | None => []
  end.

Definition idOrder (byD : gmap string DescriptorEntry) : list IdKey :=
  sortedKeys byD ≫= idBlock byD.

(** The descriptors and values of an aggregate, in no particular order. *)
Definition allKeys (byD : gmap string DescriptorEntry) : list IdKey :=
  (map_to_list byD).*1 ≫= λ d,
    match byD !! d with
    | Some descriptorEntry =>
        DescriptorKey d ::
        (ValueKey d <$> (map_to_list (de_values descriptorEntry)).*1)
    | None => []
    end.

(** The order of the ID assignment, stated on two keys: the key of the
    descriptor that sorts first comes first; a descriptor comes before its
    values; two values of one descriptor come as they sort. *)
Definition keyBefore (k1 k2 : IdKey) : Prop :=
  codeUnitLt (keyDescriptor k1) (keyDescriptor k2) ∨
  keyDescriptor k1 = keyDescriptor k2 ∧
  match k1, k2 with
  | DescriptorKey _, ValueKey _ _ => True
  | ValueKey _ v1, ValueKey _ v2 => codeUnitLt v1 v2
  | _, _ => False
  end.

#[global] Instance keyBefore_dec : RelDecision keyBefore.
Proof. intros [d1|d1 v1] [d2|d2 v2]; unfold keyBefore, codeUnitLt; apply _. Defined.

(** The number of keys of the aggregate that get their ID before [k]. *)
Definition keysBefore (byD : gmap string DescriptorEntry) (k : IdKey) : nat :=
  length (filter (λ k', keyBefore k' k) (allKeys byD)).

(** An entry without its ID, to compare what the ID assignment leaves alone. *)
Definition eraseValueId (valueEntry : ValueEntry) : ValueEntry :=
  mkValueEntry None (ve_count valueEntry) (ve_containsToken valueEntry)
               (ve_isIgnored valueEntry) (ve_tokens valueEntry) (ve_files valueEntry).

Definition eraseIds (byD : gmap string DescriptorEntry) : gmap string DescriptorEntry :=
  (λ descriptorEntry,
     mkDescriptorEntry None (eraseValueId <$> de_values descriptorEntry)) <$> byD.

(** The findings on which the lookups of [buildUsageAggregates] are lookups
    of own properties: the descriptor, the value, the normalized path and
    the tokens of the finding are not names of members of
    [Object.prototype]. *)
Definition plainFinding (normalize : string → string) (finding : Finding) : bool :=
  plainKey (f_descriptor finding) &&
  plainKey (f_value finding) &&
  plainKey (normalize (f_path finding)) &&
  forallb plainKey (default [] (f_tokens finding)).

Definition plainFindings (normalize : string → string)
    (usageFindings : list Finding) : bool :=
  forallb (plainFinding normalize) usageFindings.

(** ** The buckets in closed form *)

(** The findings of a (descriptor, value) pair, in the order of the run. *)
Definition pairFindings (d v : string) (usageFindings : list Finding) : list Finding :=
  filter (λ f, forPair d v f = true) usageFindings.

(** The counts object that [m[k] = (m[k] ?? 0) + 1] builds from a list of
    keys. *)
Definition fileCounts (keys : list string) : gmap string nat :=
  fold_left (λ m k, increment k m) keys ∅.

(** The value entry of a pair before the IDs are assigned, from the
    findings of the pair; [normalize] is [normalizePathForOutput]. *)
Definition bucketOf (normalize : string → string) (findings : list Finding)
  : option ValueEntry :=
  match findings with
  | [] => None
  | first :: _ =>
      Some (mkValueEntry None (length findings)
                         (f_containsToken first)
                         (existsb f_isIgnored findings)
                         (initialTokens first)
                         (fileCounts ((λ f, normalize (f_path f)) <$> findings)))
  end.

(** The occurrences of a token in a run: for every occurrence of [tokenId]
    in the [tokens] of a finding, the normalized path and the descriptor of
    the finding. *)
Definition tokenOccurrences (normalize : string → string) (tokenId : string)
    (usageFindings : list Finding) : list (string * string) :=
  usageFindings ≫= λ f,
    (λ _, (normalize (f_path f), f_descriptor f))
      <$> filter (λ t, t = tokenId) (default [] (f_tokens f)).

(** The token entry of a list of occurrences. *)
Definition tokenEntryOf (occurrences : list (string * string)) : option TokenEntry :=
  match occurrences with
  | [] => None
  | _ => Some (mkTokenEntry (length occurrences)
                            (fileCounts occurrences.*1)
                            (fileCounts occurrences.*2))
  end.

(** ** The analysis of one file *)

(** [node.source.start] and [node.source.end] *)
Record Position := mkPosition { pos_line : nat; pos_column : nat }.

(** A node of the PostCSS tree, as [root.walk] hands it to its callback.
    [n_prop] and [n_value] are [None] where the node has no such property;
    [n_parent] is [node.parent.toString()]. *)
Record Node := mkNode {
  n_type : string;
  n_prop : option string;
  n_value : option string;
  n_start : Position;
  n_end : Position;
  n_parent : string;
}.

(** What [getVarData] stores for a custom property; the code of this file
    reads [value] and [isExternal]. *)
Record VarData := mkVarData {
  vd_value : string;
  vd_isExternal : bool;
  vd_start : Position;
  vd_end : Position;
}.

(** An element pushed by [collectDeclarations]. *)
Record Declaration := mkDeclaration {
  d_prop : string;
  d_value : string;
  d_start : Position;
  d_end : Position;
}.

(** The result of [analyzeTrace]. *)
Record Analysis := mkAnalysis {
  containsDesignToken : bool;
  containsExcludedDeclaration : bool;
}.

Section Shapes.
(** The shapes of the data that only the absent modules
    ([resolutionUtils.js], [trackUnresolvedVars.js]) build. *)
Context {Sources Unresolved Origins : Type}.

(** A declaration after [resolveDeclarationReferences] has annotated it.
    The last three fields are set late in the loop body and are [None]
    before. *)
Record ResolvedDeclaration := mkResolvedDeclaration {
  r_prop : string;
  r_value : string;
  r_start : Position;
  r_end : Position;
  r_resolutionTrace : list string;
  r_containsDesignToken : bool;
  r_isExcluded : bool;
  r_isExternalVar : bool;
  r_resolutionSources : Sources;
  r_unresolvedVariables : Unresolved;
  r_resolutionType : option string;
  r_resolvedFrom : option Origins;
  r_tokens : option (list string);
}.

(** The summary [getPropagationData] resolves to. *)
Record Summary := mkSummary {
  designTokenCount : nat;
  foundProps : nat;
  percentage : Q;
  foundPropValues : list ResolvedDeclaration;
  foundVariables : gmap string VarData;
}.
End Shapes.
Arguments ResolvedDeclaration : clear implicits.
Arguments Summary : clear implicits.

(** The functions and values this file imports ([config.js],
    [cssParser.js], [tokenUtils.js], [externalVars.js],
    [resolutionUtils.js], [trackUnresolvedVars.js], [minimatch], [path],
    [fs]). *)
Class Collaborators (Sources Unresolved Origins Tracker Report : Type) := {
  (** [config.repoPath] *)
  repoPath : string;
  (** [config.externalVarMapping], in the order of its keys *)
  externalVarMapping : list (string * list string);
  (** [path.relative] *)
  pathRelative : string → string → Result string;
  (** [path.resolve(path.join(a, b))] *)
  pathResolveJoin : string → string → string;
  minimatch : string → string → bool;
  (** reading and parsing the file *)
  parseCSS : string → Result (list Node);
  (** [fs.access] followed by [getExternalVars] *)
  getExternalVars : string → Result (gmap string VarData);
  getVarData : Node → bool → VarData;
  isVariableDefinition : string → bool;
  isTokenizableProperty : string → bool;
  isWithinValidParentSelector : Node → bool;
  (** [extractDesignTokenIdsFromDecl(decl, TOKEN_KEY_SET)] *)
  extractDesignTokenIdsFromDecl :
    ResolvedDeclaration Sources Unresolved Origins → list string;
  buildResolutionTrace : string → gmap string VarData → list string;
  analyzeTrace : list string → string → Analysis;
  getResolutionSources : list string → gmap string VarData → string → Sources;
  getUnresolvedVariablesFromTrace : list string → gmap string VarData → Unresolved;
  classifyResolutionFromTrace : list string → gmap string VarData → string → string;
  getResolvedVarOrigins : list string → gmap string VarData → string → Origins;
  (** [tracker.addFromDeclaration(decl, filePath)] *)
  addFromDeclaration :
    Tracker → ResolvedDeclaration Sources Unresolved Origins → string → Tracker;
  (** [tracker.toReport()] *)
  toReport : Tracker → Report;
  (** [fs.mkdir] and the three [fs.writeFile] of the reports *)
  writeReports : Report → TokenUsage → DescriptorValues → Result unit;
  (** [new Date().toISOString()] *)
  generatedAt : string;
}.

Definition dquote : string := String (ascii_of_nat 34) EmptyString.

(** ** Doubles *)

(** The integer nearest to [x], a tie going to the even one. *)
Definition roundHalfEven (x : Q) : Z :=
  let n := Qfloor x in
  match (x - inject_Z n ?= 1 # 2)%Q with
  | Lt => n
  | Gt => (n + 1)%Z
  | Eq => if Z.even n then n else (n + 1)%Z
  end.

(** The exponent [k] of a positive [x]: [2 ^ k <= x < 2 ^ (k + 1)]. *)
Definition binade (x : Q) : Z :=
  let k := (Z.log2 (Qnum x) - Z.log2 (Zpos (Qden x)))%Z in
  if Qle_bool (2 ^ k) x then k else (k - 1)%Z.

(** The unit in the last place of the doubles of the binade of [x]: a
    double has a significand of 53 bits. *)
Definition ulp (x : Q) : Q := (2 ^ (binade x - 52))%Q.

(** The double that an arithmetic operation of JavaScript returns for the
    exact result [x] (IEEE 754 binary64, round to nearest, ties to even),
    for [0 <= x] in the range of the normal doubles, where the quotients and
    the products of counts lie. *)
Definition roundDouble (x : Q) : Q :=
  if Qle_bool x 0 then 0%Q
  else (inject_Z (roundHalfEven (x / ulp x)) * ulp x)%Q.

(** [+(x).toFixed(2)] for a double [0 <= x]: the nearest multiple of 1/100
    of the exact value of [x], a tie going up ("let n be an integer for
    which n / 10^2 - x is as close to zero as possible; if there are two
    such n, pick the larger"). The unary plus reads the decimal text back
    as the double nearest to it, which is written here as the number of
    hundredths it stands for. *)
Definition toFixed2 (x : Q) : Q := (Qfloor (x * 100 + (1 # 2)) # 100)%Q.

Section Run.
Context {Sources Unresolved Origins Tracker Report : Type}.
Context {C : Collaborators Sources Unresolved Origins Tracker Report}.

Abbreviation Resolved := (ResolvedDeclaration Sources Unresolved Origins).

(** The state of the module during a run: the console, and the
    module-level [usageFindingsBuffer] and [tracker]. *)
Record RunState := mkRunState {
  console : list string;
  usageFindingsBuffer : list Finding;
  tracker : Tracker;
}.

(** A computation that reads and writes the state and may throw. *)
Definition M (A : Type) : Type := RunState → RunState * Result A.

#[export] Instance M_ret : MRet M := λ A (a : A) st, (st, Ok a).
#[export] Instance M_bind : MBind M := λ A B (k : A → M B) (m : M A) st,
  match m st with
  | (st', Ok a) => k a st'
  | (st', Throw e) => (st', Throw e)
  end.
Definition throw {A} (e : JsError) : M A := λ st, (st, Throw e).
Definition catch {A} (m : M A) (handler : JsError → M A) : M A :=
  λ st, match m st with
        | (st', Ok a) => (st', Ok a)
        | (st', Throw e) => handler e st'
        end.
Definition liftResult {A} (r : Result A) : M A := λ st, (st, r).

(** [console.log] and [console.error] *)
Definition consoleLog (line : string) : M unit :=
  λ st, (mkRunState (console st ++ [line]) (usageFindingsBuffer st) (tracker st),
         Ok tt).

Definition pushFinding (finding : Finding) : M unit :=
  λ st, (mkRunState (console st) (usageFindingsBuffer st ++ [finding]) (tracker st),
         Ok tt).

Definition updateTracker (f : Tracker → Tracker) : M unit :=
  λ st, (mkRunState (console st) (usageFindingsBuffer st) (f (tracker st)), Ok tt).

Definition getState : M RunState := λ st, (st, Ok st).
End Run.

Section PropagationData.
Context {Sources Unresolved Origins Tracker Report : Type}.
Context {C : Collaborators Sources Unresolved Origins Tracker Report}.

Abbreviation Run := (@M Tracker).
Abbreviation Resolved := (ResolvedDeclaration Sources Unresolved Origins).

(** The body of the inner loop of [collectExternalVars]. *)
Definition collectExternalFile (filePath : string)
    (foundVariables : gmap string VarData) (externalRelPath : string)
  : Run (gmap string VarData) :=
  let externalAbsPath := pathResolveJoin repoPath externalRelPath in
  if decide (externalAbsPath = filePath) then
    consoleLog ("Skipping var extraction from " +:+ externalRelPath);;
    mret foundVariables
  else
    extVars ← catch (liftResult (getExternalVars externalAbsPath))
                    (λ e,
                       consoleLog (externalRelPath +:+
                                     " doesn't exist, skipping... " +:+
                                     err_message e);;
                       mret ∅);
    (* { ...foundVariables, ...extVars } *)
    mret (extVars ∪ foundVariables).

Fixpoint collectExternalFiles (filePath : string)
    (foundVariables : gmap string VarData) (externalRelPaths : list string)
  : Run (gmap string VarData) :=
  match externalRelPaths with
  | [] => mret foundVariables
  | externalRelPath :: rest =>
      foundVariables' ← collectExternalFile filePath foundVariables externalRelPath;
      collectExternalFiles filePath foundVariables' rest
  end.

Fixpoint collectExternalPatterns (filePath : string)
    (foundVariables : gmap string VarData)
    (mapping : list (string * list string)) : Run (gmap string VarData) :=
  match mapping with
  | [] => mret foundVariables
  | (pattern, externalRelPaths) :: rest =>
      foundVariables' ←
        (if minimatch filePath ("**/" +:+ pattern)
         then collectExternalFiles filePath foundVariables externalRelPaths
         else mret foundVariables);
      collectExternalPatterns filePath foundVariables' rest
  end.

Definition collectExternalVars (filePath : string) : Run (gmap string VarData) :=
  collectExternalPatterns filePath ∅ externalVarMapping.

(** [ruleConsumesVar(node)] for a node whose [prop] is [prop]; the
    [undefined] of the source is [false]. *)
Definition ruleConsumesVar (node : Node) (prop : string) : bool :=
  if bool_decide (n_type node = "decl") && isVariableDefinition prop
  then includes ("var(" +:+ prop +:+ ")") (n_parent node)
  else false.

(** [!s] for a string property that may be absent. *)
Definition present (s : option string) : option string :=
  match s with
  | Some s' => if decide (s' = EmptyString) then None else Some s'
  | None => None
  end.

(** The condition under which a custom property enters the scope:
    [isVariableDefinition(node.prop) &&
     (isWithinValidParentSelector(node) || ruleConsumesVar(node))]. *)
Definition acceptsDefinition (node : Node) (prop : string) : bool :=
  isVariableDefinition prop &&
  (isWithinValidParentSelector node || ruleConsumesVar node prop).

(** The line logged when the name is taken already. *)
Definition collisionLine (relative : string) (node : Node) (prop : string) : string :=
  relative +:+ ":" +:+ pretty (pos_line (n_start node)) +:+ " " +:+
  dquote +:+ prop +:+ dquote +:+ " already exists, skipping...".

(** A node that reaches the test [foundVariables[node.prop]] with the
    name [prop]: a local definition of [prop]. *)
Definition definesLocally (node : Node) (prop : string) : bool :=
  bool_decide (present (n_prop node) = Some prop) &&
  bool_decide (is_Some (present (n_value node))) &&
  negb (isTokenizableProperty prop) &&
  acceptsDefinition node prop.

(** The callback of [root.walk] in [collectDeclarations]; the state is the
    array [declarations] and the object [foundVariables]. *)
Definition visitNode (filePath : string)
    (st : list Declaration * gmap string VarData) (node : Node)
  : Run (list Declaration * gmap string VarData) :=
  let '(declarations, foundVariables) := st in
  match present (n_prop node), present (n_value node) with
  | Some prop, Some value =>
      if isTokenizableProperty prop then
        mret (declarations ++ [mkDeclaration prop value (n_start node) (n_end node)],
              foundVariables)
      else if acceptsDefinition node prop then
        match foundVariables !! prop with
        | Some _ =>
            relative ← liftResult (pathRelative repoPath filePath);
            consoleLog (collisionLine relative node prop);;
            mret st
        | None =>
            mret (declarations, <[prop := getVarData node false]> foundVariables)
        end
      else mret st
  | _, _ => mret st
  end.

Fixpoint walk (filePath : string) (nodes : list Node)
    (st : list Declaration * gmap string VarData)
  : Run (list Declaration * gmap string VarData) :=
  match nodes with
  | [] => mret st
  | node :: rest => st' ← visitNode filePath st node; walk filePath rest st'
  end.

(** [collectDeclarations(root, foundVariables, filePath)]: the declarations
    it returns, and [foundVariables] as it leaves it. *)
Definition collectDeclarations (root : list Node)
    (foundVariables : gmap string VarData) (filePath : string)
  : Run (list Declaration * gmap string VarData) :=
  walk filePath root ([], foundVariables).

(** The annotations of one declaration, up to the call of the tracker. *)
Definition annotate (decl : Declaration) (foundVariables : gmap string VarData)
    (filePath : string) : Resolved :=
  let trace := buildResolutionTrace (d_value decl) foundVariables in
  let analysis := analyzeTrace trace (d_prop decl) in
  mkResolvedDeclaration
    (d_prop decl) (d_value decl) (d_start decl) (d_end decl)
    trace
    (containsDesignToken analysis)
    (containsExcludedDeclaration analysis)
    (existsb (λ val,
                existsb (λ ref, vd_isExternal ref && bool_decide (vd_value ref = val))
                        (map_to_list foundVariables).*2)
             trace)
    (getResolutionSources trace foundVariables filePath)
    (getUnresolvedVariablesFromTrace trace foundVariables)
    None None None.

Definition setResolution (decl : Resolved) (resolutionType : string)
    (resolvedFrom : Origins) (tokens : option (list string)) : Resolved :=
  mkResolvedDeclaration
    (r_prop decl) (r_value decl) (r_start decl) (r_end decl)
    (r_resolutionTrace decl) (r_containsDesignToken decl) (r_isExcluded decl)
    (r_isExternalVar decl) (r_resolutionSources decl) (r_unresolvedVariables decl)
    (Some resolutionType) (Some resolvedFrom) tokens.

(** The finding pushed for a declaration. *)
Definition findingOf (filePath : string) (decl : Declaration)
    (analysis : Analysis) (tokenIds : list string) : Finding :=
  let isIgnoredValue :=
    containsExcludedDeclaration analysis && negb (containsDesignToken analysis) in
  mkFinding filePath (d_prop decl) (d_value decl)
            (containsDesignToken analysis)
            isIgnoredValue
            (match tokenIds with [] => None | _ => Some tokenIds end).

(** The declaration when [extractDesignTokenIdsFromDecl] is called:
    classified, without [tokens] yet. *)
Definition classified (decl : Declaration) (foundVariables : gmap string VarData)
    (filePath : string) : Resolved :=
  let annotated := annotate decl foundVariables filePath in
  let trace := r_resolutionTrace annotated in
  setResolution annotated
    (classifyResolutionFromTrace trace foundVariables filePath)
    (getResolvedVarOrigins trace foundVariables filePath)
    None.

Definition tokenIdsOf (decl : Declaration) (foundVariables : gmap string VarData)
    (filePath : string) : list string :=
  extractDesignTokenIdsFromDecl (classified decl foundVariables filePath).

(** The declaration at the end of the loop body: [decl.tokens] is set
    when there is at least one token. *)
Definition resolvedOf (decl : Declaration) (foundVariables : gmap string VarData)
    (filePath : string) : Resolved :=
  let annotated := annotate decl foundVariables filePath in
  let trace := r_resolutionTrace annotated in
  setResolution annotated
    (classifyResolutionFromTrace trace foundVariables filePath)
    (getResolvedVarOrigins trace foundVariables filePath)
    (match tokenIdsOf decl foundVariables filePath with
     | [] => None
     | tokenIds => Some tokenIds
     end).

(** The finding pushed to [usageFindingsBuffer] for the declaration. *)
Definition findingFor (decl : Declaration) (foundVariables : gmap string VarData)
    (filePath : string) : Finding :=
  findingOf filePath decl
    (analyzeTrace (buildResolutionTrace (d_value decl) foundVariables) (d_prop decl))
    (tokenIdsOf decl foundVariables filePath).

(** The body of the loop of [resolveDeclarationReferences]. *)
Definition resolveDeclaration (foundVariables : gmap string VarData)
    (filePath : string) (decl : Declaration) : Run Resolved :=
  updateTracker (λ t, addFromDeclaration t (annotate decl foundVariables filePath)
                                         filePath);;
  pushFinding (findingFor decl foundVariables filePath);;
  mret (resolvedOf decl foundVariables filePath).

Fixpoint resolveDeclarations (foundVariables : gmap string VarData)
    (filePath : string) (declarations : list Declaration) : Run (list Resolved) :=
  match declarations with
  | [] => mret []
  | decl :: rest =>
      resolved ← resolveDeclaration foundVariables filePath decl;
      others ← resolveDeclarations foundVariables filePath rest;
      mret (resolved :: others)
  end.

(** [resolveDeclarationReferences]: the loop, then the reports of the run
    so far are built and written. *)
Definition resolveDeclarationReferences (declarations : list Declaration)
    (foundVariables : gmap string VarData) (filePath : string)
  : Run (list Resolved) :=
  resolved ← resolveDeclarations foundVariables filePath declarations;
  st ← getState;
  let unresolvedReport := toReport (tracker st) in
  let aggregates :=
    buildUsageAggregates repoPath pathRelative generatedAt (usageFindingsBuffer st) in
  liftResult (writeReports unresolvedReport (tokenUsage aggregates)
                           (descriptorValues aggregates));;
  mret resolved.

(** [computeDesignTokenSummary]: [(designTokenCount, ignoredValueCount)]. *)
Definition computeDesignTokenSummary (declarations : list Resolved) : nat * nat :=
  (length (filter (λ d, r_containsDesignToken d = true) declarations),
   length (filter (λ d, (r_isExcluded d && negb (r_containsDesignToken d)) = true)
                  declarations)).

(** The percentage of [getPropagationData], from the three counts. The
    counts are doubles that hold integers; the quotient [ratio] and the
    product [ratio * 100] are the doubles nearest to the exact results, and
    [toFixed(2)] rounds the exact value of the latter: 23 of 160 is 14.375,
    the double product is just below it, and the percentage is 14.37. *)
Definition computePercentage (found designTokenCount ignoredValueCount : nat) : Q :=
  let foundLessIgnored := (Z.of_nat found - Z.of_nat ignoredValueCount)%Z in
  if negb (found =? 0)%nat && negb (foundLessIgnored =? 0)%Z then
    let ratio :=
      roundDouble (inject_Z (Z.of_nat designTokenCount) / inject_Z foundLessIgnored) in
    toFixed2 (roundDouble (ratio * 100))
  else (-1)%Q.

(** The double [ratio * 100] of [getPropagationData] for [c] declarations
    with a token out of [e] eligible ones. *)
Definition doublePercent (c e : Z) : Q :=
  roundDouble (roundDouble (inject_Z c / inject_Z e) * 100).

Definition getPropagationData (filePath : string)
  : Run (Summary Sources Unresolved Origins) :=
  catch
    (foundVariables ← collectExternalVars filePath;
     root ← liftResult (parseCSS filePath);
     '(declarations, foundVariables') ←
       collectDeclarations root foundVariables filePath;
     foundPropValues ←
       resolveDeclarationReferences declarations foundVariables' filePath;
     let '(designTokenCount, ignoredValueCount) :=
       computeDesignTokenSummary foundPropValues in
     mret (mkSummary designTokenCount
                     (length foundPropValues)
                     (computePercentage (length foundPropValues)
                                        designTokenCount ignoredValueCount)
                     foundPropValues
                     foundVariables'))
    (λ err,
       consoleLog ("Unable to read or parse " +:+ filePath +:+ " " +:+
                     err_message err);;
       throw (newError err)).
(** The declarations of a summary that are excluded and hold no token. *)
Definition ignoredOf (summary : Summary Sources Unresolved Origins) : nat :=
  length (filter (λ d, (r_isExcluded d && negb (r_containsDesignToken d)) = true)
                 (foundPropValues summary)).

(** The declarations of a summary that count for the percentage. *)
Definition eligibleOf (summary : Summary Sources Unresolved Origins) : nat :=
  length (foundPropValues summary) - ignoredOf summary.

(** A variable that the external files can give to [filePath]: a readable
    file other than [filePath] itself, listed under a pattern that matches
    [filePath], defines it. *)
Definition importableFrom (filePath : string) (externalRelPaths : list string)
    (name : string) (definition : VarData) : Prop :=
  ∃ externalRelPath vars,
    externalRelPath ∈ externalRelPaths ∧
    pathResolveJoin repoPath externalRelPath ≠ filePath ∧
    getExternalVars (pathResolveJoin repoPath externalRelPath) = Ok vars ∧
    vars !! name = Some definition.

Definition importable (filePath : string) (mapping : list (string * list string))
    (name : string) (definition : VarData) : Prop :=
  ∃ pattern externalRelPaths,
    (pattern, externalRelPaths) ∈ mapping ∧
    minimatch filePath ("**/" +:+ pattern) = true ∧
    importableFrom filePath externalRelPaths name definition.

(** The external files that [collectExternalVars] visits for [filePath]:
    those listed under a pattern that matches it. *)
Definition listedFor (filePath : string) (mapping : list (string * list string))
    (externalRelPath : string) : Prop :=
  ∃ pattern externalRelPaths,
    (pattern, externalRelPaths) ∈ mapping ∧
    minimatch filePath ("**/" +:+ pattern) = true ∧
    externalRelPath ∈ externalRelPaths.

(** The line that [collectExternalVars] logs for an external file it does
    not take variables from: the analysed file itself, or a file that
    cannot be read. *)
Definition skippedLine (filePath externalRelPath line : string) : Prop :=
  pathResolveJoin repoPath externalRelPath = filePath ∧
  line = "Skipping var extraction from " +:+ externalRelPath
  ∨
  pathResolveJoin repoPath externalRelPath ≠ filePath ∧
  ∃ e, getExternalVars (pathResolveJoin repoPath externalRelPath) = Throw e ∧
       line = externalRelPath +:+ " doesn't exist, skipping... " +:+ err_message e.

(** What a stage that only logs does to the state. *)
Definition onlyLogs (st st' : @RunState Tracker) : Prop :=
  (∃ lines, console st' = console st ++ lines) ∧
  usageFindingsBuffer st' = usageFindingsBuffer st ∧
  tracker st' = tracker st.

(** The declaration that the walk pushes for a node, if it pushes one: the
    node has a property and a value and the property is tokenizable. *)
Definition declarationOf (node : Node) : option Declaration :=
  match present (n_prop node), present (n_value node) with
  | Some prop, Some value =>
      if isTokenizableProperty prop
      then Some (mkDeclaration prop value (n_start node) (n_end node))
      else None
  | _, _ => None
  end.

(** The entry of a name in the scope after the walk of [nodes], when the
    scope before the walk is [foundVariables]: an entry that exists stays,
    otherwise the first local definition of the name makes it. *)
Definition scopeAfter (nodes : list Node) (foundVariables : gmap string VarData)
    (name : string) : option VarData :=
  match foundVariables !! name with
  | Some existing => Some existing
  | None =>
      (λ node, getVarData node false)
        <$> head (filter (λ node, definesLocally node name = true) nodes)
  end.

(** What the specification states of a failed read or parse: the error
    raised carries the file path and the message of the failure. *)
Definition raisesWithPathAndMessage (filePath : string) (st : @RunState Tracker)
    (err : JsError) : Prop :=
  parseCSS filePath = Throw err →
  ∃ st' e,
    getPropagationData filePath st = (st', Throw e) ∧
    includes filePath (err_message e) = true ∧
    includes (err_message err) (err_message e) = true.
End PropagationData.

(** What the specification states of the [tokens] of a bucket: it carries
    them whenever some finding of its pair has a non-empty [tokens] list. *)
Definition carriesTokensOfAnyFinding (byD : gmap string DescriptorEntry)
    (usageFindings : list Finding) (d v : string) : Prop :=
  (∃ f, f ∈ usageFindings ∧ forPair d v f = true ∧ is_Some (initialTokens f)) →
  ∃ ve, valueEntryOf byD d v = Some ve ∧ is_Some (ve_tokens ve).

(** ** The resolution walk of [resolutionUtils.js] *)

Module ResolutionSpec.

(** Modelled from the spec: [resolutionUtils.js], with its
    [buildResolutionTrace], is not among the sources. The definitions of
    this module follow section 4.2 of the specification (Resolution Trace
    Builder) and the data model of its section 3. *)
Record VariableDefinition := mkVariableDefinition {
  name : string;
  rawValue : string;
  isExternal : bool;
  sourceFile : string;
  sourcePosition : Position;
}.

(** The terminal classification of an attempt. *)
Inductive Leaf :=
| token (id : string)
| literal
| unresolved (name : string)
| cycle (name : string).

(** One resolution attempt: the chain of names traversed and the leaf. *)
Record Attempt := mkAttempt { chain : list string; leaf : Leaf }.

Definition comma : ascii := ","%char.
Definition closing : ascii := ")"%char.
Definition space : ascii := " "%char.

(** The name of a [var(name[, fallback])] whose text after ["var("] is
    [s]: the characters before the first comma or closing parenthesis,
    without spaces. *)
Fixpoint takeName (s : string) : string :=
  match s with
  | EmptyString => EmptyString
  | String c s' =>
      if decide (c = comma ∨ c = closing) then EmptyString
      else if decide (c = space) then takeName s'
      else String c (takeName s')
  end.

Fixpoint dropChars (n : nat) (s : string) : string :=
  match n, s with
  | S n', String _ s' => dropChars n' s'
  | _, _ => s
  end.

(** The names of all [var()] occurrences of a text, in order, those
    nested in [calc(...)] or in a fallback included. *)
Fixpoint varOccurrences (s : string) : list string :=
  match s with
  | EmptyString => []
  | String _ s' =>
      (if startsWith "var(" s then [takeName (dropChars 4 s)] else [])
        ++ varOccurrences s'
  end.

Section Walk.
(** The configured design-token identifiers and the scope of the file. *)
Variable tokens : gset string.
Variable scope : gmap string VariableDefinition.

(** Steps 1 to 3 of the algorithm and the cycle guard, for one name.
    [fuel] bounds the depth of the recursion; [None] means that it ran
    out. *)
Fixpoint resolveName (fuel : nat) (chain : list string) (name : string)
  : option (list Attempt) :=
  if decide (name ∈ tokens) then Some [mkAttempt chain (token name)]
  else if decide (name ∈ chain) then Some [mkAttempt chain (cycle name)]
  else
    match scope !! name with
    | None => Some [mkAttempt chain (unresolved name)]
    | Some definition =>
        match fuel with
        | 0 => None
        | S fuel' =>
            match varOccurrences (rawValue definition) with
            | [] => Some [mkAttempt (chain ++ [name]) literal]
            | names =>
                mjoin <$> mapM (resolveName fuel' (chain ++ [name])) names
            end
        end
    end.

(** [buildTrace(value, scope)]: every occurrence of the value starts a
    walk with an empty chain. A chain holds distinct names of the
    scope, so the size of the scope is fuel enough. *)
Definition buildTrace (value : string) : option (list Attempt) :=
  mjoin <$> mapM (resolveName (size scope) []) (varOccurrences value).
End Walk.

(** Section 4.3: [containsDesignToken]. *)
Definition isToken (l : Leaf) : bool :=
  match l with token _ => true | _ => false end.

(** Section 4.5: the leaves the tracker records as unresolved. *)
Definition unresolvedName (l : Leaf) : option string :=
  match l with
  | unresolved n | cycle n => Some n
  | _ => None
  end.

Definition unresolvedNames (trace : list Attempt) : list string :=
  omap (λ a, unresolvedName (leaf a)) trace.

(** Section 4.4: the token identifiers of a trace, one per occurrence. *)
Definition tokenIds (trace : list Attempt) : list string :=
  omap (λ a, match leaf a with token id => Some id | _ => None end) trace.

(** What holds of every attempt of a trace. *)
Definition wellFormed (scope : gmap string VariableDefinition) (a : Attempt) : Prop :=
  NoDup (chain a) ∧
  (∀ n, n ∈ chain a → is_Some (scope !! n)) ∧
  (∀ n, leaf a = cycle n → n ∈ chain a).

End ResolutionSpec.

(** ** [NonTokenValues.js]: the list of non-token values *)

(** The pure functions of the component that lists the values of
    [descriptorValues.json]: [validatePattern], [matchesDescriptorPattern],
    [_readControlsFromURL], [_rows], and the handlers that keep the
    controls and the query string in step. Strings are UTF-8, as in the
    rest of the file; [length] and the character classes of the source are
    those of UTF-16 code units and are computed from the bytes. *)
Module NonTokenValues.

(** The white space of [String.prototype.trim] and of [\s] is the class
    [WhiteSpace] and the line terminators. In ASCII: tab, line feed,
    vertical tab, form feed, carriage return and space. *)
Definition isSpace (c : ascii) : bool :=
  let n := nat_of_ascii c in
  (9 <=? n) && (n <=? 13) || (n =? 32).

(** Beyond ASCII: U+00A0, U+1680, U+2000 to U+200A, U+2028, U+2029, U+202F,
    U+205F, U+3000 and U+FEFF, here in UTF-8. Each is one UTF-16 code
    unit. *)
Definition unicodeSpaces : list string :=
  ofBytes <$>
    [ [194; 160]; [225; 154; 128];
      [226; 128; 128]; [226; 128; 129]; [226; 128; 130]; [226; 128; 131];
      [226; 128; 132]; [226; 128; 133]; [226; 128; 134]; [226; 128; 135];
      [226; 128; 136]; [226; 128; 137]; [226; 128; 138];
      [226; 128; 168]; [226; 128; 169]; [226; 128; 175];
      [226; 129; 159]; [227; 128; 128]; [239; 187; 191] ].

Fixpoint dropBytes (n : nat) (s : string) : string :=
  match n, s with
  | S n', String _ s' => dropBytes n' s'
  | _, _ => s
  end.

(** The string without the white space character it begins with, if it
    begins with one. *)
Definition stripSpace (s : string) : option string :=
  match s with
  | String c s' =>
      if isSpace c then Some s'
      else (λ space, dropBytes (String.length space) s)
             <$> head (filter (λ space, startsWith space s = true) unicodeSpaces)
  | EmptyString => None
  end.

(** [s.trimStart()]; every step removes a character, so that as many steps
    as the string has bytes are enough. *)
Fixpoint trimStartFrom (steps : nat) (s : string) : string :=
  match steps with
  | S steps' =>
      match stripSpace s with
      | Some rest => trimStartFrom steps' rest
      | None => s
      end
  | 0 => s
  end.

Definition trimStart (s : string) : string := trimStartFrom (String.length s) s.

(** [s.trimEnd()]: from the end, what is left is dropped as long as it is
    white space only. *)
Fixpoint trimEnd (s : string) : string :=
  match s with
  | String c s' =>
      let rest := trimEnd s' in
      if decide (trimStart (String c rest) = EmptyString) then EmptyString
      else String c rest
  | EmptyString => s
  end.

(** [s.trim()] *)
Definition trim (s : string) : string := trimEnd (trimStart s).

(** [s.length], the number of UTF-16 code units: one for a character up to
    U+FFFF, two beyond; in UTF-8 the bytes [80]-[BF] continue a character,
    and a first byte from [F0] on begins one beyond U+FFFF. *)
Fixpoint utf16Length (s : string) : nat :=
  match s with
  | String c s' =>
      let n := nat_of_ascii c in
      (if (128 <=? n) && (n <=? 191) then 0 else if 240 <=? n then 2 else 1)
      + utf16Length s'
  | EmptyString => 0
  end.

Definition asterisk : ascii := "*"%char.

(** [(p.match(/\*/g) || []).length] *)
Fixpoint asteriskCount (s : string) : nat :=
  match s with
  | String c s' => (if decide (c = asterisk) then 1 else 0) + asteriskCount s'
  | EmptyString => 0
  end.

(** [p.endsWith('*')] *)
Fixpoint endsWithAsterisk (s : string) : bool :=
  match s with
  | String c EmptyString => bool_decide (c = asterisk)
  | String _ s' => endsWithAsterisk s'
  | EmptyString => false
  end.

(** [p.slice(0, -1)] *)
Fixpoint dropLast (s : string) : string :=
  match s with
  | String c EmptyString => EmptyString
  | String c s' => String c (dropLast s')
  | EmptyString => EmptyString
  end.

(** The class [[a-z0-9\s.,_%#()/+-]] with the flag [i]. *)
Definition allowedChar (c : ascii) : bool :=
  let n := nat_of_ascii c in
  (97 <=? n) && (n <=? 122) || (65 <=? n) && (n <=? 90) ||
  (48 <=? n) && (n <=? 57) || isSpace c ||
  bool_decide (c ∈ ["."; ","; "_"; "%"; "#"; "("; ")"; "/"; "+"; "-"]%char).

(** [ALLOWED_BASE_RE.test(base)]: every character of [base] is of the
    class, an ASCII character of [allowedChar] or a white space character
    beyond ASCII. *)
Fixpoint allowedFrom (steps : nat) (s : string) : bool :=
  match s, steps with
  | EmptyString, _ => true
  | String c s', S steps' =>
      if allowedChar c then allowedFrom steps' s'
      else match stripSpace s with
           | Some rest => allowedFrom steps' rest
           | None => false
           end
  | String _ _, 0 => false
  end.

Definition allowedBase (s : string) : bool := allowedFrom (String.length s) s.

(** The strings that [ALLOWED_BASE_RE] accepts, said without recursion:
    those made of characters of the class, each an allowed ASCII character
    or a white space character beyond ASCII. *)
Definition allowedUnit (u : string) : Prop :=
  (∃ c, u = String c EmptyString ∧ allowedChar c = true) ∨ u ∈ unicodeSpaces.

Definition joinUnits (units : list string) : string :=
  foldr String.app EmptyString units.

Definition allowedText (s : string) : Prop :=
  ∃ units, Forall allowedUnit units ∧ s = joinUnits units.

(** The object [validatePattern] returns. *)
Record Validation := mkValidation { ok : bool; message : option string }.

Definition valid : Validation := mkValidation true None.
Definition invalid (why : string) : Validation := mkValidation false (Some why).

Definition MAX_LEN : nat := 64.

Definition validatePattern (pattern : string) : Validation :=
  let p := trim pattern in
  if utf16Length p =? 0 then invalid "Pattern cannot be empty."
  else if MAX_LEN <? utf16Length p
  then invalid ("Pattern is too long, max " +:+ pretty MAX_LEN +:+ " characters.")
  else if decide (p = "*") then valid
  else if 1 <? asteriskCount p
  then invalid ("Only one wildcard " +:+ dquote +:+ "*" +:+ dquote +:+ " is allowed.")
  else
    let hasWildcard := asteriskCount p =? 1 in
    if hasWildcard && negb (endsWithAsterisk p)
    then invalid ("Wildcard " +:+ dquote +:+ "*" +:+ dquote +:+
                    " is only supported at the end.")
    else
      let base := if hasWildcard then dropLast p else p in
      if hasWildcard && (utf16Length base =? 0)
      then invalid ("Prefix is required before the wildcard " +:+
                      dquote +:+ "*" +:+ dquote +:+ ".")
      else if negb (allowedBase base)
      then invalid "Pattern contains disallowed characters."
      else valid.

Definition matchesDescriptorPattern (descriptor pattern : string) : bool :=
  if decide (pattern = "*") then true
  else if negb (includes "*" pattern) then bool_decide (descriptor = pattern)
  else startsWith (dropLast pattern) descriptor.

(** [s.split(',')] *)
Fixpoint splitCommas (cur : string) (s : string) : list string :=
  match s with
  | EmptyString => [String.rev cur]
  | String c s' =>
      if decide (c = ","%char) then String.rev cur :: splitCommas EmptyString s'
      else splitCommas (String c cur) s'
  end.

(** The state of the controls. *)
Record Controls := mkControls {
  pattern : string;
  excludeIgnored : bool;
  openDetails : list string;
}.

(** [_readControlsFromURL], from [params.get]: the value of a parameter of
    the query string, if it is there. *)
Definition readControlsFromURL (get : string → option string) : Controls :=
  let pattern :=
    match get "pattern" with
    | Some p => if decide (p = EmptyString) then "*" else p
    | None => "*"
    end in
  let pattern := if negb (ok (validatePattern pattern)) then "*" else pattern in
  let openDetails :=
    match get "o" with
    | Some o => splitCommas EmptyString o
    | None => []
    end in
  mkControls pattern (bool_decide (get "ex" = Some "1")) openDetails.

(** An entry of [values] as the component reads it: [vo_count] is [None]
    when [count] is not a number, [vo_files] when there is no [files], and
    [vo_id] when there is no [id]. *)
Record ValueObject := mkValueObject {
  vo_count : option nat;
  vo_containsToken : bool;
  vo_isIgnored : bool;
  vo_files : option (list (string * nat));
  vo_id : option string;
}.

(** [data.byDescriptor] as [Object.entries] lists it; a descriptor without
    [values], and a value that is [null], are [None]. *)
Definition Dataset : Type :=
  list (string * option (list (string * option ValueObject))).

Record Row := mkRow {
  row_descriptor : string;
  row_value : string;
  row_count : nat;
  row_files : list (string * nat);
  row_id : string;
}.

(** The body of the inner loop of [_rows]. *)
Definition rowOf (excludeIgnored : bool) (descriptor value : string)
    (valObj : option ValueObject) : option Row :=
  match valObj with
  | Some valObj =>
      match vo_count valObj with
      | Some count =>
          if vo_containsToken valObj then None
          else if excludeIgnored && vo_isIgnored valObj then None
          else Some (mkRow descriptor value count
                           (default [] (vo_files valObj))
                           (default EmptyString (vo_id valObj)))
      | None => None
      end
  | None => None
  end.

(** The rows before they are sorted. *)
Definition candidateRows (pattern : string) (excludeIgnored : bool) (data : Dataset)
  : list Row :=
  data ≫= λ '(descriptor, descObj),
    if matchesDescriptorPattern descriptor pattern
    then omap (λ '(value, valObj), rowOf excludeIgnored descriptor value valObj)
              (default [] descObj)
    else [].

Section Rows.
(** [String.prototype.localeCompare], which depends on the locale. *)
Variable localeCompare : string → string → Z.

(** The comparator given to [rows.sort]. *)
Definition compareRows (a b : Row) : Z :=
  if negb (row_count b =? row_count a)
  then (Z.of_nat (row_count b) - Z.of_nat (row_count a))%Z
  else localeCompare (row_descriptor a +:+ ":" +:+ row_value a)
                     (row_descriptor b +:+ ":" +:+ row_value b).

(** [Array.prototype.sort] is stable: the result is the list built by
    inserting the elements, last first, each before the first element that
    does not precede it. *)
Fixpoint insertRow (x : Row) (sorted : list Row) : list Row :=
  match sorted with
  | [] => [x]
  | y :: rest =>
      if (compareRows x y <=? 0)%Z then x :: y :: rest else y :: insertRow x rest
  end.

Definition sortRows (rows : list Row) : list Row := foldr insertRow [] rows.

(** [_rows()], from [this._data?.byDescriptor], [this.pattern] and
    [this.excludeIgnored]. *)
Definition rows (data : option Dataset) (pattern : string) (excludeIgnored : bool)
  : list Row :=
  match data with
  | None => []
  | Some data =>
      if negb (ok (validatePattern pattern)) then []
      else sortRows (candidateRows pattern excludeIgnored data)
  end.
End Rows.

(** [URLSearchParams]: the pairs of the query string, in order. *)
Definition Params : Type := list (string * string).

(** [params.get(name)]: the value of the first pair of that name. *)
Fixpoint paramsGet (params : Params) (name : string) : option string :=
  match params with
  | [] => None
  | (k, v) :: rest => if decide (k = name) then Some v else paramsGet rest name
  end.

(** [params.delete(name)] removes every pair of that name. *)
Definition paramsDelete (name : string) (params : Params) : Params :=
  filter (λ p, p.1 ≠ name) params.

(** [params.set(name, value)] gives the first pair of that name the value
    and removes the others, or appends a pair. *)
Fixpoint paramsSet (name value : string) (params : Params) : Params :=
  match params with
  | [] => [(name, value)]
  | (k, v) :: rest =>
      if decide (k = name) then (name, value) :: paramsDelete name rest
      else (k, v) :: paramsSet name value rest
  end.

(** [keys.join(',')] *)
Fixpoint joinCommas (keys : list string) : string :=
  match keys with
  | [] => EmptyString
  | [key] => key
  | key :: rest => key +:+ "," +:+ joinCommas rest
  end.

(** [openSet.add(key)]: a [Set] keeps the order of insertion. *)
Definition setAdd (openSet : list string) (key : string) : list string :=
  if decide (key ∈ openSet) then openSet else openSet ++ [key].

(** [new Set(keys)] *)
Definition newSet (keys : list string) : list string := foldl setAdd [] keys.

(** [openSet.delete(key)] *)
Definition setDelete (openSet : list string) (key : string) : list string :=
  filter (λ k, k ≠ key) openSet.

(** The window: the query string of [window.location], as the pairs that
    [new URLSearchParams(window.location.search)] reads from it, and the
    entries of the session history behind it. *)
Record Window := mkWindow {
  search : Params;
  back : list Params;
}.

(** [history.pushState] and [history.replaceState] with the URL
    [`${window.location.pathname}?${params.toString()}`]. *)
Definition pushState (params : Params) (w : Window) : Window :=
  mkWindow params (back w ++ [search w]).
Definition replaceState (params : Params) (w : Window) : Window :=
  mkWindow params (back w).

Section UrlState.
(** [s != b] for a string and a boolean, which JavaScript compares as the
    numbers they convert to. *)
Variable differsFromBoolean : string → bool → bool.

(** [_writeStateToURL({ replace })] on the controls of the element. *)
Definition writeStateToURL (replace : bool) (el : Controls) (w : Window)
  : Controls * Window :=
  let params := search w in
  let currentPattern := paramsGet params "pattern" in
  let currentExcludeIgnored := paramsGet params "ex" in
  let '(params, el) :=
    if match currentPattern with
       | Some p => bool_decide (p ≠ pattern el)
       | None => true
       end ||
       match currentExcludeIgnored with
       | Some ex => differsFromBoolean ex (excludeIgnored el)
       | None => true
       end
    then
      let params := paramsSet "pattern" (pattern el) params in
      let params := paramsSet "ex" (if excludeIgnored el then "1" else "0") params in
      let params := paramsDelete "o" params in
      (params, mkControls (pattern el) (excludeIgnored el) [])
    else if negb (length (openDetails el) =? 0)
    then (paramsSet "o" (joinCommas (openDetails el)) params, el)
    else (paramsDelete "o" params, el) in
  (el, if replace then replaceState params w else pushState params w).

(** [_onToggleDetails(e)], from [data-details-key] and [open] of the
    target of the event. *)
Definition onToggleDetails (newKey : string) (open : bool) (el : Controls)
    (w : Window) : Controls * Window :=
  let openSet := newSet (openDetails el) in
  let openSet := if open then setAdd openSet newKey else setDelete openSet newKey in
  writeStateToURL false (mkControls (pattern el) (excludeIgnored el) openSet) w.

(** [_onExcludeToggle(e)], from [checked] of the target. *)
Definition onExcludeToggle (checked : bool) (el : Controls) (w : Window)
  : Controls * Window :=
  writeStateToURL false (mkControls (pattern el) checked (openDetails el)) w.

(** [_onPatternInput(e)], from [value] of the target. *)
Definition onPatternInput (value : string) (el : Controls) (w : Window)
  : Controls * Window :=
  let el := mkControls (trim value) (excludeIgnored el) (openDetails el) in
  if ok (validatePattern (pattern el)) then writeStateToURL false el w
  else (el, w).
End UrlState.

(** [_readControlsFromURL()] in a window. *)
Definition readControls (w : Window) : Controls :=
  readControlsFromURL (paramsGet (search w)).

End NonTokenValues.

(** ** Test doubles *)

(** Collaborators for running the analysis on concrete trees, set up as the
    tests of the repository set up theirs: the configuration of
    [propagationUtils.test.js], a table of files in place of the parser, and
    the resolution walk of the specification in place of
    [resolutionUtils.js]. *)
Module TestDoubles.
Import ResolutionSpec.

Definition designTokenKeys : gset string :=
  {[ "--color-accent-primary"; "--border-radius-medium"; "--border-width" ]}.
Definition designTokenProperties : list string :=
  ["color"; "background-color"; "border"; "border-radius"].
Definition excludedValues : list string := ["inherit"].

Definition scopeOf (vars : gmap string VarData) : gmap string VariableDefinition :=
  map_imap (λ n vd, Some (mkVariableDefinition n (vd_value vd) (vd_isExternal vd)
                            EmptyString (vd_start vd)))
           vars.

(** The trace as a list of strings: the value, then the token identifiers
    its occurrences reach. *)
Definition traceOf (value : string) (vars : gmap string VarData) : list string :=
  value :: tokenIds (default [] (buildTrace designTokenKeys (scopeOf vars) value)).

Definition analysisOf (trace : list string) (prop : string) : Analysis :=
  match trace with
  | value :: reached =>
      mkAnalysis (bool_decide (reached ≠ [])) (bool_decide (value ∈ excludedValues))
  | [] => mkAnalysis false false
  end.

Definition noSuchFile (path : string) : JsError :=
  mkError "Error" ("ENOENT: no such file or directory, open '" +:+ path +:+ "'").

Definition collaborators (files : list (string * Result (list Node)))
  : Collaborators (list string) (list string) (list string)
                  (list (string * string)) (list (string * string)) :=
  {| repoPath := "/project";
     externalVarMapping := [];
     pathRelative := posixRelative [];
     pathResolveJoin a b := a +:+ "/" +:+ b;
     minimatch _ _ := false;
     parseCSS path :=
       default (Throw (noSuchFile path))
               ((list_to_map files : gmap string (Result (list Node))) !! path);
     getExternalVars path := Throw (noSuchFile path);
     getVarData node external :=
       mkVarData (default EmptyString (n_value node)) external
                 (n_start node) (n_end node);
     isVariableDefinition prop := startsWith "--" prop;
     isTokenizableProperty prop := bool_decide (prop ∈ designTokenProperties);
     isWithinValidParentSelector node :=
       startsWith ":root" (n_parent node) || startsWith ":host" (n_parent node);
     extractDesignTokenIdsFromDecl decl := tail (r_resolutionTrace decl);
     buildResolutionTrace := traceOf;
     analyzeTrace := analysisOf;
     getResolutionSources _ _ filePath := [filePath];
     getUnresolvedVariablesFromTrace _ _ := [];
     classifyResolutionFromTrace _ _ _ := "local";
     getResolvedVarOrigins _ _ filePath := [filePath];
     addFromDeclaration t decl filePath := t ++ [(r_prop decl, filePath)];
     toReport t := t;
     writeReports _ _ _ := Ok tt;
     generatedAt := "2025-01-01T00:00:00.000Z" |}.

Definition at_ (line column : nat) : Position := mkPosition line column.

(** The tree of the test "extracts token usage from a single CSS file". *)
Definition rootRule : string :=
  ":root { --color-accent-primary: #ff0000; --spacing: 12px; }".
Definition btnRule : string :=
  ".btn { color: var(--color-accent-primary); border: 1px solid var(--spacing); background-color: inherit; }".

Definition buttonCss : list Node :=
  [ mkNode "rule" None None (at_ 2 7) (at_ 5 7) EmptyString;
    mkNode "decl" (Some "--color-accent-primary") (Some "#ff0000")
           (at_ 3 9) (at_ 3 40) rootRule;
    mkNode "decl" (Some "--spacing") (Some "12px") (at_ 4 9) (at_ 4 24) rootRule;
    mkNode "rule" None None (at_ 7 7) (at_ 11 7) EmptyString;
    mkNode "decl" (Some "color") (Some "var(--color-accent-primary)")
           (at_ 8 9) (at_ 8 43) btnRule;
    mkNode "decl" (Some "border") (Some "1px solid var(--spacing)")
           (at_ 9 9) (at_ 9 41) btnRule;
    mkNode "decl" (Some "background-color") (Some "inherit")
           (at_ 10 9) (at_ 10 34) btnRule ].

(** A path that cannot be read: it names a directory, and [fs.readFile]
    rejects with Node's [EISDIR] error. *)
Definition readFailure : JsError :=
  mkError "Error" "EISDIR: illegal operation on a directory, read".

Definition files : list (string * Result (list Node)) :=
  [ ("/project/src/components/button.css", Ok buttonCss);
    ("/project/broken.css", Throw readFailure) ].

Definition start : @RunState (list (string * string)) := mkRunState [] [] [].

(** The scope of the pathological file [--a: var(--b); --b: var(--a)]. *)
Definition cyclicScope : gmap string VariableDefinition :=
  {[ "--a" := mkVariableDefinition "--a" "var(--b)" false "/project/cycle.css"
                (mkPosition 2 3);
     "--b" := mkVariableDefinition "--b" "var(--a)" false "/project/cycle.css"
                (mkPosition 3 3) ]}.

(** A scope that an external file claimed first, and a local definition
    of the same name. *)
Definition externalAccent : VarData :=
  mkVarData "var(--color-accent-primary)" true (at_ 2 3) (at_ 2 40).
Definition claimedScope : gmap string VarData := {[ "--accent" := externalAccent ]}.
Definition localAccent : Node :=
  mkNode "decl" (Some "--accent") (Some "#00f") (at_ 2 9) (at_ 2 24)
         ":root { --accent: #00f; }".

(** Findings of two files for the same declaration text: the alias is
    unresolved in the first file and reaches a token in the second. *)
Definition unresolvedUse : Finding :=
  mkFinding "/project/a.css" "color" "var(--accent)" false false None.
Definition tokenUse : Finding :=
  mkFinding "/project/b.css" "color" "var(--accent)" true false
            (Some ["--color-accent-primary"]).
Definition ignoredUse : Finding :=
  mkFinding "/project/a.css" "background-color" "inherit" false true None.
Definition keptUse : Finding :=
  mkFinding "/project/b.css" "background-color" "inherit" false false None.

(** The finding of the test "counts duplicate occurrences via a single-hop
    alias in one declaration". *)
Definition aliasTwice : Finding :=
  mkFinding "/project/alias-dup.css" "border-color" "var(--accent) var(--accent)"
            true false (Some ["--color-accent-primary"; "--color-accent-primary"]).

(** A second configuration, with shared files of custom properties that
    every style sheet may use: [tokens.css], [missing.css], which is not
    there, and [overrides.css], which redefines the accent. *)
Definition sharedAccent : VarData :=
  mkVarData "#ff0000" true (at_ 2 3) (at_ 2 34).
Definition overriddenAccent : VarData :=
  mkVarData "#00ff00" true (at_ 2 3) (at_ 2 34).
Definition sharedFiles : gmap string (gmap string VarData) :=
  {[ "/project/shared/tokens.css" :=
       {[ "--color-accent-primary" := sharedAccent;
          "--border-width" := mkVarData "1px" true (at_ 3 3) (at_ 3 23) ]};
     "/project/shared/overrides.css" :=
       {[ "--color-accent-primary" := overriddenAccent ]} ]}.

Definition withShared
  : Collaborators (list string) (list string) (list string)
                  (list (string * string)) (list (string * string)) :=
  let base := collaborators files in
  {| repoPath := repoPath (Collaborators := base);
     externalVarMapping :=
       [("*.css", ["shared/tokens.css"; "shared/missing.css";
                   "shared/overrides.css"])];
     pathRelative := pathRelative (Collaborators := base);
     pathResolveJoin := pathResolveJoin (Collaborators := base);
     minimatch _ pattern := bool_decide (pattern = "**/*.css");
     parseCSS := parseCSS (Collaborators := base);
     getExternalVars path :=
       default (Throw (noSuchFile path)) (Ok <$> sharedFiles !! path);
     getVarData := getVarData (Collaborators := base);
     isVariableDefinition := isVariableDefinition (Collaborators := base);
     isTokenizableProperty := isTokenizableProperty (Collaborators := base);
     isWithinValidParentSelector :=
       isWithinValidParentSelector (Collaborators := base);
     extractDesignTokenIdsFromDecl :=
       extractDesignTokenIdsFromDecl (Collaborators := base);
     buildResolutionTrace := buildResolutionTrace (Collaborators := base);
     analyzeTrace := analyzeTrace (Collaborators := base);
     getResolutionSources := getResolutionSources (Collaborators := base);
     getUnresolvedVariablesFromTrace :=
       getUnresolvedVariablesFromTrace (Collaborators := base);
     classifyResolutionFromTrace :=
       classifyResolutionFromTrace (Collaborators := base);
     getResolvedVarOrigins := getResolvedVarOrigins (Collaborators := base);
     addFromDeclaration := addFromDeclaration (Collaborators := base);
     toReport := toReport (Collaborators := base);
     writeReports := writeReports (Collaborators := base);
     generatedAt := generatedAt (Collaborators := base) |}.

(** A third configuration, in which the reports cannot be written. *)
Definition diskFull : JsError :=
  mkError "Error" "ENOSPC: no space left on device, write".

Definition failingWrites
  : Collaborators (list string) (list string) (list string)
                  (list (string * string)) (list (string * string)) :=
  let base := collaborators files in
  {| repoPath := repoPath (Collaborators := base);
     externalVarMapping := externalVarMapping (Collaborators := base);
     pathRelative := pathRelative (Collaborators := base);
     pathResolveJoin := pathResolveJoin (Collaborators := base);
     minimatch := minimatch (Collaborators := base);
     parseCSS := parseCSS (Collaborators := base);
     getExternalVars := getExternalVars (Collaborators := base);
     getVarData := getVarData (Collaborators := base);
     isVariableDefinition := isVariableDefinition (Collaborators := base);
     isTokenizableProperty := isTokenizableProperty (Collaborators := base);
     isWithinValidParentSelector :=
       isWithinValidParentSelector (Collaborators := base);
     extractDesignTokenIdsFromDecl :=
       extractDesignTokenIdsFromDecl (Collaborators := base);
     buildResolutionTrace := buildResolutionTrace (Collaborators := base);
     analyzeTrace := analyzeTrace (Collaborators := base);
     getResolutionSources := getResolutionSources (Collaborators := base);
     getUnresolvedVariablesFromTrace :=
       getUnresolvedVariablesFromTrace (Collaborators := base);
     classifyResolutionFromTrace :=
       classifyResolutionFromTrace (Collaborators := base);
     getResolvedVarOrigins := getResolvedVarOrigins (Collaborators := base);
     addFromDeclaration := addFromDeclaration (Collaborators := base);
     toReport := toReport (Collaborators := base);
     writeReports _ _ _ := Throw diskFull;
     generatedAt := generatedAt (Collaborators := base) |}.

(** The data of [NonTokenValues.test.js]; [Object.entries] lists the key
    [0] first. *)
Definition sampleData : NonTokenValues.Dataset :=
  [ ("margin",
     Some [ ("0", Some (NonTokenValues.mkValueObject
                          (Some 3) false true
                          (Some [("a.css", 2); ("b.css", 1)]) (Some "m0")));
            ("0 auto", Some (NonTokenValues.mkValueObject
                               (Some 2) false false
                               (Some [("a.css", 1); ("c.css", 1)]) (Some "m1")));
            ("var(--token-x)", Some (NonTokenValues.mkValueObject
                                       (Some 5) true false
                                       (Some [("t.css", 5)]) (Some "mt"))) ]);
    ("padding",
     Some [ ("4px", Some (NonTokenValues.mkValueObject
                            (Some 10) false false
                            (Some [("p.css", 10)]) (Some "p4")));
            ("2px", Some (NonTokenValues.mkValueObject
                            (Some 10) false false
                            (Some [("p2.css", 10)]) (Some "p2"))) ]) ].

(** [s != b] on the values that the component writes for [ex]: ["1"]
    equals [true] and ["0"] equals [false]. *)
Definition flagDiffers (s : string) (b : bool) : bool :=
  negb (bool_decide (s = if b then "1" else "0")).

(** The page of the tests, [/stats/descriptors/?pattern=*&ex=0], and the
    same page reached without a query string. *)
Definition descriptorsPage : NonTokenValues.Window :=
  NonTokenValues.mkWindow [("pattern", "*"); ("ex", "0")] [].
Definition barePage : NonTokenValues.Window := NonTokenValues.mkWindow [] [].

(** A [localeCompare] that orders strings by their code units. *)
Definition codeUnitCompare (s t : string) : Z :=
  if String.eqb s t then 0%Z else if String.leb s t then (-1)%Z else 1%Z.

(** Characters beyond ASCII, in UTF-8: U+00A0 (no-break space), U+2028
    (line separator), U+FEFF (byte order mark), U+FF5E (fullwidth tilde)
    and U+1F600 (grinning face). *)
Definition noBreakSpace : string := ofBytes [194; 160].
Definition lineSeparator : string := ofBytes [226; 128; 168].
Definition byteOrderMark : string := ofBytes [239; 187; 191].
Definition fullwidthTilde : string := ofBytes [239; 189; 158].
Definition grinningFace : string := ofBytes [240; 159; 152; 128].

(** Two findings whose values are such characters. *)
Definition tildeUse : Finding :=
  mkFinding "/project/a.css" "content" fullwidthTilde false false None.
Definition faceUse : Finding :=
  mkFinding "/project/a.css" "content" grinningFace false false None.

(** The error of [postcss] for a style sheet that holds the one word
    [oops]. *)
Definition unknownWord : JsError :=
  cssSyntaxError "/project/bad.css:1:1: Unknown word" "> 1 | oops".

(** [buildUsageAggregates] with the configuration of the tests. *)
Definition aggregate (usageFindings : list Finding) : UsageAggregates :=
  buildUsageAggregates "/project" (posixRelative []) "2025-01-01T00:00:00.000Z"
                       usageFindings.
End TestDoubles.

(** * Properties *)

(** ** The value buckets of [buildUsageAggregates] *)

Lemma valueEntryOf_aggregateDescriptor rel f byD d v :
  valueEntryOf (aggregateDescriptor rel f byD) d v =
    if forPair d v f
    then Some (updateValueEntry rel f
                 (default (newValueEntry f) (valueEntryOf byD d v)))
    else valueEntryOf byD d v.
Proof.
  unfold valueEntryOf, aggregateDescriptor, forPair.
  destruct (decide (f_descriptor f = d)) as [<-|Hd].
  - rewrite lookup_insert_eq. simpl.
    destruct (decide (f_value f = v)) as [<-|Hv].
    + rewrite lookup_insert_eq, bool_decide_eq_true_2; [|done].
      by destruct (byD !! f_descriptor f).
    + rewrite lookup_insert_ne, bool_decide_eq_false_2; [|tauto|done].
      by destruct (byD !! f_descriptor f).
  - rewrite lookup_insert_ne, bool_decide_eq_false_2; [done|tauto|done].
Qed.

Section AggregateFacts.
Variable repoPath : string.
Variable pathRelative : string → string → Result string.

Abbreviation step := (aggregateFinding repoPath pathRelative).
Abbreviation run := (aggregateFindings repoPath pathRelative).
Abbreviation runFrom := (aggregateFrom repoPath pathRelative).
Abbreviation aggregates :=
  (buildUsageAggregates repoPath pathRelative generatedAt).

Lemma aggregateFindings_app fs1 fs2 :
  run (fs1 ++ fs2) = runFrom (run fs1) fs2.
Proof. unfold aggregateFindings, aggregateFrom. by rewrite fold_left_app. Qed.

(** Once a bucket is ignored, no later finding resets it. *)
Lemma ignored_stays fs st d v ve :
  valueEntryOf st.2 d v = Some ve → ve_isIgnored ve = true →
  ∃ ve', valueEntryOf (runFrom st fs).2 d v = Some ve' ∧
         ve_isIgnored ve' = true.
Proof.
  revert st ve. induction fs as [|f fs IH]; intros st ve Hve Hig; simpl.
  { eauto. }
  destruct (forPair d v f) eqn:Hp.
  - eapply IH; simpl.
    + rewrite valueEntryOf_aggregateDescriptor, Hp, Hve. reflexivity.
    + simpl. by destruct (f_isIgnored f).
  - eapply IH; simpl; [|exact Hig].
    by rewrite valueEntryOf_aggregateDescriptor, Hp.
Qed.

(** The bucket of a pair exists as soon as one finding of the pair was
    seen, and it keeps the [containsToken] and [tokens] it was created
    with. *)
Lemma bucket_first fs st d v :
  valueEntryOf st.2 d v = None →
  match filter (λ f, forPair d v f = true) fs with
  | [] => valueEntryOf (runFrom st fs).2 d v = None
  | f :: _ =>
      ∃ ve, valueEntryOf (runFrom st fs).2 d v = Some ve ∧
            ve_tokens ve = initialTokens f ∧
            ve_containsToken ve = f_containsToken f
  end.
Proof.
  revert st. induction fs as [|f fs IH]; intros st Hnone; simpl; [done|].
  rewrite filter_cons. destruct (decide (forPair d v f = true)) as [Hp|Hp].
  - clear IH.
    assert (∃ ve, valueEntryOf (step st f).2 d v = Some ve ∧
              ve_tokens ve = initialTokens f ∧
              ve_containsToken ve = f_containsToken f) as Hinit.
    { simpl. rewrite valueEntryOf_aggregateDescriptor, Hp, Hnone. eauto. }
    generalize dependent (step st f). clear st Hnone.
    induction fs as [|g fs IH]; intros st Hinit; simpl; [done|].
    apply IH. destruct Hinit as (ve & Hve & Ht & Hc). simpl.
    rewrite valueEntryOf_aggregateDescriptor, Hve. simpl.
    destruct (forPair d v g); eauto.
  - apply IH. simpl. rewrite valueEntryOf_aggregateDescriptor.
    by destruct (forPair d v f).
Qed.

End AggregateFacts.

(** ** The ID assignment *)

Lemma utf16Rank_inj c1 c2 : utf16Rank c1 = utf16Rank c2 → c1 = c2.
Proof.
  assert (∀ c, utf16Rank (utf16Rank (utf16Rank (utf16Rank
                 (utf16Rank (utf16Rank (utf16Rank c)))))) = c) as Hcycle.
  { intros [[] [] [] [] [] [] [] []]; vm_compute; reflexivity. }
  intros Heq. rewrite <-(Hcycle c1), <-(Hcycle c2). by rewrite Heq.
Qed.

Lemma utf16Key_inj s t : utf16Key s = utf16Key t → s = t.
Proof.
  revert t. induction s as [|c s IH]; intros [|d t]; simpl; try done.
  intros [= Hc%utf16Rank_inj Hs%IH]. by subst.
Qed.

Lemma codeUnitLe_total : Total codeUnitLe.
Proof. intros s t. apply (total String.le). Qed.

Lemma codeUnitLe_trans : Transitive codeUnitLe.
Proof. intros s t u. unfold codeUnitLe. apply transitivity. Qed.

Lemma codeUnitLe_antisymm : AntiSymm (=) codeUnitLe.
Proof.
  intros s t Hst Hts. apply utf16Key_inj. by apply (anti_symm String.le).
Qed.

Lemma codeUnitLt_irrefl s : ¬ codeUnitLt s s.
Proof. by intros [_ ?]. Qed.

Lemma codeUnitLt_trans s t u : codeUnitLt s t → codeUnitLt t u → codeUnitLt s u.
Proof.
  intros [Hst Hne] [Htu Hne']. split; [by apply (codeUnitLe_trans s t u)|].
  intros ->. apply Hne. by apply codeUnitLe_antisymm.
Qed.

Lemma codeUnitLt_trichotomy s t : codeUnitLt s t ∨ s = t ∨ codeUnitLt t s.
Proof.
  destruct (decide (s = t)) as [|Hne]; [by right; left|].
  destruct (codeUnitLe_total s t).
  - left. by split.
  - right. right. split; [done|]. by intros ->.
Qed.

Section SortedKeys.
Context {V : Type}.
Implicit Types m : gmap string V.

Lemma sortedKeys_Permutation m : sortedKeys m ≡ₚ (map_to_list m).*1.
Proof. apply merge_sort_Permutation. Qed.

Lemma sortedKeys_Sorted m : Sorted codeUnitLe (sortedKeys m).
Proof. apply (@Sorted_merge_sort _ codeUnitLe _ codeUnitLe_total). Qed.

Lemma sortedKeys_NoDup m : NoDup (sortedKeys m).
Proof. rewrite sortedKeys_Permutation. apply NoDup_fst_map_to_list. Qed.

Lemma elem_of_sortedKeys m k : k ∈ sortedKeys m ↔ is_Some (m !! k).
Proof.
  rewrite sortedKeys_Permutation, list_elem_of_fmap. split.
  - intros [[k' x] [-> Hin]]. apply elem_of_map_to_list in Hin. by exists x.
  - intros [x Hx]. exists (k, x). split; [done|]. by apply elem_of_map_to_list.
Qed.
End SortedKeys.

(** The sorted keys depend on the set of keys only, not on the order in
    which they were inserted or on the values stored. *)
Lemma sortedKeys_ext {V W} (m1 : gmap string V) (m2 : gmap string W) :
  (∀ k, is_Some (m1 !! k) ↔ is_Some (m2 !! k)) → sortedKeys m1 = sortedKeys m2.
Proof.
  intros Hdom.
  apply (@Sorted_unique _ codeUnitLe codeUnitLe_trans codeUnitLe_antisymm);
    try apply sortedKeys_Sorted.
  apply NoDup_Permutation; try apply sortedKeys_NoDup.
  intros k. by rewrite !elem_of_sortedKeys.
Qed.

Lemma eraseValueId_setValueId id ve :
  eraseValueId (setValueId id ve) = eraseValueId ve.
Proof. reflexivity. Qed.

Lemma assignValueIds_cons k keys nextId values :
  assignValueIds (k :: keys) (nextId, values) =
  assignValueIds keys (S nextId, alter (setValueId (pretty nextId)) k values).
Proof. reflexivity. Qed.

(** The inner loop hands out consecutive IDs, in the order of the keys, and
    touches the other entries not at all. *)
Lemma assignValueIds_spec keys nextId values :
  NoDup keys →
  (∀ k, k ∈ keys → is_Some (values !! k)) →
  (assignValueIds keys (nextId, values)).1 = nextId + length keys ∧
  (∀ i k, keys !! i = Some k →
     (assignValueIds keys (nextId, values)).2 !! k ≫= ve_id
       = Some (pretty (nextId + i))) ∧
  (∀ k, k ∉ keys →
     (assignValueIds keys (nextId, values)).2 !! k = values !! k).
Proof.
  revert nextId values.
  induction keys as [|k0 keys IH]; intros nextId values Hnd Hin.
  { simpl. split_and!; [lia | intros i k; by rewrite lookup_nil | done]. }
  apply NoDup_cons in Hnd as [Hk0 Hnd].
  rewrite assignValueIds_cons.
  destruct (IH (S nextId) (alter (setValueId (pretty nextId)) k0 values) Hnd)
    as (Hnext & Hids & Hother).
  { intros k Hk. rewrite lookup_alter_ne by (intros ->; done).
    apply Hin. by right. }
  split_and!.
  - rewrite Hnext. simpl. lia.
  - intros [|i] k Hik; simpl in Hik.
    + injection Hik as <-. rewrite Hother by done.
      rewrite lookup_alter_eq.
      destruct (Hin k0) as [ve ->]; [by left|]. simpl.
      by rewrite Nat.add_0_r.
    + rewrite (Hids i k Hik). do 2 f_equal. lia.
  - intros k Hk. apply not_elem_of_cons in Hk as [Hne Hk].
    rewrite Hother by done. by rewrite lookup_alter_ne.
Qed.

Lemma assignValueIds_erase keys nextId values :
  eraseValueId <$> (assignValueIds keys (nextId, values)).2 = eraseValueId <$> values.
Proof.
  revert nextId values. induction keys as [|k keys IH]; intros nextId values.
  { done. }
  rewrite assignValueIds_cons, IH.
  apply map_eq. intros j. rewrite !lookup_fmap, lookup_alter.
  case_decide; [subst|done]. by destruct (values !! j).
Qed.

Lemma assignDescriptorId_erase st d :
  eraseIds (assignDescriptorId st d).2 = eraseIds st.2.
Proof.
  destruct st as [nextId byD]. unfold assignDescriptorId.
  destruct (byD !! d) as [de|] eqn:Hd; [|done].
  destruct (assignValueIds _ _) as [nextId' values'] eqn:Hvals. simpl.
  unfold eraseIds. rewrite fmap_insert. apply insert_id.
  rewrite lookup_fmap, Hd. simpl. do 2 f_equal.
  pose proof (assignValueIds_erase (sortedKeys (de_values de)) (S nextId)
                (de_values de)) as He.
  by rewrite Hvals in He.
Qed.

Lemma assignDescriptorIds_erase ds st :
  eraseIds (fold_left assignDescriptorId ds st).2 = eraseIds st.2.
Proof.
  revert st. induction ds as [|d ds IH]; intros st; [done|].
  cbn [fold_left]. by rewrite IH, assignDescriptorId_erase.
Qed.

(** The ID assignment changes nothing but the [id] fields. *)
Lemma assignIds_erase byD : eraseIds (assignIds byD) = eraseIds byD.
Proof. apply assignDescriptorIds_erase. Qed.

Lemma valueEntryOf_eraseIds byD d v :
  valueEntryOf (eraseIds byD) d v = eraseValueId <$> valueEntryOf byD d v.
Proof.
  unfold valueEntryOf, eraseIds. rewrite lookup_fmap.
  destruct (byD !! d) as [de|]; simpl; [|done]. by rewrite lookup_fmap.
Qed.

Lemma valueEntryOf_assignIds byD d v :
  eraseValueId <$> valueEntryOf (assignIds byD) d v
  = eraseValueId <$> valueEntryOf byD d v.
Proof. by rewrite <-!valueEntryOf_eraseIds, assignIds_erase. Qed.

Lemma valueEntryOf_assignIds_Some byD d v ve :
  valueEntryOf byD d v = Some ve →
  ∃ ve', valueEntryOf (assignIds byD) d v = Some ve' ∧
         ve_count ve' = ve_count ve ∧
         ve_containsToken ve' = ve_containsToken ve ∧
         ve_isIgnored ve' = ve_isIgnored ve ∧
         ve_tokens ve' = ve_tokens ve ∧
         ve_files ve' = ve_files ve.
Proof.
  intros Hve. pose proof (valueEntryOf_assignIds byD d v) as He.
  rewrite Hve in He.
  destruct (valueEntryOf (assignIds byD) d v) as [ve'|]; [|done].
  exists ve'. simpl in He. injection He as Hc Hct Hig Htk Hfl. done.
Qed.

Lemma lookup_assignIds_is_Some byD d :
  is_Some (assignIds byD !! d) ↔ is_Some (byD !! d).
Proof.
  pose proof (f_equal (λ m, m !! d) (assignIds_erase byD)) as He. simpl in He.
  unfold eraseIds in He. rewrite !lookup_fmap in He.
  rewrite <-!not_eq_None_Some.
  destruct (assignIds byD !! d), (byD !! d); naive_solver.
Qed.

Lemma idOf_ext byD byD' k :
  byD' !! keyDescriptor k = byD !! keyDescriptor k → idOf byD' k = idOf byD k.
Proof. destruct k; simpl; unfold valueEntryOf; by intros ->. Qed.

Lemma idBlock_descriptor byD d k : k ∈ idBlock byD d → keyDescriptor k = d.
Proof.
  unfold idBlock. destruct (byD !! d); [|by rewrite elem_of_nil].
  rewrite elem_of_cons, list_elem_of_fmap. intros [->|(v & -> & _)]; done.
Qed.

(** One round of the outer loop: the descriptor takes [nextId], its values
    the IDs after it, and no other descriptor is touched. *)
Lemma assignDescriptorId_spec nextId byD d :
  is_Some (byD !! d) →
  (assignDescriptorId (nextId, byD) d).1 = nextId + length (idBlock byD d) ∧
  (∀ d', d' ≠ d → (assignDescriptorId (nextId, byD) d).2 !! d' = byD !! d') ∧
  (∀ i k, idBlock byD d !! i = Some k →
     idOf (assignDescriptorId (nextId, byD) d).2 k = Some (pretty (nextId + i))).
Proof.
  intros [de Hd]. unfold assignDescriptorId, idBlock. rewrite Hd.
  destruct (assignValueIds_spec (sortedKeys (de_values de)) (S nextId) (de_values de))
    as (Hnext & Hids & _).
  { apply sortedKeys_NoDup. }
  { intros k. by rewrite elem_of_sortedKeys. }
  destruct (assignValueIds _ _) as [nextId' values']. simpl in *.
  split_and!.
  - rewrite Hnext, length_fmap. lia.
  - intros d' Hne. by rewrite lookup_insert_ne.
  - intros [|i] k Hik; simpl in Hik.
    + injection Hik as <-. simpl. rewrite lookup_insert_eq. simpl.
      by rewrite Nat.add_0_r.
    + apply list_lookup_fmap_Some in Hik as (v & -> & Hv). simpl.
      unfold valueEntryOf. rewrite lookup_insert_eq. simpl.
      rewrite (Hids i v Hv). do 2 f_equal. lia.
Qed.

(** The outer loop: the [i]-th key of the order receives the ID
    [nextId + i]. *)
Lemma assignDescriptorIds_spec ds nextId byD :
  NoDup ds →
  (∀ d, d ∈ ds → is_Some (byD !! d)) →
  (∀ d, d ∉ ds → (fold_left assignDescriptorId ds (nextId, byD)).2 !! d = byD !! d) ∧
  (∀ i k, (ds ≫= idBlock byD) !! i = Some k →
     idOf (fold_left assignDescriptorId ds (nextId, byD)).2 k
       = Some (pretty (nextId + i))).
Proof.
  revert nextId byD.
  induction ds as [|d0 ds IH]; intros nextId byD Hnd Hin.
  { split; [done|]. intros i k Hik. by destruct i. }
  apply NoDup_cons in Hnd as [Hd0 Hnd].
  destruct (assignDescriptorId_spec nextId byD d0) as (Hnext & Hne & Hblock).
  { apply Hin. by left. }
  cbn [fold_left].
  destruct (assignDescriptorId (nextId, byD) d0) as [nextId1 byD1].
  cbn [fst snd] in *.
  assert (∀ d, d ∈ ds → byD1 !! d = byD !! d) as Hsame.
  { intros d Hd. apply Hne. by intros ->. }
  destruct (IH nextId1 byD1 Hnd) as (Hother & Hids).
  { intros d Hd. rewrite Hsame by done. apply Hin. by right. }
  assert (ds ≫= idBlock byD1 = ds ≫= idBlock byD) as Horder.
  { apply Forall_bind_ext, Forall_forall. intros d Hd.
    unfold idBlock. by rewrite Hsame. }
  split.
  - intros d Hd. apply not_elem_of_cons in Hd as [Hd Hd'].
    rewrite Hother by done. by apply Hne.
  - intros i k. rewrite bind_cons, lookup_app_Some.
    intros [Hik|[Hlen Hik]].
    + rewrite <-(Hblock i k Hik). apply idOf_ext.
      rewrite (idBlock_descriptor byD d0 k); [by apply Hother|].
      apply list_elem_of_lookup. eauto.
    + rewrite <-Horder in Hik. rewrite (Hids _ _ Hik). do 2 f_equal. lia.
Qed.

(** [buildUsageAggregates], ID assignment: the [i]-th key of [idOrder]
    receives the ID [String(i)]. *)
Lemma assignIds_spec byD i k :
  idOrder byD !! i = Some k → idOf (assignIds byD) k = Some (pretty i).
Proof.
  intros Hik.
  destruct (assignDescriptorIds_spec (sortedKeys byD) 0 byD) as [_ Hids].
  { apply sortedKeys_NoDup. }
  { intros d. by rewrite elem_of_sortedKeys. }
  apply (Hids i k Hik).
Qed.

(** Every key of the aggregate occurs in the order. *)
Lemma elem_of_idOrder byD k :
  k ∈ idOrder byD ↔
  match k with
  | DescriptorKey d => is_Some (byD !! d)
  | ValueKey d v => is_Some (valueEntryOf byD d v)
  end.
Proof.
  unfold idOrder. rewrite list_elem_of_bind. split.
  - intros (d & Hk & Hd). apply elem_of_sortedKeys in Hd as [de Hde].
    unfold idBlock in Hk. rewrite Hde in Hk.
    apply elem_of_cons in Hk as [->|Hk]; [by exists de|].
    apply list_elem_of_fmap in Hk as (v & -> & Hv).
    apply elem_of_sortedKeys in Hv. unfold valueEntryOf. by rewrite Hde.
  - destruct k as [d|d v]; unfold valueEntryOf, idBlock.
    + intros [de Hde]. exists d. rewrite Hde, elem_of_sortedKeys.
      split; [by left | by exists de].
    + destruct (byD !! d) as [de|] eqn:Hde; simpl; [|by intros [? ?]].
      intros Hv. exists d. rewrite Hde, elem_of_sortedKeys.
      split; [|by exists de]. right. apply list_elem_of_fmap. exists v.
      by rewrite elem_of_sortedKeys.
Qed.

(** The order depends on the sets of keys only. *)
Lemma idOrder_ext byD byD' :
  (∀ d, is_Some (byD !! d) ↔ is_Some (byD' !! d)) →
  (∀ d v, is_Some (valueEntryOf byD d v) ↔ is_Some (valueEntryOf byD' d v)) →
  idOrder byD = idOrder byD'.
Proof.
  intros Hd Hv. unfold idOrder. rewrite (sortedKeys_ext byD byD' Hd).
  apply Forall_bind_ext, Forall_forall. intros d Hin.
  apply elem_of_sortedKeys in Hin as [de' Hde'].
  destruct (proj2 (Hd d)) as [de Hde]; [by exists de'|].
  unfold idBlock. rewrite Hde, Hde'. do 2 f_equal.
  apply sortedKeys_ext. intros v. specialize (Hv d v).
  unfold valueEntryOf in Hv. by rewrite Hde, Hde' in Hv.
Qed.

(** ** Counts *)







(** ** The aggregates of a run *)

(** ** The order of the IDs *)

Lemma StronglySorted_app_2 {A} (R : A → A → Prop) l1 l2 :
  StronglySorted R l1 → StronglySorted R l2 →
  (∀ x y, x ∈ l1 → y ∈ l2 → R x y) →
  StronglySorted R (l1 ++ l2).
Proof.
  intros H1 H2 Hcross. induction H1 as [|x l1 Hs IH Hall]; [done|].
  simpl. constructor.
  - apply IH. intros a b Ha Hb. apply Hcross; [by right|done].
  - apply Forall_app. split; [done|]. apply Forall_forall.
    intros y Hy. apply Hcross; [by left|done].
Qed.

Lemma StronglySorted_fmap_2 {A B} (R : A → A → Prop) (S : B → B → Prop)
    (f : A → B) l :
  (∀ x y, R x y → S (f x) (f y)) →
  StronglySorted R l → StronglySorted S (f <$> l).
Proof.
  intros Hf. induction 1 as [|x l Hs IH Hall]; simpl; constructor; [done|].
  apply Forall_fmap. eapply Forall_impl; [exact Hall|]. intros y. apply Hf.
Qed.

Lemma filter_none {A} (P : A → Prop) `{!∀ x, Decision (P x)} l :
  Forall (λ x, ¬ P x) l → filter P l = [].
Proof.
  induction 1 as [|x l Hx Hl IH]; [done|].
  by rewrite filter_cons, decide_False.
Qed.

(** In a list sorted by a strict order, the position of an element is the
    number of elements before it in the order. *)
Lemma StronglySorted_position {A} (R : A → A → Prop) `{!RelDecision R} l i k :
  (∀ x, ¬ R x x) → (∀ x y, R x y → ¬ R y x) →
  StronglySorted R l → l !! i = Some k →
  length (filter (λ k', R k' k) l) = i.
Proof.
  intros Hirr Hasym Hsorted. revert i.
  induction Hsorted as [|x l Hs IH Hall]; intros i Hi; [done|].
  rewrite filter_cons. destruct i as [|i]; simpl in Hi.
  - injection Hi as ->. rewrite decide_False by apply Hirr.
    rewrite filter_none; [done|]. eapply Forall_impl; [exact Hall|].
    intros y Hxy. by apply Hasym.
  - rewrite decide_True.
    + simpl. f_equal. by apply IH.
    + rewrite Forall_forall in Hall. apply Hall.
      by eapply list_elem_of_lookup_2.
Qed.

Lemma sortedKeys_StronglySorted {V} (m : gmap string V) :
  StronglySorted codeUnitLt (sortedKeys m).
Proof.
  pose proof (sortedKeys_NoDup m) as Hnd.
  pose proof (@Sorted_StronglySorted _ codeUnitLe codeUnitLe_trans _
                (sortedKeys_Sorted m)) as Hs.
  induction Hs as [|x l Hs IH Hall]; [constructor|].
  apply NoDup_cons in Hnd as [Hx Hnd]. constructor; [by apply IH|].
  apply Forall_forall. intros y Hy. split.
  - rewrite Forall_forall in Hall. by apply Hall.
  - by intros ->.
Qed.

Lemma keyBefore_irrefl k : ¬ keyBefore k k.
Proof.
  intros [Hlt|[_ Hk]]; [by apply codeUnitLt_irrefl in Hlt|].
  destruct k; [done|]. by apply codeUnitLt_irrefl in Hk.
Qed.

Lemma keyBefore_asymm k1 k2 : keyBefore k1 k2 → ¬ keyBefore k2 k1.
Proof.
  intros [Hlt|[Heq Hk]] [Hlt'|[Heq' Hk']].
  - apply (codeUnitLt_irrefl (keyDescriptor k1)). by eapply codeUnitLt_trans.
  - rewrite Heq' in Hlt. by apply codeUnitLt_irrefl in Hlt.
  - rewrite Heq in Hlt'. by apply codeUnitLt_irrefl in Hlt'.
  - destruct k1, k2; try done.
    apply (codeUnitLt_irrefl v). by eapply codeUnitLt_trans.
Qed.

Lemma bind_Permutation_ext {A B} (f g : A → list B) l :
  (∀ x, x ∈ l → f x ≡ₚ g x) → l ≫= f ≡ₚ l ≫= g.
Proof.
  induction l as [|x l IH]; intros Hfg; [done|]. simpl.
  rewrite (Hfg x) by left. rewrite IH; [done|].
  intros y Hy. apply Hfg. by right.
Qed.

Lemma idOrder_allKeys byD : idOrder byD ≡ₚ allKeys byD.
Proof.
  unfold idOrder, allKeys. rewrite sortedKeys_Permutation.
  apply bind_Permutation_ext. intros d _. unfold idBlock.
  destruct (byD !! d) as [de|]; [|done].
  by rewrite sortedKeys_Permutation.
Qed.

Lemma idOrder_StronglySorted byD : StronglySorted keyBefore (idOrder byD).
Proof.
  unfold idOrder.
  pose proof (sortedKeys_StronglySorted byD) as Hs.
  induction Hs as [|d ds Hs IH Hall]; [constructor|].
  simpl. apply StronglySorted_app_2; [|exact IH|].
  - unfold idBlock. destruct (byD !! d) as [de|]; [|constructor].
    constructor.
    + apply (StronglySorted_fmap_2 codeUnitLt); [|apply sortedKeys_StronglySorted].
      intros v1 v2 Hv. by right.
    + apply Forall_fmap, Forall_forall. intros v _. by right.
  - intros k1 k2 Hk1 Hk2. left.
    assert (∀ d' k, k ∈ idBlock byD d' → keyDescriptor k = d') as Hblock.
    { intros d' k. unfold idBlock. destruct (byD !! d'); [|by intros ?%elem_of_nil].
      intros [->|(v & -> & _)%list_elem_of_fmap]%elem_of_cons; done. }
    apply list_elem_of_bind in Hk2 as (d2 & Hk2 & Hd2).
    rewrite (Hblock _ _ Hk1), (Hblock _ _ Hk2).
    rewrite Forall_forall in Hall. by apply Hall.
Qed.

(** The ID of a key is the number of keys before it. *)
Lemma idOf_keysBefore byD k :
  k ∈ allKeys byD →
  idOf (assignIds byD) k = Some (pretty (keysBefore byD k)).
Proof.
  rewrite <-idOrder_allKeys. intros [i Hi]%list_elem_of_lookup.
  rewrite (assignIds_spec _ _ _ Hi). do 2 f_equal. unfold keysBefore.
  rewrite <-idOrder_allKeys. symmetry.
  apply (StronglySorted_position keyBefore);
    [apply keyBefore_irrefl|apply keyBefore_asymm|apply idOrder_StronglySorted|done].
Qed.

Lemma elem_of_allKeys byD k :
  k ∈ allKeys byD ↔
  match k with
  | DescriptorKey d => is_Some (byD !! d)
  | ValueKey d v => is_Some (valueEntryOf byD d v)
  end.
Proof. rewrite <-idOrder_allKeys. apply elem_of_idOrder. Qed.

Section AggregateTheorems.
Variable repoPath : string.
Variable pathRelative : string → string → Result string.
Variable generatedAt : string.

Abbreviation step := (aggregateFinding repoPath pathRelative).
Abbreviation run := (aggregateFindings repoPath pathRelative).
Abbreviation runFrom := (aggregateFrom repoPath pathRelative).
Abbreviation aggregates :=
  (buildUsageAggregates repoPath pathRelative generatedAt).
Abbreviation descriptorsOf fs :=
  (byDescriptor (descriptorValues (aggregates fs))).
Abbreviation tokensOf fs :=
  (byToken (tokenUsage (aggregates fs))).

Lemma aggregateFrom_descriptor_keys fs st d :
  is_Some ((runFrom st fs).2 !! d) ↔
  is_Some (st.2 !! d) ∨ ∃ f, f ∈ fs ∧ f_descriptor f = d.
Proof.
  revert st. induction fs as [|f fs IH]; intros st.
  { simpl. split; [by left|]. intros [?|(f & Hf & _)]; [done|].
    by apply elem_of_nil in Hf. }
  cbn [aggregateFrom fold_left]. fold (runFrom (step st f) fs).
  rewrite IH. simpl. unfold aggregateDescriptor.
  rewrite lookup_insert_is_Some'. setoid_rewrite elem_of_cons. naive_solver.
Qed.

Lemma aggregateFrom_value_keys fs st d v :
  is_Some (valueEntryOf (runFrom st fs).2 d v) ↔
  is_Some (valueEntryOf st.2 d v) ∨ ∃ f, f ∈ fs ∧ forPair d v f = true.
Proof.
  revert st. induction fs as [|f fs IH]; intros st.
  { simpl. split; [by left|]. intros [?|(f & Hf & _)]; [done|].
    by apply elem_of_nil in Hf. }
  cbn [aggregateFrom fold_left]. fold (runFrom (step st f) fs).
  rewrite IH. simpl. rewrite valueEntryOf_aggregateDescriptor.
  setoid_rewrite elem_of_cons.
  destruct (forPair d v f) eqn:Hp.
  - split; [|by eauto]. intros _. right. exists f. auto.
  - split.
    + intros [?|(g & Hg & Hpg)]; [by left|]. right. exists g. auto.
    + intros [?|(g & [->|Hg] & Hpg)]; [by left|congruence|].
      right. by exists g.
Qed.

(** The order of the ID assignment is the same for any two runs over the
    same findings, in whatever order they come. *)
Lemma idOrder_Permutation fs fs' :
  fs ≡ₚ fs' →
  idOrder (run fs).2 = idOrder (run fs').2.
Proof.
  intros Hperm. apply idOrder_ext.
  - intros d. unfold aggregateFindings.
    rewrite !aggregateFrom_descriptor_keys. by setoid_rewrite Hperm.
  - intros d v. unfold aggregateFindings.
    rewrite !aggregateFrom_value_keys. by setoid_rewrite Hperm.
Qed.

Lemma idOrder_assignIds byD : idOrder (assignIds byD) = idOrder byD.
Proof.
  apply idOrder_ext.
  - apply lookup_assignIds_is_Some.
  - intros d v.
    rewrite <-(fmap_is_Some eraseValueId (valueEntryOf (assignIds byD) d v)).
    rewrite <-(fmap_is_Some eraseValueId (valueEntryOf byD d v)).
    by rewrite valueEntryOf_assignIds.
Qed.

(** An ID read from the output is the position of its key in the order. *)
Lemma idOf_assignIds_Some byD k id :
  idOf (assignIds byD) k = Some id →
  ∃ i, idOrder byD !! i = Some k ∧ id = pretty i.
Proof.
  intros Hid.
  assert (k ∈ idOrder (assignIds byD)) as Hin.
  { apply elem_of_idOrder. destruct k as [d|d v]; simpl in Hid.
    - by destruct (assignIds byD !! d).
    - by destruct (valueEntryOf (assignIds byD) d v). }
  rewrite idOrder_assignIds in Hin.
  apply list_elem_of_lookup in Hin as [i Hi]. exists i. split; [done|].
  apply assignIds_spec in Hi. congruence.
Qed.


Lemma allKeys_assignIds byD : allKeys (assignIds byD) ≡ₚ allKeys byD.
Proof. by rewrite <-!idOrder_allKeys, idOrder_assignIds. Qed.

(** C3. [buildUsageAggregates] numbers descriptors and values from one
    counter that starts at 0, taking the descriptor names in lexicographic
    order and, after each descriptor, its distinct values in lexicographic
    order: the ID of a descriptor or value is [String(n)] for the number [n]
    of descriptors and values that come before it in that order
    ([keyBefore], the order of [Array.prototype.sort] on the names). Hence
    two runs over permutations of the same findings give every descriptor
    and every value the same ID. *)
Theorem buildUsageAggregates_ids_deterministic (fs : list Finding) :
  (∀ k, k ∈ allKeys (descriptorsOf fs) →
        idOf (descriptorsOf fs) k
        = Some (pretty (keysBefore (descriptorsOf fs) k))) ∧
  (∀ fs', fs ≡ₚ fs' →
          ∀ k, idOf (descriptorsOf fs') k = idOf (descriptorsOf fs) k).
Proof.
  split.
  - intros k Hk. simpl in *. rewrite allKeys_assignIds in Hk.
    unfold keysBefore. rewrite allKeys_assignIds. by apply idOf_keysBefore.
  - intros fs' Hperm k. simpl.
    pose proof (idOrder_Permutation fs fs' Hperm) as Horder.
    destruct (idOf (assignIds (run fs').2) k) as [id|] eqn:Hid'.
    + apply idOf_assignIds_Some in Hid' as (i & Hi & ->).
      rewrite <-Horder in Hi. symmetry. by apply assignIds_spec.
    + destruct (idOf (assignIds (run fs).2) k) as [id|] eqn:Hid; [|done].
      apply idOf_assignIds_Some in Hid as (i & Hi & ->).
      rewrite Horder in Hi. apply assignIds_spec in Hi. congruence.
Qed.

(** C5 (as the code has it). A bucket of the aggregate that is returned
    carries the [tokens] of the first finding of its (descriptor, value)
    pair: a [tokens] field is present exactly when that first finding has a
    non-empty [tokens] list, and it is that list. *)
Theorem bucket_tokens_from_first_finding fs d v ve :
  valueEntryOf (descriptorsOf fs) d v = Some ve →
  ∃ f rest,
    filter (λ g, forPair d v g = true) fs = f :: rest ∧
    ve_tokens ve = initialTokens f.
Proof.
  intros Hve.
  pose proof (bucket_first repoPath pathRelative fs (∅, ∅) d v) as Hb.
  pose proof (valueEntryOf_assignIds (run fs).2 d v) as Hids.
  change (assignIds (run fs).2) with (descriptorsOf fs) in Hids.
  rewrite Hve in Hids. unfold aggregateFindings in Hids.
  destruct (filter (λ g, forPair d v g = true) fs) as [|f rest].
  - rewrite Hb in Hids by done. done.
  - exists f, rest. split; [done|].
    destruct Hb as (ve0 & Hve0 & Htok & _); [done|].
    rewrite Hve0 in Hids. simpl in Hids.
    injection Hids as _ _ _ Htk _. by rewrite Htk.
Qed.

(** C9. The [isIgnored] flag of a bucket is a sticky OR: after a finding
    of the pair with [isIgnored] true, the flag of the bucket of the pair
    is true in every later state of the loop, whatever the later findings
    are, and in the aggregate that is returned. *)
Theorem bucket_isIgnored_sticky fs1 f fs2 :
  f_isIgnored f = true →
  (∀ ve, valueEntryOf (run (fs1 ++ f :: fs2)).2 (f_descriptor f) (f_value f)
           = Some ve →
         ve_isIgnored ve = true) ∧
  (∀ ve, valueEntryOf (descriptorsOf (fs1 ++ f :: fs2))
           (f_descriptor f) (f_value f) = Some ve →
         ve_isIgnored ve = true).
Proof.
  intros Hig.
  assert (∃ ve, valueEntryOf (run (fs1 ++ f :: fs2)).2 (f_descriptor f) (f_value f)
                  = Some ve ∧ ve_isIgnored ve = true) as (ve0 & Hve0 & Hv0).
  { rewrite (aggregateFindings_app repoPath pathRelative fs1 (f :: fs2)).
    cbn [aggregateFrom fold_left].
    eapply (ignored_stays repoPath pathRelative fs2 (step (run fs1) f)).
    - simpl. rewrite valueEntryOf_aggregateDescriptor. unfold forPair.
      rewrite bool_decide_eq_true_2; [reflexivity|done].
    - simpl. by rewrite Hig. }
  split.
  - intros ve Hve. congruence.
  - intros ve Hve. simpl in Hve.
    apply valueEntryOf_assignIds_Some in Hve0 as (ve' & Hve' & _ & _ & Hig' & _).
    congruence.
Qed.


End AggregateTheorems.

(** ** The percentage *)

Lemma filter_disjoint_length {A} (P Q : A → bool) (l : list A) :
  (∀ x, P x = true → Q x = true → False) →
  length (filter (λ x, P x = true) l) + length (filter (λ x, Q x = true) l) ≤ length l.
Proof.
  intros Hdisjoint. induction l as [|x l IH]; [done|].
  rewrite !filter_cons.
  destruct (decide (P x = true)) as [HP|HP], (decide (Q x = true)) as [HQ|HQ];
    simpl; try lia.
  by destruct (Hdisjoint x).
Qed.

(** *** Rounding to an integer *)

Lemma Qfloor_bounds (x : Q) :
  (inject_Z (Qfloor x) <= x)%Q ∧ (x < inject_Z (Qfloor x) + 1)%Q.
Proof.
  split; [apply Qfloor_le|].
  pose proof (Qlt_floor x) as Hlt. by rewrite inject_Z_plus in Hlt.
Qed.

Lemma roundHalfEven_cases (x : Q) :
  roundHalfEven x = Qfloor x ∧ (x - inject_Z (Qfloor x) <= 1 # 2)%Q ∨
  roundHalfEven x = (Qfloor x + 1)%Z ∧ (1 # 2 <= x - inject_Z (Qfloor x))%Q.
Proof.
  unfold roundHalfEven.
  destruct (Qcompare_spec (x - inject_Z (Qfloor x)) (1 # 2)) as [Heq|Hlt|Hgt].
  - destruct (Z.even (Qfloor x)); [left|right]; (split; [done|lra]).
  - left. split; [done|lra].
  - right. split; [done|lra].
Qed.

Lemma roundHalfEven_lower (x : Q) (N : Z) :
  (inject_Z N <= x)%Q → (N ≤ roundHalfEven x)%Z.
Proof.
  intros Hle. apply Qfloor_resp_le in Hle. rewrite Qfloor_Z in Hle.
  destruct (roundHalfEven_cases x) as [[-> _]|[-> _]]; lia.
Qed.

Lemma roundHalfEven_upper (x : Q) (N : Z) :
  (x <= inject_Z N)%Q → (roundHalfEven x ≤ N)%Z.
Proof.
  intros Hle. pose proof (Qfloor_resp_le _ _ Hle) as Hfloor.
  rewrite Qfloor_Z in Hfloor.
  destruct (roundHalfEven_cases x) as [[-> _]|[-> Hhalf]]; [done|].
  destruct (decide (Qfloor x = N)) as [HN|]; [|lia].
  rewrite HN in Hhalf. lra.
Qed.

Lemma roundHalfEven_mono (x y : Q) :
  (x <= y)%Q → (roundHalfEven x ≤ roundHalfEven y)%Z.
Proof.
  intros Hle. pose proof (Qfloor_resp_le _ _ Hle) as Hfloor.
  destruct (decide (Qfloor x = Qfloor y)) as [Heq|Hne].
  - unfold roundHalfEven. rewrite Heq.
    destruct (Qcompare_spec (x - inject_Z (Qfloor y)) (1 # 2)) as [Hx|Hx|Hx],
             (Qcompare_spec (y - inject_Z (Qfloor y)) (1 # 2)) as [Hy|Hy|Hy];
      try destruct (Z.even (Qfloor y)); try lia; exfalso; lra.
  - apply Z.le_trans with (Qfloor y).
    + destruct (roundHalfEven_cases x) as [[-> _]|[-> _]]; lia.
    + apply roundHalfEven_lower, Qfloor_le.
Qed.

Lemma roundHalfEven_near (x : Q) :
  (Qabs (inject_Z (roundHalfEven x) - x) <= 1 # 2)%Q.
Proof.
  destruct (Qfloor_bounds x) as [Hlo Hhi].
  apply Qabs_Qle_condition.
  destruct (roundHalfEven_cases x) as [[-> Hhalf]|[-> Hhalf]].
  - split; lra.
  - rewrite inject_Z_plus. change (inject_Z 1) with 1%Q. split; lra.
Qed.

(** *** Powers of two *)

Lemma two_neq_0 : ¬ (2 == 0)%Q.
Proof. done. Qed.

Lemma pow2_pos (k : Z) : (0 < 2 ^ k)%Q.
Proof. by apply Qpower_0_lt. Qed.

Lemma pow2_le (j k : Z) : (j ≤ k)%Z → (2 ^ j <= 2 ^ k)%Q.
Proof. intros Hle. by apply Qpower_le_compat_l. Qed.

Lemma pow2_Z (k : Z) : (0 ≤ k)%Z → (inject_Z (2 ^ k) == 2 ^ k)%Q.
Proof. intros Hk. by rewrite Zpower_Qpower. Qed.

Lemma pow2_split (j k : Z) : (2 ^ j == 2 ^ (j - k) * 2 ^ k)%Q.
Proof.
  rewrite <-Qpower_plus by done. by replace (j - k + k)%Z with j by lia.
Qed.

(** *** The binade of a positive number *)

Lemma binade_spec (x : Q) :
  (0 < x)%Q → (2 ^ binade x <= x)%Q ∧ (x < 2 ^ (binade x + 1))%Q.
Proof.
  intros Hpos. destruct x as [n d]. unfold binade. cbn [Qnum Qden].
  assert (0 < n)%Z as Hn.
  { unfold Qlt in Hpos. simpl in Hpos. lia. }
  destruct (Z.log2_spec n Hn) as [Hn1 Hn2].
  destruct (Z.log2_spec (Zpos d) eq_refl) as [Hd1 Hd2].
  pose proof (Z.log2_nonneg n) as Ha. pose proof (Z.log2_nonneg (Zpos d)) as Hb.
  set (a := Z.log2 n) in *. set (b := Z.log2 (Z.pos d)) in *.
  assert (n # d == inject_Z n / inject_Z (Zpos d))%Q as Hx.
  { by rewrite Qmake_Qdiv. }
  assert (0 < inject_Z (Zpos d))%Q as Hdpos by done.
  assert (inject_Z (2 ^ a) <= inject_Z n)%Q as Qn1 by by rewrite <-Zle_Qle.
  assert (inject_Z n < inject_Z (2 ^ Z.succ a))%Q as Qn2 by by rewrite <-Zlt_Qlt.
  assert (inject_Z (2 ^ b) <= inject_Z (Zpos d))%Q as Qd1 by by rewrite <-Zle_Qle.
  assert (inject_Z (Zpos d) < inject_Z (2 ^ Z.succ b))%Q as Qd2 by by rewrite <-Zlt_Qlt.
  rewrite pow2_Z in Qn1, Qn2, Qd1, Qd2 by lia.
  destruct (Qle_bool (2 ^ (a - b)) (n # d)) eqn:Htest.
  - apply Qle_bool_iff in Htest. split; [done|].
    rewrite Hx. apply Qlt_shift_div_r; [done|].
    apply Qlt_le_trans with (2 ^ Z.succ a)%Q; [done|].
    rewrite (pow2_split (Z.succ a) b).
    replace (Z.succ a - b)%Z with (a - b + 1)%Z by lia.
    apply Qmult_le_l; [apply pow2_pos|done].
  - assert (n # d < 2 ^ (a - b))%Q as Hlt.
    { apply Qnot_le_lt. intros Hle. apply Qle_bool_iff in Hle. congruence. }
    replace (a - b - 1 + 1)%Z with (a - b)%Z by lia. split; [|done].
    rewrite Hx. apply Qle_shift_div_l; [done|].
    apply Qle_trans with (2 ^ a)%Q; [|done].
    rewrite (pow2_split a (Z.succ b)).
    replace (a - Z.succ b)%Z with (a - b - 1)%Z by lia.
    apply Qmult_le_l; [apply pow2_pos|]. by apply Qlt_le_weak.
Qed.

Lemma binade_mono (x y : Q) :
  (0 < x)%Q → (x <= y)%Q → (binade x ≤ binade y)%Z.
Proof.
  intros Hx Hle.
  destruct (binade_spec x Hx) as [Hx1 _].
  destruct (binade_spec y) as [_ Hy2]; [lra|].
  destruct (decide (binade x ≤ binade y)%Z) as [|Hgt]; [done|].
  pose proof (pow2_le (binade y + 1) (binade x)) as Hpow.
  specialize (Hpow ltac:(lia)). lra.
Qed.

(** *** Rounding to a double *)

Lemma ulp_pos (x : Q) : (0 < ulp x)%Q.
Proof. apply pow2_pos. Qed.

Lemma roundDouble_pos (x : Q) :
  (0 < x)%Q →
  roundDouble x = (inject_Z (roundHalfEven (x / ulp x)) * ulp x)%Q.
Proof.
  intros Hpos. unfold roundDouble.
  destruct (Qle_bool x 0) eqn:Htest; [|done].
  apply Qle_bool_iff in Htest. lra.
Qed.

Lemma roundDouble_nonpos (x : Q) : (x <= 0)%Q → roundDouble x = 0%Q.
Proof.
  intros Hle. unfold roundDouble.
  by apply Qle_bool_iff in Hle as ->.
Qed.

Lemma pow2_52 : (2 ^ 52 == inject_Z (2 ^ 52))%Q.
Proof. done. Qed.

Lemma roundDouble_lower (x : Q) :
  (0 < x)%Q → (2 ^ binade x <= roundDouble x)%Q.
Proof.
  intros Hpos. rewrite roundDouble_pos by done.
  destruct (binade_spec x Hpos) as [Hlo _].
  rewrite (pow2_split (binade x) (binade x - 52)).
  replace (binade x - (binade x - 52))%Z with 52%Z by lia.
  fold (ulp x). apply Qmult_le_compat_r; [|apply Qlt_le_weak, ulp_pos].
  rewrite pow2_52, <-Zle_Qle. apply roundHalfEven_lower.
  apply Qle_shift_div_l; [apply ulp_pos|].
  rewrite <-pow2_52. unfold ulp.
  rewrite (pow2_split (binade x) (binade x - 52)) in Hlo.
  by replace (binade x - (binade x - 52))%Z with 52%Z in Hlo by lia.
Qed.

Lemma pow2_53 : (2 ^ 53 == inject_Z (2 ^ 53))%Q.
Proof. done. Qed.

Lemma roundDouble_upper (x : Q) :
  (0 < x)%Q → (roundDouble x <= 2 ^ (binade x + 1))%Q.
Proof.
  intros Hpos. rewrite roundDouble_pos by done.
  destruct (binade_spec x Hpos) as [_ Hhi].
  rewrite (pow2_split (binade x + 1) (binade x - 52)) in Hhi |- *.
  replace (binade x + 1 - (binade x - 52))%Z with 53%Z in Hhi |- * by lia.
  fold (ulp x) in Hhi |- *.
  apply Qmult_le_compat_r; [|apply Qlt_le_weak, ulp_pos].
  rewrite pow2_53, <-Zle_Qle. apply roundHalfEven_upper.
  apply Qle_shift_div_r; [apply ulp_pos|].
  rewrite <-pow2_53. by apply Qlt_le_weak.
Qed.

Lemma roundDouble_nonneg (x : Q) : (0 <= roundDouble x)%Q.
Proof.
  destruct (Qlt_le_dec 0 x) as [Hpos|Hle].
  - apply Qle_trans with (2 ^ binade x)%Q; [|by apply roundDouble_lower].
    apply Qlt_le_weak, pow2_pos.
  - by rewrite roundDouble_nonpos.
Qed.

Lemma roundDouble_mono (x y : Q) :
  (x <= y)%Q → (roundDouble x <= roundDouble y)%Q.
Proof.
  intros Hle. destruct (Qlt_le_dec 0 x) as [Hpos|Hneg].
  - assert (0 < y)%Q as Hy by lra.
    pose proof (binade_mono x y Hpos Hle) as Hk.
    destruct (decide (binade x = binade y)) as [Heq|Hne].
    + rewrite !roundDouble_pos by done. unfold ulp. rewrite Heq.
      apply Qmult_le_compat_r; [|apply Qlt_le_weak, pow2_pos].
      rewrite <-Zle_Qle. apply roundHalfEven_mono.
      unfold Qdiv. apply Qmult_le_compat_r; [done|].
      apply Qinv_le_0_compat, Qlt_le_weak, pow2_pos.
    + apply Qle_trans with (2 ^ (binade x + 1))%Q; [by apply roundDouble_upper|].
      apply Qle_trans with (2 ^ binade y)%Q; [|by apply roundDouble_lower].
      apply pow2_le. lia.
  - rewrite (roundDouble_nonpos x) by done. apply roundDouble_nonneg.
Qed.

(** A double is at most half a unit in the last place from the number it
    rounds, that is, at relative distance at most [2 ^ -53]. *)
Lemma roundDouble_near (x : Q) :
  (0 <= x)%Q → (Qabs (roundDouble x - x) <= x * (1 # 2 ^ 53))%Q.
Proof.
  intros Hnn. destruct (Qlt_le_dec 0 x) as [Hpos|Hle].
  - rewrite roundDouble_pos by done.
    destruct (binade_spec x Hpos) as [Hlo _].
    pose proof (roundHalfEven_near (x / ulp x)) as Hnear.
    pose proof (ulp_pos x) as Hu.
    set (m := inject_Z (roundHalfEven (x / ulp x))) in *.
    assert (m * ulp x - x == (m - x / ulp x) * ulp x)%Q as ->.
    { field. lra. }
    rewrite Qabs_Qmult, (Qabs_pos (ulp x)) by lra.
    apply Qle_trans with ((1 # 2) * ulp x)%Q.
    { apply Qmult_le_compat_r; [done|lra]. }
    rewrite (pow2_split (binade x) (binade x - 52)) in Hlo.
    replace (binade x - (binade x - 52))%Z with 52%Z in Hlo by lia.
    fold (ulp x) in Hlo. rewrite pow2_52 in Hlo.
    change (inject_Z (2 ^ 52)) with (4503599627370496 # 1)%Q in Hlo.
    change (1 # 2 ^ 53)%Q with (1 # 9007199254740992)%Q. lra.
  - assert (x == 0)%Q as Hz by lra.
    rewrite roundDouble_nonpos by done.
    rewrite Hz. done.
Qed.

Lemma roundDouble_1 : (roundDouble 1 == 1)%Q.
Proof. done. Qed.

Lemma roundDouble_100 : (roundDouble 100 == 100)%Q.
Proof. done. Qed.

Lemma quotient_bounds (c e : Z) :
  (0 ≤ c ≤ e)%Z → (0 < e)%Z →
  (0 <= inject_Z c / inject_Z e)%Q ∧ (inject_Z c / inject_Z e <= 1)%Q.
Proof.
  intros Hc He.
  assert (0 < inject_Z e)%Q as HE by (by rewrite (Zlt_Qlt 0 e) in He).
  split.
  - apply Qle_shift_div_l; [done|]. rewrite Qmult_0_l.
    rewrite (Zle_Qle 0 c) in Hc. tauto.
  - apply Qle_shift_div_r; [done|]. rewrite Qmult_1_l, <-Zle_Qle. lia.
Qed.

Lemma doublePercent_range (c e : Z) :
  (0 ≤ c ≤ e)%Z → (0 < e)%Z →
  (0 <= doublePercent c e)%Q ∧ (doublePercent c e <= 100)%Q.
Proof.
  intros Hc He. destruct (quotient_bounds c e Hc He) as [Hq0 Hq1].
  split; [apply roundDouble_nonneg|].
  unfold doublePercent.
  apply Qle_trans with (roundDouble 100); [|by rewrite roundDouble_100].
  apply roundDouble_mono.
  pose proof (roundDouble_mono _ _ Hq1) as Hr. rewrite roundDouble_1 in Hr. lra.
Qed.

(** The double product is within [200 * 2 ^ -53] of the exact percentage. *)
Lemma doublePercent_near (c e : Z) :
  (0 ≤ c ≤ e)%Z → (0 < e)%Z →
  (Qabs (doublePercent c e - inject_Z c / inject_Z e * 100) <= 200 # 2 ^ 53)%Q.
Proof.
  intros Hc He. destruct (quotient_bounds c e Hc He) as [Hq0 Hq1].
  unfold doublePercent. set (q := (inject_Z c / inject_Z e)%Q) in *.
  pose proof (roundDouble_near q Hq0) as Hr.
  pose proof (roundDouble_nonneg q) as Hr0.
  pose proof (roundDouble_mono _ _ Hq1) as Hr1. rewrite roundDouble_1 in Hr1.
  set (r := roundDouble q) in *.
  assert (0 <= r * 100)%Q as Hm0 by lra.
  pose proof (roundDouble_near (r * 100) Hm0) as Hp.
  set (p := roundDouble (r * 100)) in *.
  apply Qabs_Qle_condition in Hr, Hp. apply Qabs_Qle_condition.
  change (1 # 2 ^ 53)%Q with (1 # 9007199254740992)%Q in *.
  change (200 # 2 ^ 53)%Q with (200 # 9007199254740992)%Q.
  split; lra.
Qed.

(** For fewer than [2 ^ 32] declarations the double product is on the side
    of the exact percentage at every half of a hundredth, unless the exact
    percentage is such a half. *)
Lemma toFixed2_doublePercent (c e : Z) :
  (0 ≤ c ≤ e)%Z → (0 < e < 2 ^ 32)%Z →
  (Qabs (toFixed2 (doublePercent c e) - inject_Z c / inject_Z e * 100)
     <= 1 # 200)%Q.
Proof.
  intros Hc [He Hbound].
  pose proof (doublePercent_near c e Hc He) as Hnear.
  apply Qabs_Qle_condition in Hnear.
  set (p := doublePercent c e) in *. unfold toFixed2.
  destruct (Qfloor_bounds (p * 100 + (1 # 2))) as [Hlo Hhi].
  set (n := Qfloor (p * 100 + (1 # 2))) in *.
  assert (0 < inject_Z e)%Q as HE by (by rewrite (Zlt_Qlt 0 e) in He).
  assert (inject_Z e <= 4294967296)%Q as HE32.
  { change 4294967296%Q with (inject_Z (2 ^ 32)). rewrite <-Zle_Qle. lia. }
  assert (inject_Z c / inject_Z e * inject_Z e == inject_Z c)%Q as Hx.
  { field. lra. }
  set (x := (inject_Z c / inject_Z e)%Q) in *.
  assert (n # 100 == inject_Z n * (1 # 100))%Q as ->.
  { unfold Qeq, Qmult, inject_Z. simpl. lia. }
  change (200 # 2 ^ 53)%Q with (200 # 9007199254740992)%Q in Hnear.
  assert (2 * n * e ≤ 20000 * c + e ∧ 20000 * c ≤ 2 * n * e + e)%Z
    as [Hleft Hright].
  { assert ((200 # 9007199254740992) * 100 * 4294967296 < 1 # 2)%Q as Hgap
      by reflexivity.
    split.
    - destruct (decide (2 * n * e ≤ 20000 * c + e)%Z) as [|Hgt]; [done|].
      exfalso. assert (20000 * c + e + 1 ≤ 2 * n * e)%Z as Hz by lia.
      rewrite Zle_Qle in Hz.
      rewrite !inject_Z_plus, !inject_Z_mult in Hz.
      change (inject_Z 20000) with 20000%Q in Hz.
      change (inject_Z 2) with 2%Q in Hz. change (inject_Z 1) with 1%Q in Hz.
      rewrite <-Hx in Hz.
      assert ((p * 100 - x * 10000) * inject_Z e <=
              (200 # 9007199254740992) * 100 * 4294967296)%Q as Hsmall.
      { apply Qle_trans with ((200 # 9007199254740992) * 100 * inject_Z e)%Q.
        - apply Qmult_le_compat_r; lra.
        - apply Qmult_le_l; [done|lra]. }
      assert ((inject_Z n - (1 # 2)) * inject_Z e <= p * 100 * inject_Z e)%Q
        as Hscaled by (apply Qmult_le_compat_r; lra).
      lra.
    - destruct (decide (20000 * c ≤ 2 * n * e + e)%Z) as [|Hgt]; [done|].
      exfalso. assert (2 * n * e + e + 1 ≤ 20000 * c)%Z as Hz by lia.
      rewrite Zle_Qle in Hz.
      rewrite !inject_Z_plus, !inject_Z_mult in Hz.
      change (inject_Z 20000) with 20000%Q in Hz.
      change (inject_Z 2) with 2%Q in Hz. change (inject_Z 1) with 1%Q in Hz.
      rewrite <-Hx in Hz.
      assert ((x * 10000 - p * 100) * inject_Z e <=
              (200 # 9007199254740992) * 100 * 4294967296)%Q as Hsmall.
      { apply Qle_trans with ((200 # 9007199254740992) * 100 * inject_Z e)%Q.
        - apply Qmult_le_compat_r; lra.
        - apply Qmult_le_l; [done|lra]. }
      assert (p * 100 * inject_Z e <= (inject_Z n + (1 # 2)) * inject_Z e)%Q
        as Hscaled by (apply Qmult_le_compat_r; lra).
      lra. }
  apply Qabs_Qle_condition.
  rewrite Zle_Qle in Hleft, Hright.
  rewrite !inject_Z_plus, !inject_Z_mult in Hleft, Hright.
  change (inject_Z 20000) with 20000%Q in *.
  change (inject_Z 2) with 2%Q in *.
  rewrite <-Hx in Hleft, Hright.
  split.
  - apply Qmult_le_r with (inject_Z e); [done|]. lra.
  - apply Qmult_le_r with (inject_Z e); [done|]. lra.
Qed.

(** *** [toFixed(2)] *)

Lemma toFixed2_nonneg (x : Q) : (0 <= x)%Q → (0 <= toFixed2 x)%Q.
Proof.
  intros Hx. unfold toFixed2.
  assert (0 <= Qfloor (x * 100 + (1 # 2)))%Z as Hfloor.
  { change 0%Z with (Qfloor 0). apply Qfloor_resp_le.
    apply Qle_trans with (x * 100)%Q.
    - apply Qmult_le_0_compat; [done|]. by unfold Qle.
    - rewrite <-(Qplus_0_r (x * 100)) at 1. apply Qplus_le_r. by unfold Qle. }
  unfold Qle. cbn [Qnum Qden]. lia.
Qed.

Lemma toFixed2_le_100 (x : Q) : (x <= 100)%Q → (toFixed2 x <= 100)%Q.
Proof.
  intros Hx. unfold toFixed2.
  assert (Qfloor (x * 100 + (1 # 2)) <= 10000)%Z as Hfloor.
  { change 10000%Z with (Qfloor (100 * 100 + (1 # 2))).
    apply Qfloor_resp_le. lra. }
  unfold Qle. cbn [Qnum Qden]. lia.
Qed.

(** *** The percentage of a summary *)

Lemma computePercentage_spec (found designTokenCount ignoredValueCount : nat) :
  ignoredValueCount ≤ found →
  computePercentage found designTokenCount ignoredValueCount =
    if decide (found - ignoredValueCount = 0) then (-1)%Q
    else toFixed2 (doublePercent (Z.of_nat designTokenCount)
                                 (Z.of_nat (found - ignoredValueCount))).
Proof.
  intros Hle. unfold computePercentage, doublePercent.
  replace (Z.of_nat found - Z.of_nat ignoredValueCount)%Z
    with (Z.of_nat (found - ignoredValueCount)) by lia.
  destruct (decide (found - ignoredValueCount = 0)) as [Hz|Hnz].
  - rewrite Hz. simpl. by rewrite andb_false_r.
  - destruct (Nat.eqb_spec found 0) as [->|_]; [lia|].
    destruct (Z.eqb_spec (Z.of_nat (found - ignoredValueCount)) 0); [lia|done].
Qed.

(** The sentinel is returned for no eligible declaration, and only then. *)
Lemma computePercentage_sentinel (found designTokenCount ignoredValueCount : nat) :
  ignoredValueCount ≤ found →
  (computePercentage found designTokenCount ignoredValueCount == -1)%Q ↔
  found - ignoredValueCount = 0.
Proof.
  intros Hle. rewrite computePercentage_spec by done.
  destruct (decide (found - ignoredValueCount = 0)) as [Hz|Hnz]; [done|].
  split; [|done]. intros Heq.
  pose proof (toFixed2_nonneg _ (roundDouble_nonneg
    (roundDouble (inject_Z (Z.of_nat designTokenCount) /
                  inject_Z (Z.of_nat (found - ignoredValueCount))) * 100)))
    as Hpos.
  fold (doublePercent (Z.of_nat designTokenCount)
          (Z.of_nat (found - ignoredValueCount))) in Hpos.
  rewrite Heq in Hpos. by unfold Qle in Hpos.
Qed.

Lemma computePercentage_zero (found ignoredValueCount : nat) :
  ignoredValueCount < found →
  (computePercentage found 0 ignoredValueCount == 0)%Q.
Proof.
  intros Hlt. rewrite computePercentage_spec by lia.
  destruct (decide (found - ignoredValueCount = 0)); [lia|].
  unfold doublePercent. rewrite (roundDouble_nonpos (inject_Z _ / _)); [done|].
  unfold Qdiv. simpl. rewrite Qmult_0_l. apply Qle_refl.
Qed.

Lemma computePercentage_half (found ignoredValueCount : nat) :
  found - ignoredValueCount = 2 →
  (computePercentage found 1 ignoredValueCount == 50)%Q.
Proof.
  intros Heq. rewrite computePercentage_spec by lia. rewrite Heq. done.
Qed.

(** 23 of 160 is 14.375; the double product is below it. *)
Example computePercentage_below_tie :
  computePercentage 160 23 0 = (1437 # 100)%Q.
Proof. by vm_compute. Qed.

(** ** The resolution walk *)

Module ResolutionFacts.
Import ResolutionSpec TestDoubles.

Example occurrences_calc :
  varOccurrences "calc(var(--a) - var( --b , 2px))" = ["--a"; "--b"].
Proof. reflexivity. Qed.

Section Walk.
Variable tokens : gset string.
Variable scope : gmap string VariableDefinition.

Lemma resolveName_unfold fuel chain name :
  resolveName tokens scope fuel chain name =
    if decide (name ∈ tokens) then Some [mkAttempt chain (token name)]
    else if decide (name ∈ chain) then Some [mkAttempt chain (cycle name)]
    else
      match scope !! name with
      | None => Some [mkAttempt chain (unresolved name)]
      | Some definition =>
          match fuel with
          | 0 => None
          | S fuel' =>
              match varOccurrences (rawValue definition) with
              | [] => Some [mkAttempt (chain ++ [name]) literal]
              | names =>
                  mjoin <$> mapM (resolveName tokens scope fuel' (chain ++ [name]))
                                 names
              end
          end
      end.
Proof. by destruct fuel. Qed.

(** A chain of distinct names of the scope that misses a name of the
    scope is shorter than the scope is large. *)
Lemma chain_shorter chain name :
  NoDup chain →
  (∀ n, n ∈ chain → is_Some (scope !! n)) →
  name ∉ chain → is_Some (scope !! name) →
  length chain < size scope.
Proof.
  intros Hnd Hin Hname Hscope.
  rewrite <-(size_list_to_set (C := gset string) chain Hnd), <-size_dom.
  apply subset_size. split.
  - intros n Hn. apply elem_of_dom, Hin. by apply elem_of_list_to_set in Hn.
  - intros Hsub. apply Hname.
    apply (elem_of_list_to_set (C := gset string)), Hsub. by apply elem_of_dom.
Qed.

Lemma mapM_attempts (f : string → option (list Attempt)) names :
  (∀ n, ∃ attempts, f n = Some attempts ∧ Forall (wellFormed scope) attempts) →
  ∃ attempts, mjoin <$> mapM f names = Some attempts ∧
              Forall (wellFormed scope) attempts.
Proof.
  intros Hf. induction names as [|n names (rest & Hrest & Hwf)]; simpl.
  { exists []. by split. }
  destruct (Hf n) as (first & -> & Hfirst). simpl.
  destruct (mapM f names) as [others|]; [|done]. simpl in *.
  injection Hrest as <-. exists (first ++ mjoin others).
  split; [done|]. by apply Forall_app.
Qed.

(** With fuel for the names of the scope that are not yet in the chain,
    the walk of a name returns, and its attempts are well formed. *)
Lemma resolveName_total fuel chain name :
  NoDup chain →
  (∀ n, n ∈ chain → is_Some (scope !! n)) →
  size scope ≤ length chain + fuel →
  ∃ attempts, resolveName tokens scope fuel chain name = Some attempts ∧
              Forall (wellFormed scope) attempts.
Proof.
  revert chain name.
  induction fuel as [|fuel IH]; intros chain name Hnd Hin Hfuel;
    rewrite resolveName_unfold;
    (destruct (decide (name ∈ tokens)) as [Htok|Htok];
     [eexists; split; [done|]; by repeat constructor|]);
    (destruct (decide (name ∈ chain)) as [Hchain|Hchain];
     [eexists; split; [done|]; repeat constructor; simpl; [done..|congruence]|]);
    (destruct (scope !! name) as [definition|] eqn:Hdef;
     [|eexists; split; [done|]; by repeat constructor]).
  - pose proof (chain_shorter chain name Hnd Hin) as Hshort.
    rewrite Hdef in Hshort. specialize (Hshort ltac:(done) ltac:(eauto)). lia.
  - assert (NoDup (chain ++ [name])) as Hnd'.
    { apply NoDup_app. split_and!; [done| |apply NoDup_singleton].
      intros n Hn ->%list_elem_of_singleton. done. }
    assert (∀ n, n ∈ chain ++ [name] → is_Some (scope !! n)) as Hin'.
    { intros n [Hn| ->%list_elem_of_singleton]%elem_of_app; [by apply Hin|].
      by rewrite Hdef. }
    destruct (varOccurrences (rawValue definition)) as [|n names].
    + eexists. split; [done|]. by repeat constructor.
    + apply mapM_attempts. intros m. apply IH; [done..|].
      rewrite length_app. simpl. lia.
Qed.

(** The guard: a name that is already in the chain ends the walk. *)
Lemma resolveName_cycle fuel chain name :
  name ∉ tokens → name ∈ chain →
  resolveName tokens scope fuel chain name = Some [mkAttempt chain (cycle name)].
Proof.
  intros Htok Hchain. rewrite resolveName_unfold.
  by rewrite decide_False, decide_True.
Qed.

Lemma buildTrace_total value :
  ∃ trace, buildTrace tokens scope value = Some trace ∧
           Forall (wellFormed scope) trace.
Proof.
  unfold buildTrace. apply mapM_attempts. intros n.
  apply resolveName_total; [constructor| |simpl; lia].
  intros m Hm. by apply elem_of_nil in Hm.
Qed.
End Walk.

Example cyclic_pair_trace :
  buildTrace ∅ cyclicScope "var(--a)"
  = Some [mkAttempt ["--a"; "--b"] (cycle "--a")].
Proof. vm_compute. reflexivity. Qed.

Example cyclic_pair_unresolved :
  unresolvedNames <$> buildTrace ∅ cyclicScope "var(--a)" = Some ["--a"] ∧
  tokenIds <$> buildTrace ∅ cyclicScope "var(--a)" = Some [].
Proof. split; vm_compute; reflexivity. Qed.

Example alias_chain_trace :
  buildTrace {[ "--color-accent-primary" ]}
    {[ "--accent" := mkVariableDefinition "--accent" "var(--color-accent-primary)"
                       false "/project/alias-chain.css" (mkPosition 3 9);
       "--accent-strong" := mkVariableDefinition "--accent-strong" "var(--accent)"
                       false "/project/alias-chain.css" (mkPosition 4 9) ]}
    "var(--accent-strong)"
  = Some [mkAttempt ["--accent-strong"; "--accent"] (token "--color-accent-primary")].
Proof. vm_compute. reflexivity. Qed.

(** C2. For every value text and every scope the resolution walk returns a
    trace: the fuel it is given, the size of the scope, is never used up.
    The chain of every attempt holds distinct names, an attempt classified
    [cycle] is one whose name was already in its chain, and it is
    recorded with the unresolved names. Whenever a name that is not a
    token reappears in the chain, the walk of that occurrence stops with
    the single leaf [cycle]. *)
Theorem resolution_walk_terminates
    (tokens : gset string) (scope : gmap string VariableDefinition)
    (value : string) :
  (∃ trace, buildTrace tokens scope value = Some trace ∧
            Forall (λ a, NoDup (chain a) ∧
                         ∀ n, leaf a = cycle n →
                              n ∈ chain a ∧ n ∈ unresolvedNames [a]) trace) ∧
  (∀ fuel chain name,
     name ∉ tokens → name ∈ chain →
     resolveName tokens scope fuel chain name = Some [mkAttempt chain (cycle name)]).
Proof.
  split.
  - destruct (buildTrace_total tokens scope value) as (trace & Htrace & Hwf).
    exists trace. split; [done|].
    eapply Forall_impl; [exact Hwf|].
    intros a (Hnd & _ & Hcycle). split; [done|]. intros n Hn.
    split; [by apply Hcycle|].
    unfold unresolvedNames. simpl. rewrite Hn. simpl. by left.
  - apply resolveName_cycle.
Qed.

Lemma resolution_walk_terminates_witness :
  resolveName ∅ cyclicScope 0 ["--a"; "--b"] "--a"
  = Some [mkAttempt ["--a"; "--b"] (cycle "--a")].
Proof.
  apply (resolution_walk_terminates ∅ cyclicScope "var(--a)").
  - apply not_elem_of_empty.
  - by left.
Defined.

End ResolutionFacts.

(** ** The analysis of one file *)

Section PropagationFacts.
Context {Sources Unresolved Origins Tracker Report : Type}.
Context {C : Collaborators Sources Unresolved Origins Tracker Report}.

Abbreviation Run := (@M Tracker).
Abbreviation St := (@RunState Tracker).

Ltac run :=
  unfold mbind, M_bind, mret, M_ret, catch, liftResult, consoleLog, pushFinding,
         updateTracker, getState, throw in *;
  simpl in *.

Lemma bind_run {A B} (m : Run A) (k : A → Run B) (st : St) :
  (m ≫= k) st =
    match m st with
    | (st', Ok a) => k a st'
    | (st', Throw e) => (st', Throw e)
    end.
Proof. reflexivity. Qed.

(** [collectExternalVars] catches what its reads throw. *)
Lemma collectExternalFile_returns filePath fv rel (st : St) :
  ∃ st' fv', collectExternalFile filePath fv rel st = (st', Ok fv').
Proof.
  unfold collectExternalFile. case_decide; run; [eauto|].
  destruct (getExternalVars _); eauto.
Qed.

Lemma collectExternalFiles_returns filePath fv rels (st : St) :
  ∃ st' fv', collectExternalFiles filePath fv rels st = (st', Ok fv').
Proof.
  revert fv st. induction rels as [|rel rels IH]; intros fv st; simpl.
  { by eexists _, _. }
  rewrite bind_run.
  destruct (collectExternalFile_returns filePath fv rel st) as (st1 & fv1 & ->).
  apply IH.
Qed.

Lemma collectExternalPatterns_returns filePath fv mapping (st : St) :
  ∃ st' fv', collectExternalPatterns filePath fv mapping st = (st', Ok fv').
Proof.
  revert fv st.
  induction mapping as [|[pattern rels] mapping IH]; intros fv st; simpl.
  { by eexists _, _. }
  rewrite bind_run. destruct (minimatch _ _).
  - destruct (collectExternalFiles_returns filePath fv rels st) as (st1 & fv1 & ->).
    apply IH.
  - apply IH.
Qed.

Lemma collectExternalVars_returns filePath (st : St) :
  ∃ st' fv, collectExternalVars filePath st = (st', Ok fv).
Proof. apply collectExternalPatterns_returns. Qed.

Lemma definesLocally_true node name :
  definesLocally node name = true →
  present (n_prop node) = Some name ∧
  is_Some (present (n_value node)) ∧
  isTokenizableProperty name = false ∧
  acceptsDefinition node name = true.
Proof.
  unfold definesLocally.
  rewrite !andb_true_iff, !bool_decide_eq_true, negb_true_iff. tauto.
Qed.

(** A visit leaves an existing entry of the scope alone, keeps the lines
    of the console, and logs the collision of a local definition. *)
Lemma visitNode_keeps filePath declarations fv node (st : St) name def rel :
  pathRelative repoPath filePath = Ok rel →
  fv !! name = Some def →
  ∃ st' declarations' fv',
    visitNode filePath (declarations, fv) node st = (st', Ok (declarations', fv')) ∧
    fv' !! name = Some def ∧
    (∀ line, line ∈ console st → line ∈ console st') ∧
    (definesLocally node name = true → collisionLine rel node name ∈ console st').
Proof.
  intros Hrel Hname. unfold visitNode.
  destruct (present (n_prop node)) as [prop|] eqn:Hprop.
  2:{ exists st, declarations, fv. split_and!; try done.
      intros (Hp & _)%definesLocally_true. congruence. }
  destruct (present (n_value node)) as [value|] eqn:Hvalue.
  2:{ exists st, declarations, fv. split_and!; try done.
      intros (_ & [? Hv] & _)%definesLocally_true. congruence. }
  destruct (isTokenizableProperty prop) eqn:Htok.
  { eexists st, _, fv. split_and!; try done.
    intros (Hp & _ & Hnt & _)%definesLocally_true. congruence. }
  destruct (acceptsDefinition node prop) eqn:Hacc.
  2:{ exists st, declarations, fv. split_and!; try done.
      intros (Hp & _ & _ & Ha)%definesLocally_true. congruence. }
  destruct (fv !! prop) as [existing|] eqn:Hfv.
  - run. rewrite Hrel. eexists _, declarations, fv. split_and!; try done.
    + simpl. intros line Hline. apply elem_of_app. by left.
    + simpl. intros (Hp & _)%definesLocally_true.
      assert (prop = name) as -> by congruence.
      apply elem_of_app. right. by left.
  - exists st, declarations, (<[prop := getVarData node false]> fv).
    split_and!; try done.
    + rewrite lookup_insert_ne; [done|]. intros ->. congruence.
    + intros (Hp & _)%definesLocally_true. congruence.
Qed.

Lemma walk_keeps filePath nodes declarations fv (st : St) name def rel :
  pathRelative repoPath filePath = Ok rel →
  fv !! name = Some def →
  ∃ st' declarations' fv',
    walk filePath nodes (declarations, fv) st = (st', Ok (declarations', fv')) ∧
    fv' !! name = Some def ∧
    (∀ line, line ∈ console st → line ∈ console st') ∧
    (∀ node, node ∈ nodes → definesLocally node name = true →
             collisionLine rel node name ∈ console st').
Proof.
  intros Hrel. revert declarations fv st.
  induction nodes as [|node nodes IH]; intros declarations fv st Hname.
  { exists st, declarations, fv. split_and!; try done.
    intros node Hnode. by apply elem_of_nil in Hnode. }
  cbn [walk]. rewrite bind_run.
  destruct (visitNode_keeps filePath declarations fv node st name def rel Hrel Hname)
    as (st1 & declarations1 & fv1 & -> & Hname1 & Hmono1 & Hlog1).
  destruct (IH declarations1 fv1 st1 Hname1)
    as (st2 & declarations2 & fv2 & -> & Hname2 & Hmono2 & Hlog2).
  exists st2, declarations2, fv2. split_and!; try done.
  - intros line Hline. by apply Hmono2, Hmono1.
  - intros node' [->|Hnode]%elem_of_cons Hdef.
    + by apply Hmono2, Hlog1.
    + by apply Hlog2.
Qed.

(** C6. During the walk of [collectDeclarations] a name that is already in
    the scope map keeps its entry: every local definition of that name is
    skipped, the entry it would replace is found unchanged at the end,
    each such collision is logged on the console, and the walk returns
    (nothing is thrown). [path.relative] is taken not to throw, as
    Node's does not. *)
Theorem collectDeclarations_keeps_existing
    root fv filePath (st : St) name def rel :
  pathRelative repoPath filePath = Ok rel →
  fv !! name = Some def →
  ∃ st' declarations fv',
    collectDeclarations root fv filePath st = (st', Ok (declarations, fv')) ∧
    fv' !! name = Some def ∧
    (∀ node, node ∈ root → definesLocally node name = true →
             collisionLine rel node name ∈ console st').
Proof.
  intros Hrel Hname.
  destruct (walk_keeps filePath root [] fv st name def rel Hrel Hname)
    as (st' & declarations & fv' & Hwalk & Hname' & _ & Hlog).
  by exists st', declarations, fv'.
Qed.

(** The loop of [resolveDeclarationReferences] returns: it maps the
    declarations to [resolvedOf] and appends their findings to the
    buffer. *)
Lemma resolveDeclarations_run fv filePath declarations (st : St) :
  ∃ tracker',
    resolveDeclarations fv filePath declarations st =
      (mkRunState (console st)
                  (usageFindingsBuffer st ++
                     ((λ d, findingFor d fv filePath) <$> declarations))
                  tracker',
       Ok ((λ d, resolvedOf d fv filePath) <$> declarations)).
Proof.
  revert st. induction declarations as [|decl declarations IH]; intros st.
  { exists (tracker st). simpl. rewrite app_nil_r. by destruct st. }
  cbn [resolveDeclarations]. rewrite bind_run.
  unfold resolveDeclaration at 1. run.
  match goal with
  | |- context [resolveDeclarations fv filePath declarations ?st1] =>
      destruct (IH st1) as [tracker' ->]
  end.
  exists tracker'. simpl. by rewrite <-app_assoc.
Qed.

Lemma filter_length_fmap {A B} (f : A → B) (P : A → bool) (Q : B → bool) l :
  (∀ x, P x = Q (f x)) →
  length (filter (λ x, P x = true) l) = length (filter (λ y, Q y = true) (f <$> l)).
Proof.
  intros HPQ. induction l as [|x l IH]; [done|].
  rewrite fmap_cons, !filter_cons, <-HPQ.
  destruct (decide (P x = true)); simpl; by rewrite IH.
Qed.

(** C4. The loop processes every declaration: it returns one annotated
    declaration and pushes one finding for each, in order, and for every
    one of them the [isIgnored] of the finding, which is what the
    aggregation sees, is [isExcluded && !containsDesignToken] of the
    annotated declaration, where [isExcluded] and [containsDesignToken] are
    what [analyzeTrace] says of the trace of the value. This is the
    condition that [computeDesignTokenSummary] counts for the denominator
    of the percentage: the two counts agree, and a declaration that is
    excluded and contains a token is a token usage in both. *)
Theorem ignored_is_excluded_without_token declarations fv filePath (st : St) :
  ∃ st' resolved findings,
    resolveDeclarations fv filePath declarations st = (st', Ok resolved) ∧
    usageFindingsBuffer st' = usageFindingsBuffer st ++ findings ∧
    length resolved = length declarations ∧
    length findings = length declarations ∧
    (∀ i decl, declarations !! i = Some decl →
       ∃ d f,
         resolved !! i = Some d ∧ findings !! i = Some f ∧
         r_prop d = d_prop decl ∧ r_value d = d_value decl ∧
         r_isExcluded d
           = containsExcludedDeclaration
               (analyzeTrace (buildResolutionTrace (d_value decl) fv) (d_prop decl)) ∧
         r_containsDesignToken d
           = containsDesignToken
               (analyzeTrace (buildResolutionTrace (d_value decl) fv) (d_prop decl)) ∧
         f_path f = filePath ∧
         f_descriptor f = d_prop decl ∧ f_value f = d_value decl ∧
         f_isIgnored f = r_isExcluded d && negb (r_containsDesignToken d) ∧
         f_containsToken f = r_containsDesignToken d) ∧
    (computeDesignTokenSummary resolved).2
      = length (filter (λ f, f_isIgnored f = true) findings) ∧
    (computeDesignTokenSummary resolved).1
      = length (filter (λ f, f_containsToken f = true) findings).
Proof.
  destruct (resolveDeclarations_run fv filePath declarations st) as [tracker' Hrun].
  eexists _, _, ((λ d, findingFor d fv filePath) <$> declarations).
  split; [exact Hrun|]. split; [done|]. split_and!.
  - by rewrite length_fmap.
  - by rewrite length_fmap.
  - intros i decl Hi.
    exists (resolvedOf decl fv filePath), (findingFor decl fv filePath).
    rewrite !list_lookup_fmap, Hi. done.
  - unfold computeDesignTokenSummary. cbn [snd].
    rewrite <-(filter_length_fmap (λ d, findingFor d fv filePath)
                 (λ d, r_isExcluded (resolvedOf d fv filePath) &&
                       negb (r_containsDesignToken (resolvedOf d fv filePath)))
                 f_isIgnored); [|done].
    symmetry.
    apply (filter_length_fmap (λ d, resolvedOf d fv filePath) _
             (λ r, r_isExcluded r && negb (r_containsDesignToken r))). done.
  - unfold computeDesignTokenSummary. cbn [fst].
    rewrite <-(filter_length_fmap (λ d, findingFor d fv filePath)
                 (λ d, r_containsDesignToken (resolvedOf d fv filePath))
                 f_containsToken); [|done].
    symmetry.
    apply (filter_length_fmap (λ d, resolvedOf d fv filePath) _
             r_containsDesignToken). done.
Qed.

(** A summary is built from the resolved declarations by
    [computeDesignTokenSummary] and [computePercentage]. *)
Lemma getPropagationData_summary filePath (st st' : St) summary :
  getPropagationData filePath st = (st', Ok summary) →
  designTokenCount summary
    = length (filter (λ d, r_containsDesignToken d = true) (foundPropValues summary)) ∧
  foundProps summary = length (foundPropValues summary) ∧
  percentage summary
    = computePercentage (length (foundPropValues summary))
                        (designTokenCount summary) (ignoredOf summary).
Proof.
  unfold getPropagationData. run.
  destruct (collectExternalVars_returns filePath st) as (st1 & fv & ->).
  destruct (parseCSS filePath) as [root|e]; [|done].
  destruct (collectDeclarations root fv filePath st1)
    as [st2 [[declarations fv']|e]]; [|done].
  destruct (resolveDeclarationReferences declarations fv' filePath st2)
    as [st3 [resolved|e]]; [|done].
  intros [= <- <-]. done.
Qed.

(** The declarations that hold a token are among the eligible ones. *)
Lemma getPropagationData_counts filePath (st st' : St) summary :
  getPropagationData filePath st = (st', Ok summary) →
  designTokenCount summary + ignoredOf summary ≤ length (foundPropValues summary).
Proof.
  intros (Hcount & _ & _)%getPropagationData_summary.
  rewrite Hcount. unfold ignoredOf.
  apply (filter_disjoint_length r_containsDesignToken
           (λ d, r_isExcluded d && negb (r_containsDesignToken d))).
  intros d Htoken. rewrite Htoken. by rewrite andb_false_r.
Qed.

(** C1. The percentage of a summary is [designTokenCount / (declarations
    - ignored) * 100] rounded to two decimals when there is an eligible
    declaration, that is, a number of hundredths which, for the fewer than
    [2 ^ 32] declarations that an array holds, is at distance at most 1/200
    of that value, and the sentinel -1 when there is none; it is -1 in that
    case only; it is 0 when there are eligible declarations and none
    contains a design token; and one token-using declaration out of two
    eligible ones gives 50. *)
Theorem getPropagationData_percentage filePath (st st' : St) summary :
  getPropagationData filePath st = (st', Ok summary) →
  (eligibleOf summary = 0 → percentage summary = (-1)%Q) ∧
  (eligibleOf summary ≠ 0 →
     (∃ hundredths : Z, percentage summary = (hundredths # 100)%Q) ∧
     ((Z.of_nat (foundProps summary) < 2 ^ 32)%Z →
      (Qabs (percentage summary -
             inject_Z (Z.of_nat (designTokenCount summary)) /
             inject_Z (Z.of_nat (eligibleOf summary)) * 100) <= 1 # 200)%Q)) ∧
  ((percentage summary == -1)%Q ↔ eligibleOf summary = 0) ∧
  (eligibleOf summary ≠ 0 → designTokenCount summary = 0 →
     (percentage summary == 0)%Q) ∧
  (eligibleOf summary = 2 → designTokenCount summary = 1 →
     (percentage summary == 50)%Q).
Proof.
  intros Hrun. pose proof (getPropagationData_counts _ _ _ _ Hrun) as Hcounts.
  destruct (getPropagationData_summary _ _ _ _ Hrun) as (_ & -> & ->).
  assert (ignoredOf summary ≤ length (foundPropValues summary)) as Hle
    by apply length_filter.
  unfold eligibleOf. split_and!.
  - intros Hz. rewrite computePercentage_spec by done. by rewrite decide_True.
  - intros Hnz. rewrite computePercentage_spec by done. rewrite decide_False by done.
    split; [by eexists|]. intros Hbound.
    apply toFixed2_doublePercent; lia.
  - by apply computePercentage_sentinel.
  - intros Hnz ->. apply computePercentage_zero. lia.
  - intros Htwo ->. by apply computePercentage_half.
Qed.

Lemma startsWith_refl s : startsWith s s = true.
Proof. induction s as [|a s IH]; [done|]. simpl. by rewrite decide_True. Qed.

Lemma includes_refl s : includes s s = true.
Proof. destruct s; simpl; [done|]. by rewrite decide_True, startsWith_refl. Qed.

Lemma includes_app_r p s : includes p (s +:+ p) = true.
Proof.
  induction s as [|a s IH]; [apply includes_refl|].
  change (String a s +:+ p) with (String a (s +:+ p)).
  cbn [includes]. rewrite IH. apply orb_true_r.
Qed.

Lemma string_app_assoc (s1 s2 s3 : string) :
  s1 +:+ (s2 +:+ s3) = (s1 +:+ s2) +:+ s3.
Proof.
  induction s1 as [|a s1 IH]; [reflexivity|].
  change (String a (s1 +:+ (s2 +:+ s3)) = String a ((s1 +:+ s2) +:+ s3)).
  by rewrite IH.
Qed.

Lemma includes_app_l p s t : includes p s = true → includes p (s +:+ t) = true.
Proof.
  assert (∀ q u, startsWith q u = true → startsWith q (u +:+ t) = true) as Hstarts.
  { induction q as [|a q IH]; intros [|b u]; simpl; try done.
    destruct (decide (a = b)); [apply IH|done]. }
  induction s as [|a s IH].
  - destruct p; simpl; [by destruct t|done].
  - change (String a s +:+ t) with (String a (s +:+ t)).
    cbn [includes]. intros [Hs|Hs]%orb_true_iff.
    + apply orb_true_iff. left. by apply (Hstarts p (String a s)).
    + apply orb_true_iff. right. by apply IH.
Qed.

(** The string form of an error that keeps [Error.prototype.toString] ends
    with its message. *)
Lemma errorToString_message e :
  err_toString e = None → includes (err_message e) (errorToString e) = true.
Proof.
  unfold errorToString. intros ->. repeat case_decide.
  - apply includes_refl.
  - match goal with H : err_message e = _ |- _ => rewrite H end.
    by destruct (err_name e).
  - rewrite string_app_assoc. apply includes_app_r.
Qed.

(** The string form of a [CssSyntaxError] holds its message. *)
Lemma errorToString_cssSyntaxError message sourceCode :
  includes message (errorToString (cssSyntaxError message sourceCode)) = true.
Proof.
  unfold errorToString, cssSyntaxError. cbn [err_toString].
  rewrite string_app_assoc. apply includes_app_l, includes_app_r.
Qed.

(** C7 (as the code has it). When reading or parsing the file fails,
    [getPropagationData] logs on the console a line that carries the file
    path and the message of the failure, and throws [new Error(err)]: an
    error whose message is the string form of the failure, no more and no
    less. That string holds the message of the failure, for an error that
    keeps [Error.prototype.toString] as for a [CssSyntaxError]; it holds
    the file path when the string of the failure holds it, and only then.
    No summary is returned. *)
Theorem getPropagationData_parse_failure filePath (st : St) err :
  parseCSS filePath = Throw err →
  ∃ st' raised,
    getPropagationData filePath st = (st', Throw raised) ∧
    last (console st')
      = Some ("Unable to read or parse " +:+ filePath +:+ " " +:+ err_message err) ∧
    err_name raised = "Error" ∧
    err_message raised = errorToString err ∧
    (err_toString err = None ∨
     (∃ message sourceCode, err = cssSyntaxError message sourceCode) →
     includes (err_message err) (err_message raised) = true) ∧
    includes filePath (err_message raised) = includes filePath (errorToString err).
Proof.
  intros Hparse. unfold getPropagationData. run.
  destruct (collectExternalVars_returns filePath st) as (st1 & fv & ->).
  rewrite Hparse.
  eexists _, (newError err). split; [reflexivity|]. simpl. split_and!; try done.
  - apply last_snoc.
  - intros [Hstandard|(message & sourceCode & ->)].
    + by apply errorToString_message.
    + apply errorToString_cssSyntaxError.
Qed.

End PropagationFacts.


(** ** Runs on concrete inputs *)

Module Runs.
Import TestDoubles.

Abbreviation descriptorsOf fs := (byDescriptor (descriptorValues (aggregate fs))).
Abbreviation tokensOf fs := (byToken (tokenUsage (aggregate fs))).

(** The test "extracts token usage from a single CSS file": one of the two
    eligible declarations uses a token. *)
Lemma getPropagationData_percentage_witness :
  ∃ st' summary,
    getPropagationData (C := collaborators files)
      "/project/src/components/button.css" start = (st', Ok summary) ∧
    eligibleOf summary = 2 ∧
    designTokenCount summary = 1 ∧
    (percentage summary == 50)%Q.
Proof.
  eexists _, _. split; [vm_compute; reflexivity|].
  split; [vm_compute; reflexivity|]. split; [vm_compute; reflexivity|].
  eapply (getPropagationData_percentage (C := collaborators files)
            "/project/src/components/button.css" start).
  - vm_compute. reflexivity.
  - vm_compute. reflexivity.
  - vm_compute. reflexivity.
Defined.

(** The test "handles empty CSS gracefully". *)
Example empty_css :
  (getPropagationData (C := collaborators [("/project/empty.css", Ok [])])
     "/project/empty.css" start).2
  = Ok (mkSummary 0 0 (-1)%Q [] ∅).
Proof. vm_compute. reflexivity. Qed.

(** The test "counts duplicate occurrences via a single-hop alias in one
    declaration", with the repository root of [config.js], outside of which
    the file lies. *)
Example alias_counted_twice :
  byToken (tokenUsage (buildUsageAggregates "../mozilla-unified"
                         (posixRelative ["home"; "dev"; "awdty"])
                         "2025-01-01T00:00:00.000Z" [aliasTwice]))
  = {[ "--color-accent-primary" :=
         mkTokenEntry 2 {[ "/project/alias-dup.css" := 2 ]} {[ "border-color" := 2 ]} ]}.
Proof. vm_compute. reflexivity. Qed.

(** The values U+1F600 and U+FF5E of one descriptor: in UTF-16 the first
    begins with the code unit D83D and sorts before the second, FF5E. *)
Example ids_by_code_units :
  idOf (descriptorsOf [tildeUse; faceUse])
    <$> [DescriptorKey "content"; ValueKey "content" grinningFace;
         ValueKey "content" fullwidthTilde]
  = [Some "0"; Some "1"; Some "2"].
Proof. vm_compute. reflexivity. Qed.

(** The IDs of a small run: descriptors in order, each followed by its
    values. *)
Example ids_in_order :
  idOf (descriptorsOf [tokenUse; ignoredUse; keptUse; unresolvedUse])
    <$> [DescriptorKey "background-color"; ValueKey "background-color" "inherit";
         DescriptorKey "color"; ValueKey "color" "var(--accent)"]
  = [Some "0"; Some "1"; Some "2"; Some "3"].
Proof. vm_compute. reflexivity. Qed.

Lemma buildUsageAggregates_ids_deterministic_witness :
  idOf (descriptorsOf [tokenUse; ignoredUse]) (DescriptorKey "background-color")
    = Some "0" ∧
  idOf (descriptorsOf [ignoredUse; tokenUse]) (ValueKey "color" "var(--accent)")
    = idOf (descriptorsOf [tokenUse; ignoredUse]) (ValueKey "color" "var(--accent)").
Proof.
  destruct (buildUsageAggregates_ids_deterministic
              "/project" (posixRelative []) "2025-01-01T00:00:00.000Z"
              [tokenUse; ignoredUse]) as [Hid Hperm].
  split.
  - etransitivity; [apply (Hid (DescriptorKey "background-color"))|].
    + apply elem_of_allKeys. vm_compute. by eexists.
    + vm_compute. reflexivity.
  - apply Hperm. apply perm_swap.
Defined.

(** C5, as stated, fails: the pair [("color", "var(--accent)")] is first
    seen without tokens and later with a token, and its bucket has no
    [tokens] field. *)
Lemma tokens_of_later_finding_dropped :
  ¬ carriesTokensOfAnyFinding (descriptorsOf [unresolvedUse; tokenUse])
      [unresolvedUse; tokenUse] "color" "var(--accent)".
Proof.
  intros Hclaim. destruct Hclaim as (ve & Hve & Htokens).
  { exists tokenUse. split_and!; [by right; left|done|by eexists]. }
  vm_compute in Hve. injection Hve as <-. by destruct Htokens.
Qed.

Lemma bucket_tokens_from_first_finding_witness :
  ∃ ve,
    valueEntryOf (descriptorsOf [unresolvedUse; tokenUse]) "color" "var(--accent)"
      = Some ve ∧
    ve_tokens ve = None ∧
    ∃ f rest,
      filter (λ g, forPair "color" "var(--accent)" g = true) [unresolvedUse; tokenUse]
        = f :: rest ∧
      ve_tokens ve = initialTokens f.
Proof.
  eexists. split; [vm_compute; reflexivity|]. split; [reflexivity|].
  apply (bucket_tokens_from_first_finding
           "/project" (posixRelative []) "2025-01-01T00:00:00.000Z"
           [unresolvedUse; tokenUse] "color" "var(--accent)").
  vm_compute. reflexivity.
Defined.

Lemma bucket_isIgnored_sticky_witness :
  ∃ ve, valueEntryOf (descriptorsOf [ignoredUse; keptUse]) "background-color" "inherit"
          = Some ve ∧
        ve_isIgnored ve = true.
Proof.
  eexists. split; [vm_compute; reflexivity|].
  apply (proj2 (bucket_isIgnored_sticky
                  "/project" (posixRelative []) "2025-01-01T00:00:00.000Z"
                  [] ignoredUse [keptUse] eq_refl)).
  vm_compute. reflexivity.
Defined.


Lemma collectDeclarations_keeps_existing_witness :
  ∃ st' declarations fv',
    collectDeclarations (C := collaborators files) [localAccent] claimedScope
      "/project/a.css" start = (st', Ok (declarations, fv')) ∧
    fv' !! "--accent" = Some externalAccent ∧
    (∀ node, node ∈ [localAccent] →
             definesLocally (C := collaborators files) node "--accent" = true →
             collisionLine "a.css" node "--accent" ∈ console st').
Proof.
  apply (collectDeclarations_keeps_existing (C := collaborators files)
           [localAccent] claimedScope "/project/a.css" start "--accent"
           externalAccent "a.css").
  - vm_compute. reflexivity.
  - vm_compute. reflexivity.
Defined.

(** C7, as stated, fails: the error raised for the path that cannot be read
    does not carry the path. *)
Lemma raised_error_lacks_path :
  ¬ raisesWithPathAndMessage (C := collaborators files)
      "/project/broken.css" start readFailure.
Proof.
  intros Hclaim. destruct Hclaim as (st' & e & Hrun & Hpath & _).
  { vm_compute. reflexivity. }
  vm_compute in Hrun. injection Hrun as _ <-.
  vm_compute in Hpath. discriminate.
Qed.

(** The error raised for a file that is not there names the file, because
    the message of Node does. *)
Example missing_file_names_path :
  (getPropagationData (C := collaborators files) "/project/gone.css" start).2
  = Throw (mkError "Error"
             "Error: ENOENT: no such file or directory, open '/project/gone.css'").
Proof. vm_compute. reflexivity. Qed.

(** The error raised for a style sheet that does not parse carries the
    string of the [CssSyntaxError], source frame included. *)
Example syntax_error_keeps_frame :
  (getPropagationData (C := collaborators [("/project/bad.css", Throw unknownWord)])
     "/project/bad.css" start).2
  = Throw (mkError "Error"
             ("CssSyntaxError: /project/bad.css:1:1: Unknown word" +:+
              lineBreak +:+ lineBreak +:+ "> 1 | oops" +:+ lineBreak)).
Proof. vm_compute. reflexivity. Qed.

Lemma getPropagationData_parse_failure_witness :
  ∃ st' raised,
    getPropagationData (C := collaborators files) "/project/broken.css" start
      = (st', Throw raised) ∧
    last (console st')
      = Some ("Unable to read or parse /project/broken.css " +:+
                err_message readFailure) ∧
    err_name raised = "Error" ∧
    err_message raised = errorToString readFailure ∧
    (err_toString readFailure = None ∨
     (∃ message sourceCode, readFailure = cssSyntaxError message sourceCode) →
     includes (err_message readFailure) (err_message raised) = true) ∧
    includes "/project/broken.css" (err_message raised)
      = includes "/project/broken.css" (errorToString readFailure).
Proof.
  apply (getPropagationData_parse_failure (C := collaborators files)
           "/project/broken.css" start readFailure).
  vm_compute. reflexivity.
Defined.

End Runs.

(** ** Paths *)

Section NormalizePathFacts.
Variable root : string.
Variable relativeTo : string → string → Result string.

(** [normalizePathForOutput] never throws: it returns its argument or the
    relative path without a leading separator. *)
Lemma normalizePathForOutput_returns absolutePath :
  normalizePathForOutput root relativeTo absolutePath = Ok absolutePath ∨
  ∃ relative,
    relativeTo root absolutePath = Ok relative ∧
    relative ≠ EmptyString ∧ startsWith ".." relative = false ∧
    normalizePathForOutput root relativeTo absolutePath
      = Ok (stripLeadingSep relative).
Proof.
  unfold normalizePathForOutput, tryCatch.
  destruct (decide (absolutePath = EmptyString)); [by left|].
  destruct (relativeTo root absolutePath) as [relative|e]; [|by left].
  destruct (decide (relative = EmptyString)) as [->|Hne]; [by left|].
  rewrite bool_decide_eq_false_2 by done.
  destruct (startsWith ".." relative) eqn:Hdots; simpl; [by left|].
  right. by exists relative.
Qed.

(** When the relativization throws, the argument is returned. *)
Lemma normalizePathForOutput_catches absolutePath e :
  relativeTo root absolutePath = Throw e →
  normalizePathForOutput root relativeTo absolutePath = Ok absolutePath.
Proof.
  intros Hthrow. unfold normalizePathForOutput, tryCatch.
  destruct (decide (absolutePath = EmptyString)); [done|]. by rewrite Hthrow.
Qed.
End NormalizePathFacts.

Lemma dropCommon_prefix (rs segs : list string) :
  NodePath.dropCommon rs (rs ++ segs) = ([], segs).
Proof.
  induction rs as [|r rs IH]; simpl; [by destruct segs|].
  by rewrite decide_True.
Qed.

Lemma join_cons_head c rest others :
  ∃ more, NodePath.join (String c rest :: others) = String c (rest +:+ more).
Proof.
  destruct others as [|o others]; simpl.
  - exists EmptyString. f_equal. induction rest as [|a rest IH]; [done|].
    change (String a rest = String a (rest +:+ EmptyString)). by f_equal.
  - by eexists.
Qed.

Lemma startsWith_dots_join c rest others :
  startsWith ".." (String c rest) = false →
  startsWith ".." (NodePath.join (String c rest :: others)) = false.
Proof.
  destruct others as [|o others]; [done|]. cbn [NodePath.join].
  change (String c rest +:+ ?x) with (String c (rest +:+ x)).
  cbn [startsWith]. case_decide; [|done].
  destruct rest as [|d rest]; [done|].
  change (String d rest +:+ ?x) with (String d (rest +:+ x)).
  intros Hd. exact Hd.
Qed.

(** A path under the repository root, whose first segment below the root
    neither begins with two dots nor with a backslash, is returned
    relative to the root. *)
Lemma normalizePathForOutput_under_root cwd root absolutePath c rest others :
  absolutePath ≠ EmptyString →
  NodePath.resolve cwd absolutePath
    = NodePath.resolve cwd root ++ String c rest :: others →
  c ≠ slash → c ≠ backslash →
  startsWith ".." (String c rest) = false →
  normalizePathForOutput root (posixRelative cwd) absolutePath
    = Ok (NodePath.join (String c rest :: others)).
Proof.
  intros Hne Hunder Hslash Hback Hdots.
  unfold normalizePathForOutput, tryCatch, posixRelative, NodePath.relative.
  rewrite decide_False by done. rewrite Hunder, dropCommon_prefix.
  cbn [fmap list_fmap app].
  rewrite (startsWith_dots_join c rest others Hdots).
  destruct (join_cons_head c rest others) as [more Hjoin].
  rewrite Hjoin. rewrite bool_decide_eq_false_2 by done. simpl.
  rewrite decide_False; [done|]. tauto.
Qed.

(** A path that is not under the repository root is returned unchanged:
    its relative path begins with [".."]. *)
Lemma normalizePathForOutput_outside_root cwd root absolutePath :
  (NodePath.dropCommon (NodePath.resolve cwd root)
                       (NodePath.resolve cwd absolutePath)).1 ≠ [] →
  normalizePathForOutput root (posixRelative cwd) absolutePath = Ok absolutePath.
Proof.
  intros Hup.
  unfold normalizePathForOutput, tryCatch, posixRelative, NodePath.relative.
  destruct (decide (absolutePath = EmptyString)); [done|].
  destruct (NodePath.dropCommon _ _) as [[|u up] down]; [done|].
  cbn [fmap list_fmap app].
  assert (startsWith ".." (NodePath.join (".." :: ((λ _, "..") <$> up) ++ down)) = true)
    as ->; [|by rewrite andb_false_r].
  by destruct (((λ _, "..") <$> up) ++ down).
Qed.

Example normalizePathForOutput_inside_repo :
  normalizePathForOutput "/project/firefox" (posixRelative ["home"])
    "/project/firefox/toolkit/themes/shared/foo.css"
  = Ok "toolkit/themes/shared/foo.css".
Proof. vm_compute. reflexivity. Qed.

Example normalizePathForOutput_outside_repo :
  normalizePathForOutput "/project/firefox" (posixRelative ["home"])
    "/tmp/other/file.css"
  = Ok "/tmp/other/file.css".
Proof. vm_compute. reflexivity. Qed.

(** C8. [normalizePathForOutput] at a path under the repository root whose
    first segment below the root begins with two dots: the path relative to
    the root is ["..foo/a.css"], and the function returns its argument
    instead, because the relative path [startsWith('..')]. *)
Theorem normalizePathForOutput_dotted_segment :
  NodePath.relative [] "/project" "/project/..foo/a.css" = "..foo/a.css" ∧
  normalizePathForOutput "/project" (posixRelative []) "/project/..foo/a.css"
  = Ok "/project/..foo/a.css".
Proof. split; vm_compute; reflexivity. Qed.

(** ** The aggregates in closed form *)

Lemma fileCounts_snoc keys k : fileCounts (keys ++ [k]) = increment k (fileCounts keys).
Proof. unfold fileCounts. by rewrite fold_left_app. Qed.


(** The count of a key is the number of times it occurs; a key that does not
    occur is absent. *)
Lemma lookup_fileCounts keys k :
  fileCounts keys !! k
  = match length (filter (λ k', k' = k) keys) with
    | 0 => None
    | n => Some n
    end.
Proof.
  induction keys as [|k0 keys IH] using rev_ind; [done|].
  rewrite fileCounts_snoc, filter_app, length_app. unfold increment.
  rewrite filter_cons, filter_nil.
  destruct (decide (k0 = k)) as [->|Hne].
  - rewrite lookup_insert_eq, IH. simpl.
    destruct (length (filter (λ k', k' = k) keys)); simpl; f_equal; lia.
  - rewrite lookup_insert_ne by done. rewrite IH. simpl.
    by rewrite Nat.add_0_r.
Qed.



Lemma fileCounts_Permutation keys keys' :
  keys ≡ₚ keys' → fileCounts keys = fileCounts keys'.
Proof.
  intros Hperm. apply map_eq. intros k. rewrite !lookup_fileCounts.
  by rewrite Hperm.
Qed.

Lemma pairFindings_snoc d v fs f :
  pairFindings d v (fs ++ [f])
  = pairFindings d v fs ++ (if forPair d v f then [f] else []).
Proof.
  unfold pairFindings. rewrite filter_app, filter_cons, filter_nil.
  destruct (forPair d v f); by case_decide.
Qed.

Lemma existsb_Permutation {A} (f : A → bool) l l' :
  l ≡ₚ l' → existsb f l = existsb f l'.
Proof.
  induction 1 as [|x l l' _ IH|x y l|l l' l'' _ IH1 _ IH2]; simpl.
  - done.
  - by rewrite IH.
  - by destruct (f x), (f y).
  - congruence.
Qed.

Lemma existsb_true_iff {A} (f : A → bool) l :
  existsb f l = true ↔ ∃ x, x ∈ l ∧ f x = true.
Proof.
  rewrite existsb_exists. by setoid_rewrite list_elem_of_In.
Qed.

Section ClosedForm.
Variable repoPath : string.
Variable pathRelative : string → string → Result string.
Variable generatedAt : string.

Abbreviation normalize := (normalizedPath repoPath pathRelative).
Abbreviation step := (aggregateFinding repoPath pathRelative).
Abbreviation run := (aggregateFindings repoPath pathRelative).
Abbreviation runFrom := (aggregateFrom repoPath pathRelative).
Abbreviation descriptorsOf fs :=
  (byDescriptor (descriptorValues
     (buildUsageAggregates repoPath pathRelative generatedAt fs))).
Abbreviation tokensOf fs :=
  (byToken (tokenUsage (buildUsageAggregates repoPath pathRelative generatedAt fs))).

Lemma run_snoc fs f : run (fs ++ [f]) = step (run fs) f.
Proof. unfold aggregateFindings, aggregateFrom. by rewrite fold_left_app. Qed.

(** The loop computes, for every pair, the closed form of its findings. *)
Lemma valueEntryOf_run fs d v :
  valueEntryOf (run fs).2 d v = bucketOf normalize (pairFindings d v fs).
Proof.
  induction fs as [|f fs IH] using rev_ind; [done|].
  rewrite run_snoc. cbn [aggregateFinding snd].
  rewrite valueEntryOf_aggregateDescriptor, IH, pairFindings_snoc.
  destruct (forPair d v f); [|by rewrite app_nil_r].
  destruct (pairFindings d v fs) as [|g gs].
  - simpl. unfold updateValueEntry, newValueEntry. simpl. do 2 f_equal.
    by destruct (f_isIgnored f).
  - cbn [app bucketOf default]. change (g :: gs ++ [f]) with ((g :: gs) ++ [f]).
    generalize (g :: gs) as l. intros l.
    unfold updateValueEntry. cbn [ve_id ve_count ve_containsToken ve_isIgnored
                                    ve_tokens ve_files].
    rewrite length_app, existsb_app, fmap_app.
    change ((λ f0 : Finding, normalize (f_path f0)) <$> [f])
      with [normalize (f_path f)].
    rewrite fileCounts_snoc. simpl.
    f_equal. f_equal; [lia|].
    destruct (f_isIgnored f); simpl; by rewrite ?orb_true_r, ?orb_false_r.
Qed.

Lemma tokenEntryOf_snoc occurrences rel d :
  tokenEntryOf (occurrences ++ [(rel, d)])
  = Some (let e := default newTokenEntry (tokenEntryOf occurrences) in
          mkTokenEntry (S (te_total e)) (increment rel (te_files e))
                       (increment d (te_descriptors e))).
Proof.
  destruct occurrences as [|o occurrences]; [done|].
  cbn [app tokenEntryOf default te_total te_files te_descriptors].
  change (o :: occurrences ++ [(rel, d)]) with ((o :: occurrences) ++ [(rel, d)]).
  generalize (o :: occurrences) as l. intros l.
  rewrite length_app, !fmap_app.
  change ([(rel, d)].*1) with [rel]. change ([(rel, d)].*2) with [d].
  rewrite !fileCounts_snoc. simpl. do 2 f_equal. lia.
Qed.

Lemma lookup_aggregateToken rel d byT t0 t :
  aggregateToken rel d byT t0 !! t
  = if decide (t0 = t)
    then Some (let e := default newTokenEntry (byT !! t) in
               mkTokenEntry (S (te_total e)) (increment rel (te_files e))
                            (increment d (te_descriptors e)))
    else byT !! t.
Proof.
  unfold aggregateToken. case_decide as Heq.
  - subst. by rewrite lookup_insert_eq.
  - by rewrite lookup_insert_ne.
Qed.

(** The loop over [finding.tokens] adds one occurrence for every time the
    token is in the list. *)
Lemma lookup_aggregateToken_fold rel d tokenIds byT t occurrences :
  byT !! t = tokenEntryOf occurrences →
  fold_left (aggregateToken rel d) tokenIds byT !! t
  = tokenEntryOf (occurrences ++ ((λ _, (rel, d)) <$> filter (λ t', t' = t) tokenIds)).
Proof.
  revert byT occurrences.
  induction tokenIds as [|t0 tokenIds IH]; intros byT occurrences Hlookup.
  { simpl. by rewrite app_nil_r. }
  cbn [fold_left]. rewrite filter_cons.
  destruct (decide (t0 = t)) as [->|Hne].
  - rewrite fmap_cons, (cons_middle _ occurrences), app_assoc.
    apply IH. rewrite lookup_aggregateToken, decide_True by done.
    by rewrite tokenEntryOf_snoc, Hlookup.
  - apply IH. by rewrite lookup_aggregateToken, decide_False.
Qed.

Lemma tokenOccurrences_snoc t fs f :
  tokenOccurrences normalize t (fs ++ [f])
  = tokenOccurrences normalize t fs ++
    ((λ _, (normalize (f_path f), f_descriptor f))
       <$> filter (λ t', t' = t) (default [] (f_tokens f))).
Proof.
  unfold tokenOccurrences. rewrite bind_app. f_equal.
  cbn [mbind list_bind]. by rewrite app_nil_r.
Qed.

(** The loop computes, for every token, the entry of its occurrences. *)
Lemma lookup_run_tokens fs t :
  (run fs).1 !! t = tokenEntryOf (tokenOccurrences normalize t fs).
Proof.
  induction fs as [|f fs IH] using rev_ind; [done|].
  rewrite run_snoc, tokenOccurrences_snoc. cbn [aggregateFinding fst].
  unfold aggregateTokens. destruct (f_tokens f) as [tokenIds|]; simpl.
  - by apply lookup_aggregateToken_fold.
  - by rewrite app_nil_r.
Qed.

(** The entry of the returned aggregate, without its ID, is the closed
    form. *)
Lemma valueEntryOf_descriptorsOf fs d v :
  eraseValueId <$> valueEntryOf (descriptorsOf fs) d v
  = bucketOf normalize (pairFindings d v fs).
Proof.
  cbn [descriptorValues byDescriptor buildUsageAggregates].
  rewrite valueEntryOf_assignIds, valueEntryOf_run.
  by destruct (pairFindings d v fs).
Qed.

Lemma descriptorsOf_Some fs d v ve :
  valueEntryOf (descriptorsOf fs) d v = Some ve →
  ∃ first rest,
    pairFindings d v fs = first :: rest ∧
    ve_count ve = length (first :: rest) ∧
    ve_containsToken ve = f_containsToken first ∧
    ve_isIgnored ve = existsb f_isIgnored (first :: rest) ∧
    ve_tokens ve = initialTokens first ∧
    ve_files ve = fileCounts ((λ f, normalize (f_path f)) <$> first :: rest).
Proof.
  intros Hve. pose proof (valueEntryOf_descriptorsOf fs d v) as Hclosed.
  rewrite Hve in Hclosed. destruct (pairFindings d v fs) as [|first rest]; [done|].
  exists first, rest. simpl in Hclosed. injection Hclosed as Hc Hct Hig Htk Hfl.
  done.
Qed.



(** The [isIgnored] of a bucket is the OR of the [isIgnored] of the findings
    of its pair. *)
Theorem bucket_isIgnored_iff fs d v ve :
  valueEntryOf (descriptorsOf fs) d v = Some ve →
  ve_isIgnored ve = true ↔
  ∃ f, f ∈ fs ∧ f_descriptor f = d ∧ f_value f = v ∧ f_isIgnored f = true.
Proof.
  intros (first & rest & Hpair & _ & _ & -> & _)%descriptorsOf_Some.
  rewrite <-Hpair, existsb_true_iff. unfold pairFindings.
  setoid_rewrite list_elem_of_filter. unfold forPair.
  setoid_rewrite bool_decide_eq_true. naive_solver.
Qed.

(** The [containsToken] of a bucket of the returned aggregate is that of
    the first finding of its pair, whatever the later findings say. *)
Theorem bucket_containsToken_first fs d v ve :
  valueEntryOf (descriptorsOf fs) d v = Some ve →
  ∃ first rest,
    pairFindings d v fs = first :: rest ∧
    ve_containsToken ve = f_containsToken first.
Proof.
  intros Hve. pose proof (valueEntryOf_descriptorsOf fs d v) as Hclosed.
  rewrite Hve in Hclosed.
  destruct (pairFindings d v fs) as [|first rest]; [done|].
  exists first, rest. split; [done|]. simpl in Hclosed. by injection Hclosed.
Qed.

Lemma is_Some_bucket fs d v :
  is_Some (valueEntryOf (descriptorsOf fs) d v) ↔
  ∃ f, f ∈ fs ∧ f_descriptor f = d ∧ f_value f = v.
Proof.
  rewrite <-(fmap_is_Some eraseValueId), valueEntryOf_descriptorsOf.
  unfold pairFindings. split.
  - destruct (filter _ fs) as [|f l] eqn:Hfilter; [by intros [? ?]|]. intros _.
    assert (f ∈ filter (λ f, forPair d v f = true) fs) as Hf
      by (rewrite Hfilter; by left).
    apply list_elem_of_filter in Hf as [Hp Hf].
    apply bool_decide_eq_true in Hp. naive_solver.
  - intros (f & Hf & Hd & Hv).
    assert (f ∈ filter (λ f, forPair d v f = true) fs) as Hin.
    { apply list_elem_of_filter. split; [|done]. by apply bool_decide_eq_true. }
    destruct (filter _ fs); [by apply elem_of_nil in Hin|]. by eexists.
Qed.

(** When no finding has a descriptor, a value, a path or a token named as
    a member of [Object.prototype], a pair has a bucket in the returned
    aggregate exactly when a finding has its descriptor and its value. *)
Theorem bucket_exists_iff fs d v :
  plainFindings normalize fs = true →
  is_Some (valueEntryOf (descriptorsOf fs) d v) ↔
  ∃ f, f ∈ fs ∧ f_descriptor f = d ∧ f_value f = v.
Proof. intros _. apply is_Some_bucket. Qed.

(** The count, the [isIgnored] flag and the per-file counts of every bucket
    do not depend on the order of the findings. *)
Theorem bucket_counts_order_independent fs fs' d v :
  fs ≡ₚ fs' →
  (λ ve, (ve_count ve, ve_isIgnored ve, ve_files ve))
    <$> valueEntryOf (descriptorsOf fs) d v
  = (λ ve, (ve_count ve, ve_isIgnored ve, ve_files ve))
    <$> valueEntryOf (descriptorsOf fs') d v.
Proof.
  intros Hperm.
  assert (pairFindings d v fs ≡ₚ pairFindings d v fs') as Hpair
    by (unfold pairFindings; by rewrite Hperm).
  assert (∀ o : option ValueEntry,
            (λ ve, (ve_count ve, ve_isIgnored ve, ve_files ve)) <$> o
            = (λ ve, (ve_count ve, ve_isIgnored ve, ve_files ve))
                <$> (eraseValueId <$> o)) as Herase by (by intros [?|]).
  rewrite (Herase (valueEntryOf (descriptorsOf fs) d v)),
          (Herase (valueEntryOf (descriptorsOf fs') d v)),
          !valueEntryOf_descriptorsOf.
  destruct (pairFindings d v fs) as [|f l] eqn:Hl,
           (pairFindings d v fs') as [|f' l'] eqn:Hl'.
  - done.
  - by apply Permutation_nil_cons in Hpair.
  - symmetry in Hpair. by apply Permutation_nil_cons in Hpair.
  - cbn [bucketOf fmap option_fmap option_map ve_count ve_isIgnored ve_files].
    do 2 f_equal; [f_equal|].
    + by rewrite Hpair.
    + by apply existsb_Permutation.
    + apply fileCounts_Permutation. by rewrite Hpair.
Qed.


Lemma is_Some_token fs tokenId :
  is_Some (tokensOf fs !! tokenId) ↔
  ∃ f tokenIds, f ∈ fs ∧ f_tokens f = Some tokenIds ∧ tokenId ∈ tokenIds.
Proof.
  cbn [tokenUsage byToken buildUsageAggregates]. rewrite lookup_run_tokens.
  assert (is_Some (tokenEntryOf (tokenOccurrences normalize tokenId fs)) ↔
          ∃ o, o ∈ tokenOccurrences normalize tokenId fs) as ->.
  { destruct (tokenOccurrences normalize tokenId fs) as [|o l]; simpl.
    - split; [by intros [? ?]|]. intros [o Ho]. by apply elem_of_nil in Ho.
    - split; [|by eauto]. intros _. exists o. by left. }
  unfold tokenOccurrences. setoid_rewrite list_elem_of_bind.
  setoid_rewrite list_elem_of_fmap. setoid_rewrite list_elem_of_filter. split.
  - intros (o & f & (t & -> & -> & Ht) & Hf).
    destruct (f_tokens f) as [tokenIds|] eqn:Htok; simpl in Ht;
      [|by apply elem_of_nil in Ht].
    by exists f, tokenIds.
  - intros (f & tokenIds & Hf & Htok & Ht).
    exists (normalize (f_path f), f_descriptor f), f. split; [|done].
    exists tokenId. rewrite Htok. done.
Qed.

(** When no finding has a descriptor, a value, a path or a token named as
    a member of [Object.prototype], a token has an entry in [byToken]
    exactly when it is in the [tokens] of a finding. *)
Theorem byToken_exists_iff fs tokenId :
  plainFindings normalize fs = true →
  is_Some (byToken (tokenUsage (buildUsageAggregates repoPath pathRelative
                                  generatedAt fs)) !! tokenId) ↔
  ∃ f tokenIds, f ∈ fs ∧ f_tokens f = Some tokenIds ∧ tokenId ∈ tokenIds.
Proof. intros _. apply is_Some_token. Qed.

(** The token usage does not depend on the order of the findings. *)
Theorem byToken_order_independent fs fs' :
  fs ≡ₚ fs' →
  byToken (tokenUsage (buildUsageAggregates repoPath pathRelative generatedAt fs))
  = byToken (tokenUsage (buildUsageAggregates repoPath pathRelative generatedAt fs')).
Proof.
  intros Hperm. cbn [tokenUsage byToken buildUsageAggregates].
  apply map_eq. intros t. rewrite !lookup_run_tokens.
  assert (tokenOccurrences normalize t fs ≡ₚ tokenOccurrences normalize t fs')
    as Hocc by (unfold tokenOccurrences; by rewrite Hperm).
  destruct (tokenOccurrences normalize t fs) as [|o l] eqn:Hl,
           (tokenOccurrences normalize t fs') as [|o' l'] eqn:Hl'.
  - done.
  - by apply Permutation_nil_cons in Hocc.
  - symmetry in Hocc. by apply Permutation_nil_cons in Hocc.
  - cbn [tokenEntryOf]. do 2 f_equal.
    + by rewrite Hocc.
    + apply fileCounts_Permutation. by rewrite Hocc.
    + apply fileCounts_Permutation. by rewrite Hocc.
Qed.

(** Every descriptor and every value of the aggregate has an ID, the IDs
    are the numbers below the number of keys, and two keys never share an
    ID. *)
Theorem ids_cover_and_distinct fs :
  (∀ k, k ∈ idOrder (descriptorsOf fs) →
        ∃ i, i < length (idOrder (descriptorsOf fs)) ∧
             idOf (descriptorsOf fs) k = Some (pretty i)) ∧
  (∀ k1 k2 id, idOf (descriptorsOf fs) k1 = Some id →
               idOf (descriptorsOf fs) k2 = Some id → k1 = k2).
Proof.
  cbn [descriptorValues byDescriptor buildUsageAggregates]. split.
  - intros k [i Hi]%list_elem_of_lookup. exists i. split.
    + by apply lookup_lt_Some in Hi.
    + rewrite idOrder_assignIds in Hi. by apply assignIds_spec.
  - intros k1 k2 id (i1 & Hi1 & ->)%idOf_assignIds_Some
                    (i2 & Hi2 & Heq)%idOf_assignIds_Some.
    apply (inj pretty) in Heq as ->. congruence.
Qed.

End ClosedForm.

(** ** The stages of [getPropagationData] *)

Section StageFacts.
Context {Sources Unresolved Origins Tracker Report : Type}.
Context {C : Collaborators Sources Unresolved Origins Tracker Report}.

Abbreviation Run := (@M Tracker).
Abbreviation St := (@RunState Tracker).

Ltac run :=
  unfold mbind, M_bind, mret, M_ret, catch, liftResult, consoleLog, pushFinding,
         updateTracker, getState, throw in *;
  simpl in *.

Lemma onlyLogs_refl (st : St) : onlyLogs st st.
Proof. split_and!; [|done..]. exists []. by rewrite app_nil_r. Qed.

Lemma onlyLogs_trans (st1 st2 st3 : St) :
  onlyLogs st1 st2 → onlyLogs st2 st3 → onlyLogs st1 st3.
Proof.
  intros ([l1 H1] & Hb1 & Ht1) ([l2 H2] & Hb2 & Ht2). split_and!; [|congruence..].
  exists (l1 ++ l2). by rewrite H2, H1, app_assoc.
Qed.

Lemma onlyLogs_line (st : St) line :
  onlyLogs st (mkRunState (console st ++ [line]) (usageFindingsBuffer st) (tracker st)).
Proof. split_and!; [|done..]. by exists [line]. Qed.

(** One visit: the declaration of the node is pushed, the scope gains at
    most the local definition the node makes, and only the console
    changes. *)
Lemma visitNode_spec filePath declarations fv node (st : St) rel :
  pathRelative repoPath filePath = Ok rel →
  ∃ st' fv',
    visitNode filePath (declarations, fv) node st
      = (st', Ok (declarations ++ option_list (declarationOf node), fv')) ∧
    (∀ name, fv' !! name = scopeAfter [node] fv name) ∧
    onlyLogs st st'.
Proof.
  intros Hrel. unfold visitNode, declarationOf, scopeAfter.
  assert (∀ name, fv !! name
                  = match fv !! name with
                    | Some existing => Some existing
                    | None => None
                    end) as Hsame by (intros name; by destruct (fv !! name)).
  destruct (present (n_prop node)) as [prop|] eqn:Hprop.
  2:{ exists st, fv. rewrite app_nil_r. split_and!; [done| |apply onlyLogs_refl].
      intros name. rewrite filter_cons, decide_False; [apply Hsame|].
      intros (Hp & _)%definesLocally_true. congruence. }
  destruct (present (n_value node)) as [value|] eqn:Hvalue.
  2:{ exists st, fv. rewrite app_nil_r. split_and!; [done| |apply onlyLogs_refl].
      intros name. rewrite filter_cons, decide_False; [apply Hsame|].
      intros (_ & [? Hv] & _)%definesLocally_true. congruence. }
  destruct (isTokenizableProperty prop) eqn:Htok.
  { exists st, fv. split_and!; [done| |apply onlyLogs_refl].
    intros name. rewrite filter_cons, decide_False; [apply Hsame|].
    intros (Hp & _ & Hnt & _)%definesLocally_true. congruence. }
  destruct (acceptsDefinition node prop) eqn:Hacc.
  2:{ exists st, fv. rewrite app_nil_r. split_and!; [done| |apply onlyLogs_refl].
      intros name. rewrite filter_cons, decide_False; [apply Hsame|].
      intros (Hp & _ & _ & Ha)%definesLocally_true. congruence. }
  assert (∀ name, definesLocally node name = true ↔ name = prop) as Hdef.
  { intros name. split.
    - intros (Hp & _)%definesLocally_true. congruence.
    - intros ->. unfold definesLocally.
      rewrite Hprop, Hvalue, Htok, Hacc.
      rewrite !bool_decide_eq_true_2; [done|by eexists|done]. }
  destruct (fv !! prop) as [existing|] eqn:Hfv.
  - run. rewrite Hrel. eexists _, fv. rewrite app_nil_r.
    split_and!; [done| |apply onlyLogs_line].
    intros name. destruct (fv !! name) eqn:Hname; [done|].
    rewrite filter_cons, decide_False; [done|].
    rewrite Hdef. intros ->. congruence.
  - exists st, (<[prop := getVarData node false]> fv). rewrite app_nil_r.
    split_and!; [done| |apply onlyLogs_refl].
    intros name. destruct (decide (name = prop)) as [->|Hne].
    + rewrite lookup_insert_eq, Hfv, filter_cons, decide_True; [done|].
      by apply Hdef.
    + rewrite lookup_insert_ne by done. destruct (fv !! name); [done|].
      rewrite filter_cons, decide_False; [done|]. by rewrite Hdef.
Qed.

Lemma scopeAfter_cons node nodes fv fv1 name :
  (∀ name, fv1 !! name = scopeAfter [node] fv name) →
  scopeAfter nodes fv1 name = scopeAfter (node :: nodes) fv name.
Proof.
  intros Hfv1. unfold scopeAfter at 1. rewrite Hfv1. unfold scopeAfter.
  destruct (fv !! name); [done|]. rewrite !filter_cons, filter_nil.
  by case_decide.
Qed.

Lemma walk_spec filePath nodes declarations fv (st : St) rel :
  pathRelative repoPath filePath = Ok rel →
  ∃ st' fv',
    walk filePath nodes (declarations, fv) st
      = (st', Ok (declarations ++ omap declarationOf nodes, fv')) ∧
    (∀ name, fv' !! name = scopeAfter nodes fv name) ∧
    onlyLogs st st'.
Proof.
  intros Hrel. revert declarations fv st.
  induction nodes as [|node nodes IH]; intros declarations fv st.
  { exists st, fv. rewrite app_nil_r. split_and!; [done| |apply onlyLogs_refl].
    intros name. unfold scopeAfter. by destruct (fv !! name). }
  cbn [walk]. rewrite bind_run.
  destruct (visitNode_spec filePath declarations fv node st rel Hrel)
    as (st1 & fv1 & -> & Hfv1 & Hlogs1).
  destruct (IH (declarations ++ option_list (declarationOf node)) fv1 st1)
    as (st2 & fv2 & -> & Hfv2 & Hlogs2).
  exists st2, fv2. split_and!.
  - do 3 f_equal. rewrite <-app_assoc. f_equal.
    cbn [omap list_omap]. by destruct (declarationOf node).
  - intros name. rewrite Hfv2. by apply scopeAfter_cons.
  - by eapply onlyLogs_trans.
Qed.

(** [collectDeclarations] returns one declaration for every node that has a
    tokenizable property and a value, in the order of the walk, whatever the
    scope is; it changes nothing of the state but the console. *)
Theorem collectDeclarations_declarations root fv filePath (st : St) rel :
  pathRelative repoPath filePath = Ok rel →
  ∃ st' fv',
    collectDeclarations root fv filePath st = (st', Ok (omap declarationOf root, fv')) ∧
    onlyLogs st st'.
Proof.
  intros Hrel.
  destruct (walk_spec filePath root [] fv st rel Hrel) as (st' & fv' & Hwalk & _ & Hlogs).
  by exists st', fv'.
Qed.

(** The scope that [collectDeclarations] leaves: the entries it was given
    are kept, a name that was not in scope is defined by the first node
    that defines it locally (a later definition of the name does not
    replace it), and a name that no node defines locally stays out of
    scope. *)
Theorem collectDeclarations_scope root fv filePath (st : St) rel :
  pathRelative repoPath filePath = Ok rel →
  ∃ st' declarations fv',
    collectDeclarations root fv filePath st = (st', Ok (declarations, fv')) ∧
    ∀ name, fv' !! name = scopeAfter root fv name.
Proof.
  intros Hrel.
  destruct (walk_spec filePath root [] fv st rel Hrel) as (st' & fv' & Hwalk & Hfv & _).
  by exists st', (omap declarationOf root), fv'.
Qed.

Lemma collectExternalFile_spec filePath fv rel (st : St) :
  ∃ st' fv',
    collectExternalFile filePath fv rel st = (st', Ok fv') ∧
    onlyLogs st st' ∧
    (∀ name d, fv' !! name = Some d →
               fv !! name = Some d ∨ importableFrom filePath [rel] name d) ∧
    (∀ vars name d,
       pathResolveJoin repoPath rel ≠ filePath →
       getExternalVars (pathResolveJoin repoPath rel) = Ok vars →
       vars !! name = Some d → fv' !! name = Some d).
Proof.
  unfold collectExternalFile. case_decide as Hself; run.
  { eexists _, fv. split_and!; [done|apply onlyLogs_line|by left|done]. }
  destruct (getExternalVars _) as [vars|e] eqn:Hread.
  - exists st, (vars ∪ fv). split_and!; [done|apply onlyLogs_refl| |].
    + intros name d [Hvars|[_ Hfv]]%lookup_union_Some_raw; [|by left].
      right. exists rel, vars. split_and!; [by left|done..].
    + intros vars' name d _ [= <-] Hname. by apply lookup_union_Some_l.
  - eexists _, (∅ ∪ fv). split_and!; [done|apply onlyLogs_line| |done].
    intros name d. rewrite (left_id_L ∅ (∪)). by left.
Qed.

Lemma collectExternalFiles_spec filePath fv rels (st : St) :
  ∃ st' fv',
    collectExternalFiles filePath fv rels st = (st', Ok fv') ∧
    onlyLogs st st' ∧
    (∀ name d, fv' !! name = Some d →
               fv !! name = Some d ∨ importableFrom filePath rels name d).
Proof.
  revert fv st. induction rels as [|rel rels IH]; intros fv st.
  { exists st, fv. split_and!; [done|apply onlyLogs_refl|by left]. }
  cbn [collectExternalFiles]. rewrite bind_run.
  destruct (collectExternalFile_spec filePath fv rel st)
    as (st1 & fv1 & -> & Hlogs1 & Hfrom1 & _).
  destruct (IH fv1 st1) as (st2 & fv2 & -> & Hlogs2 & Hfrom2).
  exists st2, fv2. split_and!; [done|by eapply onlyLogs_trans|].
  intros name d [[Hfv|Himp]%Hfrom1|Himp]%Hfrom2.
  - by left.
  - right. destruct Himp as (r & vars & ->%list_elem_of_singleton & ?).
    exists rel, vars. split; [by left|done].
  - right. destruct Himp as (r & vars & Hr & ?).
    exists r, vars. split; [by right|done].
Qed.

Lemma collectExternalPatterns_spec filePath fv mapping (st : St) :
  ∃ st' fv',
    collectExternalPatterns filePath fv mapping st = (st', Ok fv') ∧
    onlyLogs st st' ∧
    (∀ name d, fv' !! name = Some d →
               fv !! name = Some d ∨ importable filePath mapping name d).
Proof.
  revert fv st.
  induction mapping as [|[pattern rels] mapping IH]; intros fv st.
  { exists st, fv. split_and!; [done|apply onlyLogs_refl|by left]. }
  cbn [collectExternalPatterns]. rewrite bind_run.
  assert (∃ st1 fv1,
            (if minimatch filePath ("**/" +:+ pattern)
             then collectExternalFiles filePath fv rels
             else mret fv) st = (st1, Ok fv1) ∧
            onlyLogs st st1 ∧
            (∀ name d, fv1 !! name = Some d →
                       fv !! name = Some d ∨
                       importable filePath [(pattern, rels)] name d))
    as (st1 & fv1 & -> & Hlogs1 & Hfrom1).
  { destruct (minimatch filePath ("**/" +:+ pattern)) eqn:Hmatch.
    - destruct (collectExternalFiles_spec filePath fv rels st)
        as (st1 & fv1 & Hrun & Hlogs & Hfrom).
      exists st1, fv1. split_and!; [done..|].
      intros name d [?|Himp]%Hfrom; [by left|]. right.
      exists pattern, rels. split_and!; [by left|done..].
    - exists st, fv. split_and!; [done|apply onlyLogs_refl|by left]. }
  destruct (IH fv1 st1) as (st2 & fv2 & -> & Hlogs2 & Hfrom2).
  exists st2, fv2. split_and!; [done|by eapply onlyLogs_trans|].
  intros name d [[Hfv|Himp]%Hfrom1|Himp]%Hfrom2.
  - by left.
  - right. destruct Himp as (p & rs & [= -> ->]%list_elem_of_singleton & ?).
    exists pattern, rels. split; [by left|done].
  - right. destruct Himp as (p & rs & Hp & ?).
    exists p, rs. split; [by right|done].
Qed.

Lemma collectExternalFile_logs filePath fv rel (st : St) :
  ∃ st' fv' lines,
    collectExternalFile filePath fv rel st = (st', Ok fv') ∧
    console st' = console st ++ lines ∧
    ∀ line, line ∈ lines ↔ skippedLine filePath rel line.
Proof.
  unfold collectExternalFile, skippedLine. case_decide as Hself; run.
  { eexists _, fv, [_]. split_and!; [done..|].
    intros line. rewrite list_elem_of_singleton. naive_solver. }
  destruct (getExternalVars _) as [vars|e] eqn:Hread.
  - exists st, (vars ∪ fv), []. split_and!; [done|by rewrite app_nil_r|].
    intros line. rewrite elem_of_nil. naive_solver.
  - eexists _, (∅ ∪ fv), [_]. split_and!; [done..|].
    intros line. rewrite list_elem_of_singleton. naive_solver.
Qed.

Lemma collectExternalFiles_logs filePath fv rels (st : St) :
  ∃ st' fv' lines,
    collectExternalFiles filePath fv rels st = (st', Ok fv') ∧
    console st' = console st ++ lines ∧
    ∀ line, line ∈ lines ↔ ∃ rel, rel ∈ rels ∧ skippedLine filePath rel line.
Proof.
  revert fv st. induction rels as [|rel rels IH]; intros fv st.
  { exists st, fv, []. split_and!; [done|by rewrite app_nil_r|].
    intros line. rewrite elem_of_nil. split; [done|].
    intros (rel & Hrel & _). by apply elem_of_nil in Hrel. }
  cbn [collectExternalFiles]. rewrite bind_run.
  destruct (collectExternalFile_logs filePath fv rel st)
    as (st1 & fv1 & lines1 & -> & Hconsole1 & Hlines1).
  destruct (IH fv1 st1) as (st2 & fv2 & lines2 & -> & Hconsole2 & Hlines2).
  exists st2, fv2, (lines1 ++ lines2). split_and!; [done| |].
  - by rewrite Hconsole2, Hconsole1, app_assoc.
  - intros line. rewrite elem_of_app, Hlines1, Hlines2.
    setoid_rewrite elem_of_cons. naive_solver.
Qed.

Lemma collectExternalPatterns_logs filePath fv mapping (st : St) :
  ∃ st' fv' lines,
    collectExternalPatterns filePath fv mapping st = (st', Ok fv') ∧
    console st' = console st ++ lines ∧
    ∀ line, line ∈ lines ↔
            ∃ rel, listedFor filePath mapping rel ∧ skippedLine filePath rel line.
Proof.
  revert fv st.
  induction mapping as [|[pattern rels] mapping IH]; intros fv st.
  { exists st, fv, []. split_and!; [done|by rewrite app_nil_r|].
    intros line. rewrite elem_of_nil. split; [done|].
    intros (rel & (p & rs & Hp & _) & _). by apply elem_of_nil in Hp. }
  cbn [collectExternalPatterns]. rewrite bind_run.
  assert (∃ st1 fv1 lines1,
            (if minimatch filePath ("**/" +:+ pattern)
             then collectExternalFiles filePath fv rels
             else mret fv) st = (st1, Ok fv1) ∧
            console st1 = console st ++ lines1 ∧
            ∀ line, line ∈ lines1 ↔
                    ∃ rel, listedFor filePath [(pattern, rels)] rel ∧
                           skippedLine filePath rel line)
    as (st1 & fv1 & lines1 & -> & Hconsole1 & Hlines1).
  { destruct (minimatch filePath ("**/" +:+ pattern)) eqn:Hmatch.
    - destruct (collectExternalFiles_logs filePath fv rels st)
        as (st1 & fv1 & lines1 & Hrun & Hconsole & Hlines).
      exists st1, fv1, lines1. split_and!; [done..|].
      intros line. rewrite Hlines. split.
      + intros (rel & Hrel & Hline). exists rel. split; [|done].
        exists pattern, rels. split_and!; [by left|done..].
      + intros (rel & (p & rs & [= -> ->]%list_elem_of_singleton & _ & Hrel) & Hline).
        by exists rel.
    - exists st, fv, []. split_and!; [done|by rewrite app_nil_r|].
      intros line. rewrite elem_of_nil. split; [done|].
      intros (rel & (p & rs & [= -> ->]%list_elem_of_singleton & Hm & _) & _).
      congruence. }
  destruct (IH fv1 st1) as (st2 & fv2 & lines2 & -> & Hconsole2 & Hlines2).
  exists st2, fv2, (lines1 ++ lines2). split_and!; [done| |].
  - by rewrite Hconsole2, Hconsole1, app_assoc.
  - intros line. rewrite elem_of_app, Hlines1, Hlines2. split.
    + intros [(rel & (p & rs & [= -> ->]%list_elem_of_singleton & Hm & Hrel) & Hline)
             |(rel & (p & rs & Hp & Hm & Hrel) & Hline)].
      * exists rel. split; [|done]. exists pattern, rels. split; [by left|done].
      * exists rel. split; [|done]. exists p, rs. split; [by right|done].
    + intros (rel & (p & rs & [[= -> ->]|Hp]%elem_of_cons & Hm & Hrel) & Hline).
      * left. exists rel. split; [|done]. exists pattern, rels.
        split; [by left|done].
      * right. exists rel. split; [|done]. by exists p, rs.
Qed.

(** [collectExternalVars] never throws, whatever the reads of the external
    files do. It touches nothing but the console, where it leaves exactly
    one line for every listed file that it skips: the analysed file itself,
    and every file that cannot be read, with the message of the failure.
    Every variable it returns is defined by a readable external file, other
    than the analysed file itself, that is listed under a pattern matching
    the analysed file. *)
Theorem collectExternalVars_sound filePath (st : St) :
  ∃ st' fv lines,
    collectExternalVars filePath st = (st', Ok fv) ∧
    console st' = console st ++ lines ∧
    usageFindingsBuffer st' = usageFindingsBuffer st ∧
    tracker st' = tracker st ∧
    (∀ line, line ∈ lines ↔
             ∃ externalRelPath,
               listedFor filePath externalVarMapping externalRelPath ∧
               skippedLine filePath externalRelPath line) ∧
    ∀ name d, fv !! name = Some d → importable filePath externalVarMapping name d.
Proof.
  destruct (collectExternalPatterns_spec filePath ∅ externalVarMapping st)
    as (st' & fv & Hrun & (_ & Hbuffer & Htracker) & Hfrom).
  destruct (collectExternalPatterns_logs filePath ∅ externalVarMapping st)
    as (st'' & fv' & lines & Hrun' & Hconsole & Hlines).
  rewrite Hrun in Hrun'. injection Hrun' as <- <-.
  exists st', fv, lines. split_and!; [done..|].
  intros name d [Hempty|Himp]%Hfrom; [|done]. by rewrite lookup_empty in Hempty.
Qed.

Lemma collectExternalFiles_app filePath fv rels1 rels2 (st : St) :
  collectExternalFiles filePath fv (rels1 ++ rels2) st
  = match collectExternalFiles filePath fv rels1 st with
    | (st1, Ok fv1) => collectExternalFiles filePath fv1 rels2 st1
    | (st1, Throw e) => (st1, Throw e)
    end.
Proof.
  revert fv st. induction rels1 as [|rel rels1 IH]; intros fv st; [done|].
  cbn [app collectExternalFiles]. rewrite !bind_run.
  destruct (collectExternalFile filePath fv rel st) as [st1 [fv1|e]]; [|done].
  apply IH.
Qed.

(** Among the external files of a pattern the last one listed wins: a
    definition of the last file, when that file is readable and is not the
    analysed file, is the one in the result, whatever the files before it
    define. *)
Theorem collectExternalFiles_last_wins filePath fv rels rel vars name d (st : St) :
  pathResolveJoin repoPath rel ≠ filePath →
  getExternalVars (pathResolveJoin repoPath rel) = Ok vars →
  vars !! name = Some d →
  ∃ st' fv',
    collectExternalFiles filePath fv (rels ++ [rel]) st = (st', Ok fv') ∧
    fv' !! name = Some d.
Proof.
  intros Hself Hread Hname. rewrite collectExternalFiles_app.
  destruct (collectExternalFiles_spec filePath fv rels st) as (st1 & fv1 & -> & _).
  cbn [collectExternalFiles]. rewrite bind_run.
  destruct (collectExternalFile_spec filePath fv1 rel st1)
    as (st2 & fv2 & -> & _ & _ & Hwins).
  exists st2, fv2. split; [done|]. by eapply Hwins.
Qed.

(** [resolveDeclarationReferences]: the state after the loop, and the
    outcome, which is the outcome of writing the reports of the whole
    buffer. *)
Lemma resolveDeclarationReferences_run declarations fv filePath (st : St) :
  ∃ tracker',
    let buffer :=
      usageFindingsBuffer st ++ ((λ d, findingFor d fv filePath) <$> declarations) in
    let aggregates := buildUsageAggregates repoPath pathRelative generatedAt buffer in
    resolveDeclarationReferences declarations fv filePath st
    = (mkRunState (console st) buffer tracker',
       match writeReports (toReport tracker') (tokenUsage aggregates)
                          (descriptorValues aggregates) with
       | Ok _ => Ok ((λ d, resolvedOf d fv filePath) <$> declarations)
       | Throw e => Throw e
       end).
Proof.
  destruct (resolveDeclarations_run fv filePath declarations st) as [tracker' Hloop].
  exists tracker'. unfold resolveDeclarationReferences. rewrite bind_run, Hloop.
  run. by destruct (writeReports _ _ _).
Qed.

(** A file that is parsed, and whose reports are written, gives a summary,
    when the findings of the run, those of the file included, name no
    member of [Object.prototype] (so that [buildUsageAggregates] goes
    through): [foundPropValues] holds the tokenizable declarations of the
    tree in the order of the walk, [foundProps] is their number, and the
    findings buffer of the run has grown by one finding for each of them,
    after the findings of the files analysed before. *)
Theorem getPropagationData_success filePath root rel (st : St) :
  parseCSS filePath = Ok root →
  pathRelative repoPath filePath = Ok rel →
  (∀ report tokens descriptors, writeReports report tokens descriptors = Ok tt) →
  plainFindings (normalizedPath repoPath pathRelative)
                (usageFindingsBuffer (getPropagationData filePath st).1) = true →
  ∃ st' summary,
    getPropagationData filePath st = (st', Ok summary) ∧
    foundProps summary = length (omap declarationOf root) ∧
    foundPropValues summary
      = (λ d, resolvedOf d (foundVariables summary) filePath) <$> omap declarationOf root ∧
    usageFindingsBuffer st'
      = usageFindingsBuffer st ++
        ((λ d, findingFor d (foundVariables summary) filePath)
           <$> omap declarationOf root).
Proof.
  intros Hparse Hrel Hwrite _. unfold getPropagationData. run.
  destruct (collectExternalPatterns_spec filePath ∅ externalVarMapping st)
    as (st1 & fv0 & Hext & (_ & Hbuffer & _) & _).
  change (collectExternalPatterns filePath ∅ externalVarMapping st)
    with (collectExternalVars filePath st) in Hext.
  rewrite Hext, Hparse.
  destruct (walk_spec filePath root [] fv0 st1 rel Hrel)
    as (st2 & fv & Hwalk & _ & (_ & Hbuffer2 & _)).
  change (walk filePath root ([], fv0) st1)
    with (collectDeclarations root fv0 filePath st1) in Hwalk.
  cbn [app] in Hwalk. rewrite Hwalk. cbn beta iota.
  destruct (resolveDeclarationReferences_run (omap declarationOf root) fv filePath st2)
    as [tracker' Hresolve].
  cbv zeta in Hresolve. rewrite Hwrite in Hresolve. rewrite Hresolve.
  eexists _, _. split; [reflexivity|]. cbn [foundProps foundPropValues foundVariables
                                             usageFindingsBuffer].
  rewrite length_fmap, Hbuffer2, Hbuffer. done.
Qed.

(** When the reports cannot be written, [getPropagationData] throws the
    error of the write, wrapped, with the line "Unable to read or parse" on
    the console, and the findings of the file stay in the buffer of the
    run. The findings of the run name no member of [Object.prototype], so
    that [buildUsageAggregates] goes through and the write is reached. *)
Theorem getPropagationData_write_failure filePath root rel err (st : St) :
  parseCSS filePath = Ok root →
  pathRelative repoPath filePath = Ok rel →
  (∀ report tokens descriptors, writeReports report tokens descriptors = Throw err) →
  plainFindings (normalizedPath repoPath pathRelative)
                (usageFindingsBuffer (getPropagationData filePath st).1) = true →
  ∃ st',
    getPropagationData filePath st = (st', Throw (newError err)) ∧
    last (console st')
      = Some ("Unable to read or parse " +:+ filePath +:+ " " +:+ err_message err) ∧
    length (usageFindingsBuffer st')
      = length (usageFindingsBuffer st) + length (omap declarationOf root).
Proof.
  intros Hparse Hrel Hwrite _. unfold getPropagationData. run.
  destruct (collectExternalPatterns_spec filePath ∅ externalVarMapping st)
    as (st1 & fv0 & Hext & (_ & Hbuffer & _) & _).
  change (collectExternalPatterns filePath ∅ externalVarMapping st)
    with (collectExternalVars filePath st) in Hext.
  rewrite Hext, Hparse.
  destruct (walk_spec filePath root [] fv0 st1 rel Hrel)
    as (st2 & fv & Hwalk & _ & (_ & Hbuffer2 & _)).
  change (walk filePath root ([], fv0) st1)
    with (collectDeclarations root fv0 filePath st1) in Hwalk.
  cbn [app] in Hwalk. rewrite Hwalk. cbn beta iota.
  destruct (resolveDeclarationReferences_run (omap declarationOf root) fv filePath st2)
    as [tracker' Hresolve].
  cbv zeta in Hresolve. rewrite Hwrite in Hresolve. rewrite Hresolve.
  eexists. split; [reflexivity|]. cbn [console usageFindingsBuffer]. split.
  - apply last_snoc.
  - rewrite length_app, length_fmap, Hbuffer2, Hbuffer. done.
Qed.

(** The percentage of a summary is the sentinel -1 or lies between 0 and
    100: the declarations that hold a token are among the eligible ones. *)
Theorem getPropagationData_percentage_range filePath (st st' : St) summary :
  getPropagationData filePath st = (st', Ok summary) →
  designTokenCount summary + ignoredOf summary ≤ foundProps summary ∧
  (percentage summary = (-1)%Q ∨
   (0 <= percentage summary)%Q ∧ (percentage summary <= 100)%Q).
Proof.
  intros Hrun. pose proof (getPropagationData_counts _ _ _ _ Hrun) as Hle.
  destruct (getPropagationData_summary _ _ _ _ Hrun) as (_ & Hfound & Hpct).
  split; [by rewrite Hfound|].
  rewrite Hpct, computePercentage_spec by lia.
  destruct (decide _) as [|Hnz]; [by left|]. right.
  destruct (doublePercent_range (Z.of_nat (designTokenCount summary))
              (Z.of_nat (length (foundPropValues summary) - ignoredOf summary)))
    as [Hlo Hhi]; [lia|lia|].
  split; [by apply toFixed2_nonneg|by apply toFixed2_le_100].
Qed.

End StageFacts.


(** ** The list of non-token values *)

Section PatternFacts.
Import NonTokenValues.

Lemma asteriskCount_app s t :
  asteriskCount (s +:+ t) = asteriskCount s + asteriskCount t.
Proof. induction s as [|c s IH]; simpl; [done|]. rewrite IH. lia. Qed.

Lemma utf16Length_app s t :
  utf16Length (s +:+ t) = utf16Length s + utf16Length t.
Proof. induction s as [|c s IH]; simpl; [done|]. rewrite IH. lia. Qed.

Lemma string_length_app s t :
  String.length (s +:+ t) = String.length s + String.length t.
Proof. induction s as [|c s IH]; simpl; [done|]. by rewrite IH. Qed.

Lemma dropLast_snoc s c : dropLast (s +:+ String c EmptyString) = s.
Proof.
  induction s as [|a s IH]; [done|].
  change (dropLast (String a (s +:+ String c EmptyString)) = String a s).
  simpl. rewrite IH. by destruct s.
Qed.

Lemma endsWithAsterisk_snoc s c :
  endsWithAsterisk (s +:+ String c EmptyString) = bool_decide (c = asterisk).
Proof.
  induction s as [|a s IH]; [done|].
  change (endsWithAsterisk (String a (s +:+ String c EmptyString))
          = bool_decide (c = asterisk)).
  simpl. rewrite IH. by destruct s.
Qed.

Lemma endsWithAsterisk_dropLast s :
  endsWithAsterisk s = true → s = dropLast s +:+ "*".
Proof.
  induction s as [|a s IH]; [done|]. destruct s as [|b s].
  - simpl. by intros ->%bool_decide_eq_true.
  - intros Hs.
    change (String a (String b s) = String a (dropLast (String b s) +:+ "*")).
    f_equal. by apply IH.
Qed.

Lemma includes_asterisk s : includes "*" s = negb (asteriskCount s =? 0).
Proof.
  induction s as [|c s IH]; [done|].
  change (includes "*" (String c s))
    with (startsWith "*" (String c s) || includes "*" s).
  rewrite IH. simpl. unfold asterisk.
  destruct (decide ("*"%char = c)) as [<-|Hc]; [done|].
  destruct (decide (c = "*"%char)) as [->|]; [done|]. done.
Qed.

#[local] Abbreviation chars := String.list_ascii_of_string.

Lemma chars_app s t : chars (s +:+ t) = chars s ++ chars t.
Proof. induction s as [|a s IH]; simpl; [done|]. by rewrite IH. Qed.

Lemma startsWith_dropBytes w s :
  startsWith w s = true → s = w +:+ dropBytes (String.length w) s.
Proof.
  revert s. induction w as [|a w IH]; intros [|b s]; simpl; try done.
  destruct (decide (a = b)) as [->|]; [|done]. intros Hw.
  change (String b s = String b (w +:+ dropBytes (String.length w) s)).
  f_equal. by apply IH.
Qed.

(** What is used of the white space characters beyond ASCII. *)
Lemma unicodeSpaces_facts :
  Forall (λ w, (∀ rest, stripSpace (w +:+ rest) = Some rest) ∧
               asteriskCount w = 0 ∧ utf16Length w = 1 ∧
               1 ≤ String.length w ∧
               Forall (λ c, 128 ≤ nat_of_ascii c) (chars w))
         unicodeSpaces.
Proof.
  unfold unicodeSpaces.
  repeat (apply Forall_cons; split;
          [split; [intros rest; reflexivity|];
           split; [reflexivity|]; split; [reflexivity|];
           split; [vm_compute; lia|];
           vm_compute; repeat constructor|]).
  apply Forall_nil_2.
Qed.

Lemma unicodeSpaces_fact w :
  w ∈ unicodeSpaces →
  (∀ rest, stripSpace (w +:+ rest) = Some rest) ∧
  asteriskCount w = 0 ∧ utf16Length w = 1 ∧ 1 ≤ String.length w ∧
  Forall (λ c, 128 ≤ nat_of_ascii c) (chars w).
Proof.
  pose proof unicodeSpaces_facts as Hall. rewrite Forall_forall in Hall. apply Hall.
Qed.

Lemma allowedChar_asterisk c : allowedChar c = true → c ≠ asterisk.
Proof. intros Hc ->. done. Qed.

Lemma allowedChar_ascii c : 128 ≤ nat_of_ascii c → allowedChar c = false.
Proof.
  intros Hc. unfold allowedChar, isSpace.
  assert (∀ d : ascii, d ∈ ["."; ","; "_"; "%"; "#"; "("; ")"; "/"; "+"; "-"]%char →
                       nat_of_ascii d < 128) as Hsmall.
  { intros d Hd. repeat (apply elem_of_cons in Hd as [->|Hd]; [vm_compute; lia|]).
    by apply elem_of_nil in Hd. }
  rewrite bool_decide_eq_false_2.
  - repeat match goal with
           | |- context [(?a <=? ?b)] => destruct (Nat.leb_spec a b); try lia
           | |- context [(?a =? ?b)] => destruct (Nat.eqb_spec a b); try lia
           end; done.
  - intros Hd%Hsmall. lia.
Qed.

(** [stripSpace] removes one white space character. *)
Lemma stripSpace_Some s rest :
  stripSpace s = Some rest →
  ∃ w, s = w +:+ rest ∧
       ((∃ c, w = String c EmptyString ∧ isSpace c = true) ∨ w ∈ unicodeSpaces).
Proof.
  destruct s as [|c s]; [done|]. unfold stripSpace.
  destruct (isSpace c) eqn:Hc.
  - intros [= <-]. exists (String c EmptyString). split; [done|]. left. by exists c.
  - destruct (head _) as [w|] eqn:Hhead; [|done]. intros [= <-].
    apply head_Some_elem_of, list_elem_of_filter in Hhead as [Hstarts Hw].
    exists w. split; [by apply startsWith_dropBytes|by right].
Qed.

Lemma string_length_stripSpace s rest :
  stripSpace s = Some rest → String.length rest < String.length s.
Proof.
  intros (w & -> & Hw)%stripSpace_Some. rewrite string_length_app.
  destruct Hw as [(c & -> & _)|Hw%unicodeSpaces_fact]; [simpl; lia|].
  destruct Hw as (_ & _ & _ & Hlen & _). lia.
Qed.

(** [allowedBase] accepts the strings made of allowed characters. *)
Lemma allowedFrom_allowedText steps s :
  allowedFrom steps s = true → allowedText s.
Proof.
  revert s. induction steps as [|steps IH]; intros [|c s]; cbn [allowedFrom];
    try done; try (by intros _; exists []).
  destruct (allowedChar c) eqn:Hc.
  - intros (units & Hunits & ->)%IH. exists (String c EmptyString :: units).
    split; [|reflexivity]. constructor; [|done]. left. by exists c.
  - destruct (stripSpace (String c s)) as [rest|] eqn:Hstrip; [|done].
    intros (units & Hunits & ->)%IH.
    apply stripSpace_Some in Hstrip as (w & Hw & [(c' & -> & Hc')|Hin]).
    + injection Hw as -> _. unfold allowedChar in Hc. rewrite Hc' in Hc.
      by rewrite orb_true_r in Hc.
    + exists (w :: units). split; [|exact Hw]. constructor; [by right|done].
Qed.

Lemma allowedText_allowedFrom units steps :
  Forall allowedUnit units →
  String.length (joinUnits units) ≤ steps →
  allowedFrom steps (joinUnits units) = true.
Proof.
  intros Hunits. revert steps.
  induction Hunits as [|u units Hu Hunits IH]; intros steps Hsteps.
  { by destruct steps. }
  cbn [joinUnits foldr] in *. fold (joinUnits units) in *.
  rewrite string_length_app in Hsteps.
  destruct Hu as [(c & -> & Hc)|Hw].
  - destruct steps as [|steps]; [simpl in Hsteps; lia|].
    change (String c EmptyString +:+ joinUnits units)
      with (String c (joinUnits units)).
    cbn [allowedFrom]. rewrite Hc. apply IH. simpl in Hsteps. lia.
  - destruct (unicodeSpaces_fact u Hw) as (Hstrip & _ & _ & Hlen & Hbytes).
    destruct u as [|c u]; [simpl in Hlen; lia|].
    destruct steps as [|steps]; [simpl in Hsteps; lia|].
    change (String c u +:+ joinUnits units) with (String c (u +:+ joinUnits units)).
    cbn [allowedFrom].
    rewrite allowedChar_ascii by (by apply Forall_cons in Hbytes as [? _]).
    change (String c (u +:+ joinUnits units)) with (String c u +:+ joinUnits units).
    rewrite Hstrip. apply IH. simpl in Hsteps. lia.
Qed.

Lemma allowedBase_allowedText s : allowedBase s = true ↔ allowedText s.
Proof.
  split; [apply allowedFrom_allowedText|].
  intros (units & Hunits & ->). by apply allowedText_allowedFrom.
Qed.

Lemma allowedText_asteriskCount s : allowedText s → asteriskCount s = 0.
Proof.
  intros (units & Hunits & ->).
  induction Hunits as [|u units Hu Hunits IH]; [done|].
  cbn [joinUnits foldr]. fold (joinUnits units). rewrite asteriskCount_app, IH.
  destruct Hu as [(c & -> & Hc%allowedChar_asterisk)|Hw%unicodeSpaces_fact].
  - simpl. by rewrite decide_False.
  - destruct Hw as (_ & -> & _). done.
Qed.

Lemma allowedText_utf16Length s :
  allowedText s → s ≠ EmptyString → 1 ≤ utf16Length s.
Proof.
  intros (units & Hunits & ->) Hne.
  destruct Hunits as [|u units Hu Hunits]; [done|].
  cbn [joinUnits foldr]. fold (joinUnits units). rewrite utf16Length_app.
  destruct Hu as [(c & -> & Hc)|Hw%unicodeSpaces_fact].
  - cbn [utf16Length].
    destruct ((128 <=? nat_of_ascii c) && (nat_of_ascii c <=? 191)) eqn:Hcont;
      [|destruct (240 <=? nat_of_ascii c); lia].
    apply andb_true_iff in Hcont as [Hbig%Nat.leb_le _].
    by rewrite allowedChar_ascii in Hc.
  - destruct Hw as (_ & _ & -> & _). lia.
Qed.

Lemma allowedText_chars s c :
  allowedText s → c ∈ chars s → nat_of_ascii c < 128 → allowedChar c = true.
Proof.
  intros (units & Hunits & ->) Hin Hsmall.
  induction Hunits as [|u units Hu Hunits IH]; [by apply elem_of_nil in Hin|].
  cbn [joinUnits foldr] in Hin. fold (joinUnits units) in Hin.
  rewrite chars_app in Hin. apply elem_of_app in Hin as [Hin|Hin]; [|by apply IH].
  destruct Hu as [(c' & -> & Hc')|Hw%unicodeSpaces_fact].
  - apply list_elem_of_singleton in Hin. by subst.
  - destruct Hw as (_ & _ & _ & _ & Hbytes). rewrite Forall_forall in Hbytes.
    apply Hbytes in Hin. lia.
Qed.

Lemma validatePattern_shape p :
  ok (validatePattern p) = true →
  1 ≤ utf16Length (trim p) ≤ MAX_LEN ∧
  (trim p = "*" ∨
   allowedText (trim p) ∨
   ∃ base, trim p = base +:+ "*" ∧ base ≠ EmptyString ∧ allowedText base).
Proof.
  unfold validatePattern. set (q := trim p). clearbody q.
  destruct (Nat.eqb_spec (utf16Length q) 0) as [|Hlen]; [done|].
  destruct (Nat.ltb_spec MAX_LEN (utf16Length q)) as [|Hmax]; [done|].
  intros Hok. split; [lia|]. revert Hok.
  destruct (decide (q = "*")) as [|Hstar]; [by left|]. intros Hok. right.
  revert Hok.
  destruct (Nat.ltb_spec 1 (asteriskCount q)) as [|Hcount]; [done|].
  destruct (Nat.eqb_spec (asteriskCount q) 1) as [Hone|Hnone]; simpl.
  - destruct (endsWithAsterisk q) eqn:Hend; [simpl|done].
    destruct (Nat.eqb_spec (utf16Length (dropLast q)) 0) as [|Hbase]; [done|].
    destruct (allowedBase (dropLast q)) eqn:Hallowed; [intros _|done].
    right. exists (dropLast q). split; [by apply endsWithAsterisk_dropLast|].
    split; [|by apply allowedBase_allowedText].
    intros Hempty. by rewrite Hempty in Hbase.
  - destruct (allowedBase q) eqn:Hallowed; [|done].
    intros _. left. by apply allowedBase_allowedText.
Qed.

(** [validatePattern] accepts exactly the patterns that, once trimmed, have
    between 1 and 64 UTF-16 code units and are the lone wildcard, or are
    made of allowed characters only, or are a non-empty run of allowed
    characters followed by one wildcard. An allowed character is a letter
    of ASCII, a digit, one of [. , _ % # ( ) / + -], or a white space
    character. *)
Theorem validatePattern_accepts p :
  ok (validatePattern p) = true ↔
  1 ≤ utf16Length (trim p) ≤ MAX_LEN ∧
  (trim p = "*" ∨
   allowedText (trim p) ∨
   ∃ base, trim p = base +:+ "*" ∧ base ≠ EmptyString ∧ allowedText base).
Proof.
  split; [apply validatePattern_shape|].
  unfold validatePattern. set (q := trim p). clearbody q.
  intros [[Hlen Hmax] Hshape].
  destruct (Nat.eqb_spec (utf16Length q) 0) as [|_]; [lia|].
  destruct (Nat.ltb_spec MAX_LEN (utf16Length q)) as [|_]; [lia|].
  destruct (decide (q = "*")) as [|Hstar]; [done|].
  destruct Hshape as [?|[Hallowed|(base & -> & Hbase & Hallowed)]]; [done| |].
  - rewrite (allowedText_asteriskCount _ Hallowed). simpl.
    by rewrite (proj2 (allowedBase_allowedText q) Hallowed).
  - rewrite asteriskCount_app, (allowedText_asteriskCount _ Hallowed). simpl.
    rewrite (endsWithAsterisk_snoc base), (dropLast_snoc base). simpl.
    rewrite (proj2 (allowedBase_allowedText base) Hallowed).
    pose proof (allowedText_utf16Length base Hallowed Hbase).
    destruct (Nat.eqb_spec (utf16Length base) 0); [lia|done].
Qed.

(** A pattern that, once trimmed, holds an ASCII character outside the
    allowed class and other than the wildcard (a quote, an angle bracket, an
    equals sign, ...) is rejected. *)
Theorem validatePattern_rejects_disallowed p c :
  c ∈ chars (trim p) → nat_of_ascii c < 128 →
  allowedChar c = false → c ≠ asterisk →
  ok (validatePattern p) = false.
Proof.
  intros Hin Hascii Hc Hstar. apply not_true_iff_false.
  intros [_ Hshape]%validatePattern_shape.
  assert (allowedChar c = true); [|congruence].
  destruct Hshape as [Heq|[Hallowed|(base & Heq & _ & Hallowed)]].
  - rewrite Heq in Hin. apply list_elem_of_singleton in Hin. done.
  - by apply (allowedText_chars (trim p)).
  - rewrite Heq, chars_app in Hin. apply elem_of_app in Hin as [Hin|Hin].
    + by apply (allowedText_chars base).
    + apply list_elem_of_singleton in Hin. done.
Qed.

(** A pattern that ends with the wildcard matches exactly the
    descriptors that start with what comes before it. *)
Theorem matchesDescriptorPattern_wildcard descriptor base :
  matchesDescriptorPattern descriptor (base +:+ "*") = startsWith base descriptor.
Proof.
  unfold matchesDescriptorPattern.
  destruct (decide (base +:+ "*" = "*")) as [Heq|_].
  - destruct base as [|a [|b base]]; [done| |]; discriminate Heq.
  - rewrite includes_asterisk, asteriskCount_app, (dropLast_snoc base).
    simpl. by rewrite Nat.add_1_r.
Qed.

(** A pattern without a wildcard matches the descriptor equal to
    it and no other. *)
Theorem matchesDescriptorPattern_exact descriptor p :
  includes "*" p = false →
  matchesDescriptorPattern descriptor p = true ↔ descriptor = p.
Proof.
  intros Hinc. unfold matchesDescriptorPattern.
  destruct (decide (p = "*")) as [->|_]; [done|].
  rewrite Hinc. simpl. apply bool_decide_eq_true.
Qed.

(** Whatever the query string holds, the pattern read from it is one
    that [validatePattern] accepts. *)
Theorem readControlsFromURL_pattern_valid get :
  ok (validatePattern (pattern (readControlsFromURL get))) = true.
Proof.
  unfold readControlsFromURL. simpl.
  set (p := match get "pattern" with
            | Some p => if decide (p = EmptyString) then "*" else p
            | None => "*"
            end).
  destruct (ok (validatePattern p)) eqn:Hok; simpl; [done|]. by vm_compute.
Qed.

End PatternFacts.

Section RowsFacts.
Import NonTokenValues.
Variable localeCompare : string → string → Z.

#[local] Abbreviation sorted := (sortRows localeCompare).
#[local] Abbreviation byCount := (λ a b : Row, row_count b ≤ row_count a).
#[local] Abbreviation key := (λ a : Row, row_descriptor a +:+ ":" +:+ row_value a).
#[local] Abbreviation inOrder :=
  (λ a b : Row, (compareRows localeCompare a b ≤ 0)%Z).

Lemma insertRow_Permutation x l : insertRow localeCompare x l ≡ₚ x :: l.
Proof.
  induction l as [|y l IH]; simpl; [done|].
  destruct (_ <=? _)%Z; [done|]. by rewrite IH, Permutation_swap.
Qed.

Lemma sortRows_Permutation l : sorted l ≡ₚ l.
Proof.
  induction l as [|x l IH]; simpl; [done|].
  by rewrite insertRow_Permutation, IH.
Qed.

Lemma compareRows_byCount a b : inOrder a b → byCount a b.
Proof.
  unfold compareRows. destruct (Nat.eqb_spec (row_count b) (row_count a)); simpl; lia.
Qed.

Lemma compareRows_byCount_flip a b : ¬ inOrder a b → byCount b a.
Proof.
  unfold compareRows. destruct (Nat.eqb_spec (row_count b) (row_count a)); simpl; lia.
Qed.

Lemma insertRow_byCount x l :
  StronglySorted byCount l → StronglySorted byCount (insertRow localeCompare x l).
Proof.
  induction 1 as [|y l Hsorted IH Hall]; simpl; [by repeat constructor|].
  destruct (Z.leb_spec (compareRows localeCompare x y) 0) as [Hle|Hgt].
  - apply compareRows_byCount in Hle. constructor; [by constructor|].
    constructor; [done|]. eapply Forall_impl; [exact Hall|]. simpl. lia.
  - constructor; [done|]. rewrite insertRow_Permutation. constructor; [|done].
    apply compareRows_byCount_flip. lia.
Qed.

Lemma sortRows_byCount l : StronglySorted byCount (sorted l).
Proof.
  induction l as [|x l IH]; simpl; [constructor|]. by apply insertRow_byCount.
Qed.

Lemma insertRow_inOrder x l :
  (∀ a b, inOrder a b ∨ inOrder b a) →
  (∀ a b c, inOrder a b → inOrder b c → inOrder a c) →
  StronglySorted inOrder l → StronglySorted inOrder (insertRow localeCompare x l).
Proof.
  intros Htotal Htrans.
  induction 1 as [|y l Hsorted IH Hall]; simpl; [by repeat constructor|].
  destruct (Z.leb_spec (compareRows localeCompare x y) 0) as [Hle|Hgt].
  - constructor; [by constructor|]. constructor; [done|].
    eapply Forall_impl; [exact Hall|]. simpl. intros b Hb. by eapply Htrans.
  - constructor; [done|]. rewrite insertRow_Permutation. constructor; [|done].
    destruct (Htotal x y); [lia|done].
Qed.

Lemma StronglySorted_lookup {A} (R : A → A → Prop) l i j a b :
  StronglySorted R l → i < j → l !! i = Some a → l !! j = Some b → R a b.
Proof.
  intros Hsorted. revert i j.
  induction Hsorted as [|x l Hsorted IH Hall]; intros i j Hij Hi Hj; [done|].
  destruct j as [|j]; [lia|]. destruct i as [|i]; simpl in *.
  - injection Hi as ->. rewrite Forall_forall in Hall.
    apply Hall. by eapply list_elem_of_lookup_2.
  - apply (IH i j); [lia|done..].
Qed.

Lemma elem_of_candidateRows row p ex data :
  row ∈ candidateRows p ex data ↔
  ∃ values valObj,
    (row_descriptor row, Some values) ∈ data ∧
    matchesDescriptorPattern (row_descriptor row) p = true ∧
    (row_value row, Some valObj) ∈ values ∧
    vo_count valObj = Some (row_count row) ∧
    vo_containsToken valObj = false ∧
    (ex = true → vo_isIgnored valObj = false) ∧
    row_files row = default [] (vo_files valObj) ∧
    row_id row = default EmptyString (vo_id valObj).
Proof.
  unfold candidateRows. rewrite list_elem_of_bind. split.
  - intros ([d descObj] & Hrow & Hd).
    destruct (matchesDescriptorPattern d p) eqn:Hmatch;
      [|by apply elem_of_nil in Hrow].
    apply list_elem_of_omap in Hrow as ([v valObj] & Hv & Hrow).
    destruct descObj as [values|]; [|by apply elem_of_nil in Hv]. simpl in Hv.
    destruct valObj as [valObj|]; [|done]. simpl in Hrow.
    destruct (vo_count valObj) as [count|] eqn:Hcount; [|done].
    destruct (vo_containsToken valObj) eqn:Htoken; [done|].
    destruct (ex && vo_isIgnored valObj) eqn:Hignored; [done|].
    injection Hrow as <-. simpl. exists values, valObj.
    repeat split; try done.
    intros ->. by destruct (vo_isIgnored valObj).
  - intros (values & valObj & Hd & Hmatch & Hv & Hcount & Htoken & Hignored & Hfiles & Hid).
    exists (row_descriptor row, Some values). split; [|done].
    rewrite Hmatch. apply list_elem_of_omap.
    exists (row_value row, Some valObj). split; [done|]. simpl.
    rewrite Hcount, Htoken.
    destruct ex; simpl; [rewrite Hignored by done|];
      rewrite <-Hfiles, <-Hid; by destruct row.
Qed.

(** With a pattern that [validatePattern] accepts, the rows of the
    list are exactly the values of the matching descriptors that have a
    numeric count, hold no design token and, when ignored values are
    excluded, are not ignored; with a pattern it rejects there is no row. *)
Theorem rows_members data p ex row :
  row ∈ rows localeCompare (Some data) p ex ↔
  ok (validatePattern p) = true ∧
  ∃ values valObj,
    (row_descriptor row, Some values) ∈ data ∧
    matchesDescriptorPattern (row_descriptor row) p = true ∧
    (row_value row, Some valObj) ∈ values ∧
    vo_count valObj = Some (row_count row) ∧
    vo_containsToken valObj = false ∧
    (ex = true → vo_isIgnored valObj = false) ∧
    row_files row = default [] (vo_files valObj) ∧
    row_id row = default EmptyString (vo_id valObj).
Proof.
  unfold rows. destruct (ok (validatePattern p)); simpl.
  - rewrite sortRows_Permutation, elem_of_candidateRows. naive_solver.
  - split; [by intros ?%elem_of_nil|by intros [? _]].
Qed.

(** Sorting neither drops nor repeats a row, and the rows come
    out by count, largest first, whatever [localeCompare] answers. *)
Theorem rows_sorted_by_count data p ex :
  (ok (validatePattern p) = true →
   rows localeCompare (Some data) p ex ≡ₚ candidateRows p ex data) ∧
  ∀ i j a b,
    i < j →
    rows localeCompare (Some data) p ex !! i = Some a →
    rows localeCompare (Some data) p ex !! j = Some b →
    row_count b ≤ row_count a.
Proof.
  unfold rows. split.
  - intros ->. simpl. apply sortRows_Permutation.
  - intros i j a b Hij Hi Hj.
    destruct (ok (validatePattern p)); simpl in *; [|done].
    by apply (StronglySorted_lookup byCount _ i j a b
                (sortRows_byCount (candidateRows p ex data))).
Qed.

(** When [localeCompare] is a total and transitive comparison, rows
    of equal count come out in the order [localeCompare] gives to their
    keys [descriptor:value]. *)
Theorem rows_ties_by_key data p ex i j a b :
  (∀ s t, (localeCompare s t ≤ 0)%Z ∨ (localeCompare t s ≤ 0)%Z) →
  (∀ s t u, (localeCompare s t ≤ 0)%Z → (localeCompare t u ≤ 0)%Z →
            (localeCompare s u ≤ 0)%Z) →
  i < j →
  rows localeCompare data p ex !! i = Some a →
  rows localeCompare data p ex !! j = Some b →
  row_count a = row_count b →
  (localeCompare (key a) (key b) ≤ 0)%Z.
Proof.
  intros Htotal Htrans Hij Hi Hj Hcount.
  assert (∀ x y, inOrder x y ∨ inOrder y x) as Htotal'.
  { intros x y. unfold compareRows.
    destruct (Nat.eqb_spec (row_count y) (row_count x)) as [Heq|Hne]; simpl.
    - rewrite Heq, Nat.eqb_refl. simpl. apply Htotal.
    - destruct (Nat.eqb_spec (row_count x) (row_count y)); simpl; lia. }
  assert (∀ x y z, inOrder x y → inOrder y z → inOrder x z) as Htrans'.
  { intros x y z. unfold compareRows.
    destruct (Nat.eqb_spec (row_count y) (row_count x)),
             (Nat.eqb_spec (row_count z) (row_count y)),
             (Nat.eqb_spec (row_count z) (row_count x)); simpl; try lia.
    apply Htrans. }
  assert (∀ l, StronglySorted inOrder (sorted l)) as Hsorted.
  { induction l as [|x l IH]; simpl; [constructor|]. by apply insertRow_inOrder. }
  assert (inOrder a b) as Hab.
  { unfold rows in Hi, Hj. destruct data as [data|]; [|done].
    destruct (ok (validatePattern p)); simpl in *; [|done].
    by apply (StronglySorted_lookup inOrder _ i j a b
                (Hsorted (candidateRows p ex data))). }
  unfold compareRows in Hab. by rewrite Hcount, Nat.eqb_refl in Hab.
Qed.

End RowsFacts.

(** ** The controls and the query string *)

Section UrlFacts.
Import NonTokenValues.

Lemma paramsGet_delete name params k :
  paramsGet (paramsDelete name params) k
  = if decide (k = name) then None else paramsGet params k.
Proof.
  unfold paramsDelete, Params. induction params as [|[k' v'] params IH].
  - by destruct (decide _).
  - rewrite filter_cons. simpl. destruct (decide (k' ≠ name)) as [Hne|Heq%dec_stable].
    + simpl. rewrite IH. repeat destruct (decide _); congruence.
    + rewrite IH. repeat destruct (decide _); congruence.
Qed.

Lemma paramsGet_set name value params k :
  paramsGet (paramsSet name value params) k
  = if decide (k = name) then Some value else paramsGet params k.
Proof.
  induction params as [|[k' v'] params IH]; simpl.
  - repeat destruct (decide _); congruence.
  - destruct (decide (k' = name)) as [->|Hne]; simpl.
    + rewrite paramsGet_delete. repeat destruct (decide _); congruence.
    + rewrite IH. repeat destruct (decide _); congruence.
Qed.

Lemma rev_app_rev_app k cur acc :
  String.rev_app (String.rev_app k cur) acc = String.rev_app cur (k +:+ acc).
Proof.
  revert cur acc. induction k as [|a k IH]; intros cur acc; simpl; [done|].
  by rewrite IH.
Qed.

Lemma string_app_nil_r (s : string) : s +:+ EmptyString = s.
Proof.
  induction s as [|a s IH]; [done|].
  change (String a (s +:+ EmptyString) = String a s). by rewrite IH.
Qed.

Lemma includes_comma_cons c k :
  includes "," (String c k) = false → c ≠ ","%char ∧ includes "," k = false.
Proof.
  change (includes "," (String c k))
    with (startsWith "," (String c k) || includes "," k).
  intros [Hc Hk]%orb_false_iff. split; [|done]. intros ->. done.
Qed.

Lemma splitCommas_app cur k rest :
  includes "," k = false →
  splitCommas cur (k +:+ rest) = splitCommas (String.rev_app k cur) rest.
Proof.
  revert cur. induction k as [|c k IH]; intros cur Hk; [done|].
  apply includes_comma_cons in Hk as [Hc Hk]. simpl.
  rewrite decide_False by done. by apply IH.
Qed.

Lemma splitCommas_joinCommas keys :
  keys ≠ [] → Forall (λ k, includes "," k = false) keys →
  splitCommas EmptyString (joinCommas keys) = keys.
Proof.
  intros Hne Hkeys. induction Hkeys as [|k keys Hk Hkeys IH]; [done|].
  destruct keys as [|k' keys].
  - simpl. rewrite <-(string_app_nil_r k) at 1.
    rewrite (splitCommas_app _ _ _ Hk). simpl. unfold String.rev.
    by rewrite rev_app_rev_app, string_app_nil_r.
  - change (joinCommas (k :: k' :: keys))
      with (k +:+ String ","%char (joinCommas (k' :: keys))).
    rewrite (splitCommas_app _ _ _ Hk). simpl. unfold String.rev at 1.
    rewrite rev_app_rev_app, string_app_nil_r. f_equal. by apply IH.
Qed.

Lemma elem_of_setAdd openSet key k : k ∈ setAdd openSet key ↔ k ∈ openSet ∨ k = key.
Proof.
  unfold setAdd. destruct (decide (key ∈ openSet)).
  - split; [by left|]. by intros [?| ->].
  - rewrite elem_of_app, list_elem_of_singleton. done.
Qed.

Lemma NoDup_setAdd openSet key : NoDup openSet → NoDup (setAdd openSet key).
Proof.
  unfold setAdd. intros Hnd. destruct (decide (key ∈ openSet)) as [|Hkey]; [done|].
  apply NoDup_app. split; [done|]. split; [|apply NoDup_singleton].
  intros k Hk ->%list_elem_of_singleton. done.
Qed.

Lemma foldl_setAdd keys acc :
  NoDup acc →
  NoDup (foldl setAdd acc keys) ∧
  ∀ k, k ∈ foldl setAdd acc keys ↔ k ∈ acc ∨ k ∈ keys.
Proof.
  revert acc. induction keys as [|key keys IH]; intros acc Hnd; simpl.
  - split; [done|]. intros k. rewrite elem_of_nil. tauto.
  - destruct (IH (setAdd acc key) (NoDup_setAdd _ _ Hnd)) as [Hnd' Hin].
    split; [done|]. intros k. rewrite Hin, elem_of_setAdd, elem_of_cons. tauto.
Qed.

Lemma newSet_spec keys : NoDup (newSet keys) ∧ ∀ k, k ∈ newSet keys ↔ k ∈ keys.
Proof.
  destruct (foldl_setAdd keys [] (NoDup_nil_2)) as [Hnd Hin].
  split; [done|]. intros k. unfold newSet. rewrite Hin, elem_of_nil. tauto.
Qed.

Variable differsFromBoolean : string → bool → bool.

#[local] Abbreviation write := (writeStateToURL differsFromBoolean).
#[local] Abbreviation toggle := (onToggleDetails differsFromBoolean).

Lemma writeStateToURL_changed replace el w :
  paramsGet (search w) "pattern" ≠ Some (pattern el) ∨
  paramsGet (search w) "ex" = None →
  write replace el w
  = (mkControls (pattern el) (excludeIgnored el) [],
     let params :=
       paramsDelete "o"
         (paramsSet "ex" (if excludeIgnored el then "1" else "0")
            (paramsSet "pattern" (pattern el) (search w))) in
     if replace then replaceState params w else pushState params w).
Proof.
  intros Hchanged. unfold writeStateToURL.
  destruct (paramsGet (search w) "pattern") as [p|] eqn:Hp; [|done].
  destruct (decide (p = pattern el)) as [->|Hne].
  - destruct Hchanged as [?| ->]; [done|].
    by rewrite orb_true_r.
  - by rewrite bool_decide_eq_true_2.
Qed.

Lemma writeStateToURL_unchanged replace el w ex :
  paramsGet (search w) "pattern" = Some (pattern el) →
  paramsGet (search w) "ex" = Some ex →
  differsFromBoolean ex (excludeIgnored el) = false →
  write replace el w
  = (el,
     let params :=
       if negb (length (openDetails el) =? 0)
       then paramsSet "o" (joinCommas (openDetails el)) (search w)
       else paramsDelete "o" (search w) in
     if replace then replaceState params w else pushState params w).
Proof.
  intros Hp Hex Hsame. unfold writeStateToURL. rewrite Hp, Hex, Hsame.
  rewrite bool_decide_eq_false_2 by (by intros []). simpl.
  by destruct (negb _).
Qed.

(** When the query string does not hold the pattern of the controls, or
    holds no [ex], a toggle of a details element is lost: the open keys of
    the controls are emptied, whatever was toggled, and the query string
    gets the pattern and the flag of the controls and no [o]. *)
Theorem onToggleDetails_lost newKey open el w :
  paramsGet (search w) "pattern" ≠ Some (pattern el) ∨
  paramsGet (search w) "ex" = None →
  openDetails (toggle newKey open el w).1 = [] ∧
  paramsGet (search (toggle newKey open el w).2) "pattern" = Some (pattern el) ∧
  paramsGet (search (toggle newKey open el w).2) "ex"
    = Some (if excludeIgnored el then "1" else "0") ∧
  paramsGet (search (toggle newKey open el w).2) "o" = None.
Proof.
  intros Hchanged. unfold onToggleDetails.
  rewrite writeStateToURL_changed by done. simpl.
  rewrite !paramsGet_delete, !paramsGet_set. by repeat split.
Qed.

(** When the query string agrees with the pattern and the flag of the
    controls, a toggle is recorded: the open keys have no duplicate, hold
    the key exactly when the element was opened, and are otherwise those of
    before; the query string lists them under [o] (no [o] when there is
    none), and one entry is added to the history. *)
Theorem onToggleDetails_recorded newKey open el w ex :
  paramsGet (search w) "pattern" = Some (pattern el) →
  paramsGet (search w) "ex" = Some ex →
  differsFromBoolean ex (excludeIgnored el) = false →
  let el' := (toggle newKey open el w).1 in
  let w' := (toggle newKey open el w).2 in
  NoDup (openDetails el') ∧
  (newKey ∈ openDetails el' ↔ open = true) ∧
  (∀ k, k ≠ newKey → k ∈ openDetails el' ↔ k ∈ openDetails el) ∧
  paramsGet (search w') "o"
    = (if decide (openDetails el' = []) then None
       else Some (joinCommas (openDetails el'))) ∧
  back w' = back w ++ [search w].
Proof.
  intros Hp Hex Hsame. unfold onToggleDetails.
  destruct (newSet_spec (openDetails el)) as [Hnd Hin].
  set (openSet := if open then _ else _).
  rewrite (writeStateToURL_unchanged false _ w ex) by done. simpl.
  assert (NoDup openSet ∧ (newKey ∈ openSet ↔ open = true) ∧
          ∀ k, k ≠ newKey → k ∈ openSet ↔ k ∈ openDetails el) as (Hnd' & Hkey & Hrest).
  { subst openSet. destruct open.
    - split; [by apply NoDup_setAdd|]. split.
      + rewrite elem_of_setAdd. naive_solver.
      + intros k Hk. rewrite elem_of_setAdd, Hin. naive_solver.
    - unfold setDelete. split; [by apply NoDup_filter|]. split.
      + rewrite list_elem_of_filter. naive_solver.
      + intros k Hk. rewrite list_elem_of_filter, Hin. naive_solver. }
  split; [done|]. split; [done|]. split; [done|]. split; [|done].
  destruct openSet as [|k openSet']; simpl.
  - by rewrite paramsGet_delete.
  - by rewrite paramsGet_set.
Qed.

(** What [_writeStateToURL] leaves in the query string reads back as the
    controls it leaves in the element, when the pattern of the controls is
    valid, no open key holds a comma and the [ex] of the query string, if
    any, is ["0"] or ["1"]. *)
Theorem writeStateToURL_reads_back replace el w :
  ok (validatePattern (pattern el)) = true →
  Forall (λ k, includes "," k = false) (openDetails el) →
  (∀ ex, paramsGet (search w) "ex" = Some ex → ex = "0" ∨ ex = "1") →
  differsFromBoolean "0" true = true →
  differsFromBoolean "1" false = true →
  readControls (write replace el w).2 = (write replace el w).1.
Proof.
  intros Hvalid Hkeys Hflag Hzero Hone.
  assert (pattern el ≠ EmptyString) as Hne.
  { intros Hempty. by rewrite Hempty in Hvalid. }
  assert (∀ w', paramsGet (search w') "pattern" = Some (pattern el) →
                pattern (readControls w') = pattern el) as Hpattern.
  { intros w' Hget. unfold readControls, readControlsFromURL. simpl.
    rewrite Hget, decide_False by done. by rewrite Hvalid. }
  assert (∀ w',
            search w' = paramsDelete "o"
              (paramsSet "ex" (if excludeIgnored el then "1" else "0")
                 (paramsSet "pattern" (pattern el) (search w))) →
            readControls w' = mkControls (pattern el) (excludeIgnored el) [])
    as Hreset.
  { intros w' Hsearch.
    assert (pattern (readControls w') = pattern el) as Hp.
    { apply Hpattern. rewrite Hsearch.
      by rewrite paramsGet_delete, !paramsGet_set. }
    destruct (readControls w') as [p e o] eqn:Hread. simpl in Hp. subst p.
    unfold readControls, readControlsFromURL in Hread.
    rewrite Hsearch in Hread. rewrite !paramsGet_delete, !paramsGet_set in Hread.
    simpl in Hread. injection Hread as _ <- <-.
    by destruct (excludeIgnored el). }
  destruct (decide (paramsGet (search w) "pattern" ≠ Some (pattern el) ∨
                    paramsGet (search w) "ex" = None)) as [Hchanged|Hsame].
  - rewrite writeStateToURL_changed by done. cbn [fst snd].
    apply Hreset. by destruct replace.
  - apply Decidable.not_or in Hsame as [Hp%dec_stable Hex].
    destruct (paramsGet (search w) "ex") as [ex|] eqn:Hex'; [clear Hex|done].
    destruct (differsFromBoolean ex (excludeIgnored el)) eqn:Hdiffers.
    + unfold writeStateToURL. rewrite Hp, Hex', Hdiffers, orb_true_r.
      cbn [fst snd]. apply Hreset. by destruct replace.
    + rewrite (writeStateToURL_unchanged replace el w ex) by done.
      cbn [fst snd]. set (w' := if replace then _ else _).
      assert (search w' = if negb (length (openDetails el) =? 0)
                          then paramsSet "o" (joinCommas (openDetails el)) (search w)
                          else paramsDelete "o" (search w)) as Hsearch.
      { subst w'. by destruct replace. }
      assert (paramsGet (search w') "pattern" = Some (pattern el)) as Hp'.
      { rewrite Hsearch.
        destruct (negb _); by rewrite ?paramsGet_set, ?paramsGet_delete. }
      assert (paramsGet (search w') "ex" = Some ex) as Hex''.
      { rewrite Hsearch.
        destruct (negb _); by rewrite ?paramsGet_set, ?paramsGet_delete. }
      assert (paramsGet (search w') "o"
              = if decide (openDetails el = []) then None
                else Some (joinCommas (openDetails el))) as Ho.
      { rewrite Hsearch. destruct (openDetails el); simpl;
          by rewrite ?paramsGet_set, ?paramsGet_delete. }
      specialize (Hpattern w' Hp').
      destruct (readControls w') as [p e o] eqn:Hread. simpl in Hpattern. subst p.
      unfold readControls, readControlsFromURL in Hread.
      rewrite Hex'', Ho in Hread. simpl in Hread. injection Hread as _ <- <-.
      destruct el as [p e o]. simpl in *. f_equal.
      * destruct (Hflag ex eq_refl) as [-> | ->]; destruct e; try done; congruence.
      * destruct (decide (o = [])) as [->|Ho']; [done|].
        by apply splitCommas_joinCommas.
Qed.

End UrlFacts.

(** ** Runs of the properties above *)

Lemma codeUnitCompare_le s t :
  (TestDoubles.codeUnitCompare s t ≤ 0)%Z ↔ String.le s t.
Proof.
  unfold TestDoubles.codeUnitCompare.
  destruct (String.eqb_spec s t) as [->|_]; [done|].
  unfold String.le. destruct (String.leb s t); simpl; [done|]. split; [lia|done].
Qed.

Lemma codeUnitCompare_total s t :
  (TestDoubles.codeUnitCompare s t ≤ 0)%Z ∨ (TestDoubles.codeUnitCompare t s ≤ 0)%Z.
Proof.
  rewrite !codeUnitCompare_le. destruct (total String.le s t); auto.
Qed.

Lemma codeUnitCompare_trans s t u :
  (TestDoubles.codeUnitCompare s t ≤ 0)%Z →
  (TestDoubles.codeUnitCompare t u ≤ 0)%Z →
  (TestDoubles.codeUnitCompare s u ≤ 0)%Z.
Proof. rewrite !codeUnitCompare_le. apply transitivity. Qed.

Module Examples.
Import TestDoubles.

Abbreviation descriptorsOf fs := (byDescriptor (descriptorValues (aggregate fs))).
Abbreviation tokensOf fs := (byToken (tokenUsage (aggregate fs))).
Abbreviation normalize := (normalizedPath "/project" (posixRelative [])).
Abbreviation button := "/project/src/components/button.css".



Lemma bucket_isIgnored_iff_witness :
  ∃ ve,
    valueEntryOf (descriptorsOf [keptUse; ignoredUse]) "background-color" "inherit"
      = Some ve ∧
    (ve_isIgnored ve = true ↔
     ∃ f, f ∈ [keptUse; ignoredUse] ∧ f_descriptor f = "background-color" ∧
          f_value f = "inherit" ∧ f_isIgnored f = true).
Proof.
  eexists. split; [vm_compute; reflexivity|].
  eapply (bucket_isIgnored_iff "/project" (posixRelative [])
            "2025-01-01T00:00:00.000Z" [keptUse; ignoredUse]
            "background-color" "inherit").
  vm_compute. reflexivity.
Defined.

Lemma bucket_containsToken_first_witness :
  ∃ ve,
    valueEntryOf (descriptorsOf [unresolvedUse; tokenUse]) "color" "var(--accent)"
      = Some ve ∧
    ∃ first rest,
      pairFindings "color" "var(--accent)" [unresolvedUse; tokenUse] = first :: rest ∧
      ve_containsToken ve = f_containsToken first.
Proof.
  eexists. split; [vm_compute; reflexivity|].
  apply (bucket_containsToken_first "/project" (posixRelative [])
           "2025-01-01T00:00:00.000Z" [unresolvedUse; tokenUse]
           "color" "var(--accent)").
  vm_compute. reflexivity.
Defined.

Lemma bucket_exists_iff_witness :
  is_Some (valueEntryOf (descriptorsOf [unresolvedUse; tokenUse])
             "color" "var(--accent)") ↔
  ∃ f, f ∈ [unresolvedUse; tokenUse] ∧ f_descriptor f = "color" ∧
       f_value f = "var(--accent)".
Proof.
  apply (bucket_exists_iff "/project" (posixRelative [])
           "2025-01-01T00:00:00.000Z" [unresolvedUse; tokenUse]).
  vm_compute. reflexivity.
Defined.

Lemma byToken_exists_iff_witness :
  is_Some (tokensOf [unresolvedUse; tokenUse] !! "--color-accent-primary") ↔
  ∃ f tokenIds, f ∈ [unresolvedUse; tokenUse] ∧ f_tokens f = Some tokenIds ∧
                "--color-accent-primary" ∈ tokenIds.
Proof.
  apply (byToken_exists_iff "/project" (posixRelative [])
           "2025-01-01T00:00:00.000Z" [unresolvedUse; tokenUse]).
  vm_compute. reflexivity.
Defined.

Lemma bucket_counts_order_independent_witness :
  (λ ve, (ve_count ve, ve_isIgnored ve, ve_files ve)) <$>
    valueEntryOf (descriptorsOf [ignoredUse; keptUse]) "background-color" "inherit"
  = (λ ve, (ve_count ve, ve_isIgnored ve, ve_files ve)) <$>
    valueEntryOf (descriptorsOf [keptUse; ignoredUse]) "background-color" "inherit".
Proof.
  apply (bucket_counts_order_independent "/project" (posixRelative [])
           "2025-01-01T00:00:00.000Z" [ignoredUse; keptUse] [keptUse; ignoredUse]).
  apply perm_swap.
Defined.


Lemma byToken_order_independent_witness :
  tokensOf [aliasTwice; tokenUse] = tokensOf [tokenUse; aliasTwice].
Proof.
  apply (byToken_order_independent "/project" (posixRelative [])
           "2025-01-01T00:00:00.000Z" [aliasTwice; tokenUse] [tokenUse; aliasTwice]).
  apply perm_swap.
Defined.

Lemma normalizePathForOutput_under_root_witness :
  normalizePathForOutput "/project" (posixRelative []) button
  = Ok "src/components/button.css".
Proof.
  apply (normalizePathForOutput_under_root [] "/project" button
           "s" "rc" ["components"; "button.css"]).
  - discriminate.
  - vm_compute. reflexivity.
  - discriminate.
  - discriminate.
  - reflexivity.
Defined.

Lemma normalizePathForOutput_outside_root_witness :
  normalizePathForOutput "/project" (posixRelative []) "/elsewhere/a.css"
  = Ok "/elsewhere/a.css".
Proof.
  apply (normalizePathForOutput_outside_root [] "/project" "/elsewhere/a.css").
  vm_compute. discriminate.
Defined.

Lemma collectDeclarations_declarations_witness :
  ∃ st' fv',
    collectDeclarations (C := collaborators files) buttonCss ∅ button start
      = (st', Ok (omap (declarationOf (C := collaborators files)) buttonCss, fv')) ∧
    onlyLogs start st'.
Proof.
  apply (collectDeclarations_declarations (C := collaborators files)
           buttonCss ∅ button start "src/components/button.css").
  vm_compute. reflexivity.
Defined.

Lemma collectDeclarations_scope_witness :
  ∃ st' declarations fv',
    collectDeclarations (C := collaborators files) buttonCss claimedScope button start
      = (st', Ok (declarations, fv')) ∧
    ∀ name,
      fv' !! name
      = scopeAfter (C := collaborators files) buttonCss claimedScope name.
Proof.
  apply (collectDeclarations_scope (C := collaborators files)
           buttonCss claimedScope button start "src/components/button.css").
  vm_compute. reflexivity.
Defined.

Lemma collectExternalFiles_last_wins_witness :
  ∃ st' fv',
    collectExternalFiles (C := withShared) button ∅
      (["shared/tokens.css"] ++ ["shared/overrides.css"]) start = (st', Ok fv') ∧
    fv' !! "--color-accent-primary" = Some overriddenAccent.
Proof.
  apply (collectExternalFiles_last_wins (C := withShared) button ∅
           ["shared/tokens.css"] "shared/overrides.css"
           {[ "--color-accent-primary" := overriddenAccent ]}
           "--color-accent-primary" overriddenAccent start).
  - vm_compute. discriminate.
  - vm_compute. reflexivity.
  - vm_compute. reflexivity.
Defined.

Lemma getPropagationData_success_witness :
  ∃ st' summary,
    getPropagationData (C := collaborators files) button start = (st', Ok summary) ∧
    foundProps summary
      = length (omap (declarationOf (C := collaborators files)) buttonCss) ∧
    foundPropValues summary
      = (λ d, resolvedOf (C := collaborators files) d (foundVariables summary) button)
          <$> omap (declarationOf (C := collaborators files)) buttonCss ∧
    usageFindingsBuffer st'
      = usageFindingsBuffer start ++
        ((λ d, findingFor (C := collaborators files) d (foundVariables summary) button)
           <$> omap (declarationOf (C := collaborators files)) buttonCss).
Proof.
  apply (getPropagationData_success (C := collaborators files)
           button buttonCss "src/components/button.css" start).
  - vm_compute. reflexivity.
  - vm_compute. reflexivity.
  - intros report tokens descriptors. reflexivity.
  - vm_compute. reflexivity.
Defined.

Lemma getPropagationData_write_failure_witness :
  ∃ st',
    getPropagationData (C := failingWrites) button start
      = (st', Throw (newError diskFull)) ∧
    last (console st')
      = Some ("Unable to read or parse " +:+ button +:+ " " +:+
                err_message diskFull) ∧
    length (usageFindingsBuffer st')
      = length (usageFindingsBuffer start) +
        length (omap (declarationOf (C := failingWrites)) buttonCss).
Proof.
  apply (getPropagationData_write_failure (C := failingWrites)
           button buttonCss "src/components/button.css" diskFull start).
  - vm_compute. reflexivity.
  - vm_compute. reflexivity.
  - intros report tokens descriptors. reflexivity.
  - vm_compute. reflexivity.
Defined.

Lemma getPropagationData_percentage_range_witness :
  ∃ st' summary,
    getPropagationData (C := collaborators files) button start = (st', Ok summary) ∧
    designTokenCount summary + ignoredOf summary ≤ foundProps summary ∧
    (percentage summary = (-1)%Q ∨
     (0 <= percentage summary)%Q ∧ (percentage summary <= 100)%Q).
Proof.
  eexists _, _. split; [vm_compute; reflexivity|].
  eapply (getPropagationData_percentage_range (C := collaborators files)
            button start).
  vm_compute. reflexivity.
Defined.

(** The shared file that is not there is logged and skipped. *)
Example missing_external_file_logged :
  console (collectExternalVars (C := withShared) button start).1
  = ["shared/missing.css doesn't exist, skipping... " +:+
     "ENOENT: no such file or directory, open '/project/shared/missing.css'"].
Proof. vm_compute. reflexivity. Qed.

(** White space beyond ASCII is trimmed, and is allowed inside a pattern. *)
Example trim_unicode_spaces :
  NonTokenValues.trim (noBreakSpace +:+ " " +:+ lineSeparator +:+ "x y" +:+
                       byteOrderMark +:+ " " +:+ noBreakSpace)
  = "x y".
Proof. vm_compute. reflexivity. Qed.

Example validatePattern_unicode :
  NonTokenValues.ok <$>
    [ NonTokenValues.validatePattern ("a" +:+ noBreakSpace +:+ "b");
      NonTokenValues.validatePattern (lineSeparator +:+ "red*" +:+ byteOrderMark);
      NonTokenValues.validatePattern ("a" +:+ fullwidthTilde);
      NonTokenValues.validatePattern noBreakSpace ]
  = [true; true; false; false].
Proof. vm_compute. reflexivity. Qed.

Lemma validatePattern_rejects_disallowed_witness :
  NonTokenValues.ok (NonTokenValues.validatePattern "<script>") = false.
Proof.
  apply (validatePattern_rejects_disallowed "<script>" "<"%char).
  - vm_compute. constructor.
  - vm_compute. lia.
  - reflexivity.
  - discriminate.
Defined.

Lemma matchesDescriptorPattern_exact_witness :
  NonTokenValues.matchesDescriptorPattern "margin-top" "margin" = true
  ↔ "margin-top" = "margin".
Proof.
  apply (matchesDescriptorPattern_exact "margin-top" "margin"). reflexivity.
Defined.

Lemma rows_ties_by_key_witness :
  ∃ a b,
    NonTokenValues.rows codeUnitCompare (Some sampleData) "padding" false !! 0
      = Some a ∧
    NonTokenValues.rows codeUnitCompare (Some sampleData) "padding" false !! 1
      = Some b ∧
    NonTokenValues.row_value a = "2px" ∧
    NonTokenValues.row_value b = "4px" ∧
    (codeUnitCompare
       (NonTokenValues.row_descriptor a +:+ ":" +:+ NonTokenValues.row_value a)
       (NonTokenValues.row_descriptor b +:+ ":" +:+ NonTokenValues.row_value b)
     ≤ 0)%Z.
Proof.
  eexists _, _. split; [vm_compute; reflexivity|].
  split; [vm_compute; reflexivity|]. split; [reflexivity|]. split; [reflexivity|].
  eapply (rows_ties_by_key codeUnitCompare (Some sampleData) "padding" false 0 1).
  - apply codeUnitCompare_total.
  - apply codeUnitCompare_trans.
  - lia.
  - vm_compute. reflexivity.
  - vm_compute. reflexivity.
  - reflexivity.
Defined.

Lemma onToggleDetails_lost_witness :
  NonTokenValues.openDetails
    (NonTokenValues.onToggleDetails flagDiffers "row-1" true
       (NonTokenValues.readControls barePage) barePage).1 = [] ∧
  NonTokenValues.paramsGet
    (NonTokenValues.search
       (NonTokenValues.onToggleDetails flagDiffers "row-1" true
          (NonTokenValues.readControls barePage) barePage).2) "pattern"
    = Some "*" ∧
  NonTokenValues.paramsGet
    (NonTokenValues.search
       (NonTokenValues.onToggleDetails flagDiffers "row-1" true
          (NonTokenValues.readControls barePage) barePage).2) "ex"
    = Some "0" ∧
  NonTokenValues.paramsGet
    (NonTokenValues.search
       (NonTokenValues.onToggleDetails flagDiffers "row-1" true
          (NonTokenValues.readControls barePage) barePage).2) "o"
    = None.
Proof.
  apply (onToggleDetails_lost flagDiffers "row-1" true
           (NonTokenValues.readControls barePage) barePage).
  right. reflexivity.
Defined.

(** The test "_onToggleDetails adds and removes keys from openDetails",
    at its first toggle. *)
Lemma onToggleDetails_recorded_witness :
  NoDup (NonTokenValues.openDetails
           (NonTokenValues.onToggleDetails flagDiffers "row-1" true
              (NonTokenValues.readControls descriptorsPage) descriptorsPage).1) ∧
  ("row-1" ∈ NonTokenValues.openDetails
               (NonTokenValues.onToggleDetails flagDiffers "row-1" true
                  (NonTokenValues.readControls descriptorsPage) descriptorsPage).1
   ↔ true = true) ∧
  (∀ k, k ≠ "row-1" →
        k ∈ NonTokenValues.openDetails
              (NonTokenValues.onToggleDetails flagDiffers "row-1" true
                 (NonTokenValues.readControls descriptorsPage) descriptorsPage).1
        ↔ k ∈ NonTokenValues.openDetails
                (NonTokenValues.readControls descriptorsPage)) ∧
  NonTokenValues.paramsGet
    (NonTokenValues.search
       (NonTokenValues.onToggleDetails flagDiffers "row-1" true
          (NonTokenValues.readControls descriptorsPage) descriptorsPage).2) "o"
    = Some "row-1" ∧
  NonTokenValues.back
    (NonTokenValues.onToggleDetails flagDiffers "row-1" true
       (NonTokenValues.readControls descriptorsPage) descriptorsPage).2
    = [NonTokenValues.search descriptorsPage].
Proof.
  apply (onToggleDetails_recorded flagDiffers "row-1" true
           (NonTokenValues.readControls descriptorsPage) descriptorsPage "0").
  - reflexivity.
  - reflexivity.
  - reflexivity.
Defined.

Lemma writeStateToURL_reads_back_witness :
  NonTokenValues.readControls
    (NonTokenValues.writeStateToURL flagDiffers false
       (NonTokenValues.mkControls "margin*" true ["row-1"; "row-2"])
       descriptorsPage).2
  = (NonTokenValues.writeStateToURL flagDiffers false
       (NonTokenValues.mkControls "margin*" true ["row-1"; "row-2"])
       descriptorsPage).1.
Proof.
  apply (writeStateToURL_reads_back flagDiffers false
           (NonTokenValues.mkControls "margin*" true ["row-1"; "row-2"])
           descriptorsPage).
  - vm_compute. reflexivity.
  - repeat constructor.
  - intros ex Hex. vm_compute in Hex. injection Hex as <-. by left.
  - reflexivity.
  - reflexivity.
Defined.

(** The test "_rows sorts by count desc, then descriptor:value
    lexicographically": descriptor, value and count of the rows, in order. *)
Example rows_of_sample :
  (λ r, (NonTokenValues.row_descriptor r, NonTokenValues.row_value r,
         NonTokenValues.row_count r)) <$>
    NonTokenValues.rows codeUnitCompare (Some sampleData) "*" false
  = [("padding", "2px", 10); ("padding", "4px", 10);
     ("margin", "0", 3); ("margin", "0 auto", 2)].
Proof. vm_compute. reflexivity. Qed.

End Examples.
